(** * Iterative solver for kinematic moves (klippy/chelper/itersolve.c)

    A shallow embedding of [itersolve_find_step], [itersolve_gen_steps] and
    the accessors of the stepper state.

    - A C [double] is a primitive binary64 [float]; every arithmetic
      operation and comparison below is the IEEE 754 one the C code performs.
    - The stepper state [struct stepper_kinematics] is a record that lives in
      the [world]; the callbacks it points to are function pointers whose
      behaviour the environment supplies.  A callback receives the pointer to
      the stepper state, so it may write to it.
    - The step queue (stepcompress.h) is an external collaborator: its state is
      an abstract type and its operations are parameters.
    - Every call that leaves the file (oracle, queue, post hook) is recorded
      in a trace, which is what the properties of the step stream talk about.
    - The two [for (;;)] loops are fuel-bounded: [Done] carries what the C
      code returns, [OutOfFuel] the state reached when the fuel ran out. *)

From Stdlib Require Import ZArith QArith Qabs List Bool Lia Floats.
Import ListNotations.
Close Scope Q_scope.

Set Warnings "-inexact-float".

(** ** Data model *)

(** [struct timepos]. *)
Record timepos : Type := mk_timepos { time : float; position : float }.

(** Pointers are addresses; a null function pointer is address 0. *)
Definition ptr := N.
Definition fnptr := N.

(** [struct stepper_kinematics] (the fields this file reads or writes). *)
Record stepper_kinematics : Type := mk_sk {
  sc : ptr;
  step_dist : float;
  commanded_pos : float;
  calc_position_cb : fnptr;
  post_cb : fnptr
}.

Definition set_commanded_pos (sk : stepper_kinematics) (pos : float)
  : stepper_kinematics :=
  {| sc := sc sk; step_dist := step_dist sk; commanded_pos := pos;
     calc_position_cb := calc_position_cb sk; post_cb := post_cb sk |}.

(** Calls that leave this file, in the order they are made. *)
Inductive event : Type :=
| EvCalcPosition (cb : fnptr) (t : float)
| EvQueueAppendStart (sc : ptr) (print_time precision : float)
| EvQueueAppend (step_time clock : float) (ret : Z)
| EvSetNextStepDir (sdir : Z) (ret : Z)
| EvQueueAppendFinish
| EvPostCb (cb : fnptr).

(** Local variables of [itersolve_gen_steps]. *)
Record locals : Type := mk_locals {
  l_calc_position_cb : fnptr;
  half_step : float;
  mcu_freq : float;
  last : timepos;
  low : timepos;
  high : timepos;
  seek_time_delta : float;
  sdir : Z
}.

(** How an iteration of the generator's loop ends. *)
Inductive flow : Type :=
| Continue (l : locals)
| Break (l : locals)
| Return (ret : Z).

(** ** The environment of the solver

    [struct move] (trapq.h): the generator reads [print_time] and [move_t];
    everything else in it is for the position oracle.

    [queue] is the state of the step queue module (stepcompress.h), append
    session included; the six functions after it are its operations.

    [call_calc_position] and [call_post] say what calling through a
    [sk_calc_callback] / [sk_post_callback] pointer does: the result and the
    stepper state it leaves behind.

    C leaves the sign bit of a NaN to the platform: [signbit_nan].  A
    [float] has a single NaN, without a sign bit, where a C double has many:
    the sign that [signbit] reads off a NaN is the same for every NaN of a
    run.  A run that takes the sign of two NaNs that differ in it (one the
    oracle returned, say, and the one [inf - inf] gives) is not a run of this
    model; a run that takes the sign of no NaN is not affected. *)
Record environment : Type := mk_environment {
  move : Type;
  print_time : move -> float;
  move_t : move -> float;
  queue : Type;
  stepcompress_get_mcu_freq : ptr -> queue -> float;
  stepcompress_get_step_dir : ptr -> queue -> Z;
  queue_append_start : ptr -> float -> float -> queue -> queue;
  queue_append : float -> queue -> Z * queue;
  queue_append_set_next_step_dir : Z -> queue -> Z * queue;
  queue_append_finish : queue -> queue;
  call_calc_position :
    fnptr -> stepper_kinematics -> move -> float -> float * stepper_kinematics;
  call_post : fnptr -> stepper_kinematics -> stepper_kinematics;
  signbit_nan : bool
}.

Section Itersolve.

Variable E : environment.

(** [signbit] of math.h. *)
Definition signbit (x : float) : bool :=
  if is_nan x then signbit_nan E else get_sign x.

Record world : Type := mk_world {
  w_sk : stepper_kinematics;
  w_queue : queue E;
  w_trace : list event   (* newest event first *)
}.

(** Result of a fuel-bounded run. *)
Inductive outcome (A : Type) : Type :=
| Done (a : A) (w : world)
| OutOfFuel (w : world).
Arguments Done {A} a w.
Arguments OutOfFuel {A} w.

Definition bind {A B : Type} (o : outcome A) (f : A -> world -> outcome B)
  : outcome B :=
  match o with
  | Done a w => f a w
  | OutOfFuel w => OutOfFuel w
  end.

Definition final_world {A : Type} (o : outcome A) : world :=
  match o with
  | Done _ w => w
  | OutOfFuel w => w
  end.

(** *** Calls into the environment *)

Definition calc_position (cb : fnptr) (m : move E) (t : float) (w : world)
  : float * world :=
  let '(p, sk') := call_calc_position E cb (w_sk w) m t in
  (p, {| w_sk := sk'; w_queue := w_queue w;
         w_trace := EvCalcPosition cb t :: w_trace w |}).

Definition do_queue_append_start (scp : ptr) (pt prec : float) (w : world)
  : world :=
  {| w_sk := w_sk w; w_queue := queue_append_start E scp pt prec (w_queue w);
     w_trace := EvQueueAppendStart scp pt prec :: w_trace w |}.

Definition do_queue_append (step_time clock : float) (w : world)
  : Z * world :=
  let '(ret, q') := queue_append E clock (w_queue w) in
  (ret, {| w_sk := w_sk w; w_queue := q';
           w_trace := EvQueueAppend step_time clock ret :: w_trace w |}).

Definition do_set_next_step_dir (d : Z) (w : world) : Z * world :=
  let '(ret, q') := queue_append_set_next_step_dir E d (w_queue w) in
  (ret, {| w_sk := w_sk w; w_queue := q';
           w_trace := EvSetNextStepDir d ret :: w_trace w |}).

Definition do_queue_append_finish (w : world) : world :=
  {| w_sk := w_sk w; w_queue := queue_append_finish E (w_queue w);
     w_trace := EvQueueAppendFinish :: w_trace w |}.

Definition do_post_cb (cb : fnptr) (w : world) : world :=
  {| w_sk := call_post E cb (w_sk w); w_queue := w_queue w;
     w_trace := EvPostCb cb :: w_trace w |}.

Definition write_commanded_pos (pos : float) (w : world) : world :=
  {| w_sk := set_commanded_pos (w_sk w) pos; w_queue := w_queue w;
     w_trace := w_trace w |}.

(** *** itersolve_find_step *)

(** The [for (;;)] loop of the false position search. [low] and [high]
    hold positions already translated by [target]. *)
Fixpoint find_step_loop (fuel : nat) (cb : fnptr) (m : move E)
    (target : float) (high_sign : bool) (low high best_guess : timepos)
    (w : world) : outcome timepos :=
  match fuel with
  | O => OutOfFuel w
  | S fuel' =>
    let guess_time :=
      ((time low * position high - time high * position low)
       / (position high - position low))%float in
    if (abs (guess_time - time best_guess) <=? 0.000000001)%float then
      Done best_guess w
    else
      let '(p, w') := calc_position cb m guess_time w in
      let best_guess' := {| time := guess_time; position := p |} in
      let guess_position := (p - target)%float in
      let guess_sign := signbit guess_position in
      let guess := {| time := guess_time; position := guess_position |} in
      if Bool.eqb guess_sign high_sign then
        find_step_loop fuel' cb m target high_sign low guess best_guess' w'
      else
        find_step_loop fuel' cb m target high_sign guess high best_guess' w'
  end.

Definition itersolve_find_step (fuel : nat) (m : move E)
    (low high : timepos) (target : float) (w : world)
  : outcome timepos :=
  let cb := calc_position_cb (w_sk w) in
  let best_guess := high in
  let low := {| time := time low;
                position := (position low - target)%float |} in
  let high := {| time := time high;
                 position := (position high - target)%float |} in
  if (position high =? 0)%float then
    (* The high range was a perfect guess for the next step *)
    Done best_guess w
  else
    let high_sign := signbit (position high) in
    if Bool.eqb high_sign (signbit (position low)) then
      (* The target is not in the low/high range - return low range *)
      Done {| time := time low; position := target |} w
    else
      find_step_loop fuel cb m target high_sign low high best_guess w.

(** *** itersolve_gen_steps *)

Definition set_range (l : locals) (low' high' : timepos) (std : float)
  : locals :=
  {| l_calc_position_cb := l_calc_position_cb l; half_step := half_step l;
     mcu_freq := mcu_freq l; last := last l; low := low'; high := high';
     seek_time_delta := std; sdir := sdir l |}.

Definition set_sdir (l : locals) (d : Z) : locals :=
  {| l_calc_position_cb := l_calc_position_cb l; half_step := half_step l;
     mcu_freq := mcu_freq l; last := last l; low := low l; high := high l;
     seek_time_delta := seek_time_delta l; sdir := d |}.

Definition set_step (l : locals) (last' low' : timepos) (std : float)
  : locals :=
  {| l_calc_position_cb := l_calc_position_cb l; half_step := half_step l;
     mcu_freq := mcu_freq l; last := last'; low := low'; high := high l;
     seek_time_delta := std; sdir := sdir l |}.

(** The code at label [seek_new_high_range]. *)
Definition seek_new_high_range (m : move E) (l : locals) (w : world)
  : outcome flow :=
  if (move_t E m <=? time (high l))%float then
    (* At end of move *)
    Done (Break l) w
  else
    (* Need to increase next step search range *)
    let ht := (time (last l) + seek_time_delta l)%float in
    let std := (seek_time_delta l + seek_time_delta l)%float in
    let ht := if (move_t E m <? ht)%float then move_t E m else ht in
    let '(p, w') := calc_position (l_calc_position_cb l) m ht w in
    Done (Continue (set_range l (high l) {| time := ht; position := p |} std))
         w'.

(** [sdir ? half_step : -half_step]. *)
Definition signed_half_step (l : locals) : float :=
  if (sdir l =? 0)%Z then (- half_step l)%float else half_step l.

(** From the comment "Find step" to the end of the loop body. *)
Definition add_step (m : move E) (l : locals) (target : float)
    (next : timepos) (w : world) : outcome flow :=
  (* Add step at given time *)
  let '(ret, w') :=
    do_queue_append (time next) (time next * mcu_freq l)%float w in
  if negb (ret =? 0)%Z then Done (Return ret) w'
  else
    let std := (time next - time (last l))%float in
    let std := if (std <? 0.000000001)%float then 0.000000001%float
               else std in
    let last' := {| time := time next;
                    position := (target + signed_half_step l)%float |} in
    let l' := set_step l last' next std in
    if (time (high l') <=? time (last l'))%float then
      (* The high range is no longer valid - recalculate it *)
      seek_new_high_range m l' w'
    else Done (Continue l') w'.

Definition find_and_add_step (fuel : nat) (m : move E) (l : locals) (w : world)
  : outcome flow :=
  let target := (position (last l) + signed_half_step l)%float in
  bind (itersolve_find_step fuel m (low l) (high l) target w)
       (add_step m l target).

(** One pass through the body of the generator's [for (;;)]. *)
Definition gen_steps_body (fuel : nat) (m : move E) (l : locals) (w : world)
  : outcome flow :=
  (* Determine if next step is in forward or reverse direction *)
  let dist := (position (high l) - position (last l))%float in
  if (abs dist <? half_step l)%float then seek_new_high_range m l w
  else
    let next_sdir := if (0 <? dist)%float then 1%Z else 0%Z in
    if negb (next_sdir =? sdir l)%Z then
      (* Direction change *)
      if (abs dist <? half_step l + 0.000000001)%float then
        (* Only change direction if going past midway point *)
        seek_new_high_range m l w
      else if (time (low l) <=? time (last l))%float
              && (time (last l) <? time (high l))%float then
        (* Must seek new low range to avoid re-finding previous time *)
        let ht := ((time (last l) + time (high l)) * 0.5)%float in
        let '(p, w') := calc_position (l_calc_position_cb l) m ht w in
        Done (Continue (set_range l (low l) {| time := ht; position := p |}
                                  (seek_time_delta l))) w'
      else
        let '(ret, w1) := do_set_next_step_dir next_sdir w in
        if negb (ret =? 0)%Z then Done (Return ret) w1
        else find_and_add_step fuel m (set_sdir l next_sdir) w1
    else find_and_add_step fuel m l w.

(** The generator's [for (;;)]: the locals at the [break], or the status
    of an early [return]. *)
Fixpoint gen_steps_loop (fuel : nat) (m : move E) (l : locals) (w : world)
  : outcome (Z + locals) :=
  match fuel with
  | O => OutOfFuel w
  | S fuel' =>
    match gen_steps_body fuel' m l w with
    | OutOfFuel w' => OutOfFuel w'
    | Done (Continue l') w' => gen_steps_loop fuel' m l' w'
    | Done (Break l') w' => Done (inr l') w'
    | Done (Return ret) w' => Done (inl ret) w'
    end
  end.

(** The locals when the loop is entered. *)
Definition gen_steps_init (m : move E) (w : world) : locals * world :=
  let sk := w_sk w in
  let scp := sc sk in
  let cb := calc_position_cb sk in
  let hs := (0.5 * step_dist sk)%float in
  let freq := stepcompress_get_mcu_freq E scp (w_queue w) in
  let last0 := {| time := 0%float; position := commanded_pos sk |} in
  let d := stepcompress_get_step_dir E scp (w_queue w) in
  let w1 := do_queue_append_start scp (print_time E m) 0.5%float w in
  ({| l_calc_position_cb := cb; half_step := hs; mcu_freq := freq;
      last := last0; low := last0; high := last0;
      seek_time_delta := 0.000100%float; sdir := d |}, w1).

(** The code after the loop. *)
Definition gen_steps_finish (l : locals) (w : world) : outcome Z :=
  let w1 := do_queue_append_finish w in
  let w2 := write_commanded_pos (position (last l)) w1 in
  let cb := post_cb (w_sk w2) in
  let w3 := if (cb =? 0)%N then w2 else do_post_cb cb w2 in
  Done 0%Z w3.

Definition itersolve_gen_steps (fuel : nat) (m : move E) (w : world)
  : outcome Z :=
  let '(l, w1) := gen_steps_init m w in
  bind (gen_steps_loop fuel m l w1)
       (fun r w' =>
          match r with
          | inl ret => Done ret w'
          | inr l' => gen_steps_finish l' w'
          end).

(** *** The accessors *)

Definition itersolve_set_stepcompress (scp : ptr) (dist : float) (w : world)
  : world :=
  {| w_sk := {| sc := scp; step_dist := dist;
                commanded_pos := commanded_pos (w_sk w);
                calc_position_cb := calc_position_cb (w_sk w);
                post_cb := post_cb (w_sk w) |};
     w_queue := w_queue w; w_trace := w_trace w |}.

(** [move_fill] (trapq.h) is given a [struct move] that [memset] has
    zeroed and thirteen numbers: the move it leaves behind is a function of
    these numbers, which is what [move_fill] stands for here. *)
Definition itersolve_calc_position_from_coord
    (move_fill : float -> float -> float -> float -> float -> float -> float
                 -> float -> float -> float -> float -> float -> float
                 -> move E)
    (x y z : float) (w : world) : float * world :=
  let m := (move_fill 0 0 1 0 x y z 0 1 0 0 1 0)%float in
  calc_position (calc_position_cb (w_sk w)) m 0%float w.

Definition itersolve_set_commanded_pos (pos : float) (w : world) : world :=
  write_commanded_pos pos w.

Definition itersolve_get_commanded_pos (w : world) : float :=
  commanded_pos (w_sk w).

End Itersolve.

Arguments w_sk {E} w.
Arguments w_queue {E} w.
Arguments w_trace {E} w.
Arguments mk_world {E} w_sk w_queue w_trace.
Arguments Done {E A} a w.
Arguments OutOfFuel {E A} w.
Arguments bind {E A B} o f.
Arguments final_world {E A} o.

(** ** Reading a trace *)

(** The events of a world in the order they happened. *)
Definition events {E : environment} (w : world E) : list event :=
  rev (w_trace w).

(** Clock values passed to [queue_append]. *)
Definition append_clocks (tr : list event) : list float :=
  flat_map (fun e => match e with
                     | EvQueueAppend _ clock _ => [clock]
                     | _ => []
                     end) tr.

(** Step times ([next.time]) behind the calls to [queue_append]. *)
Definition step_times (tr : list event) : list float :=
  flat_map (fun e => match e with
                     | EvQueueAppend t _ _ => [t]
                     | _ => []
                     end) tr.

(** Times at which the position oracle was sampled. *)
Definition calc_times (tr : list event) : list float :=
  flat_map (fun e => match e with
                     | EvCalcPosition _ t => [t]
                     | _ => []
                     end) tr.

Definition is_append (e : event) : bool :=
  match e with EvQueueAppend _ _ _ => true | _ => false end.
Definition is_set_dir (e : event) : bool :=
  match e with EvSetNextStepDir _ _ => true | _ => false end.
Definition is_finish (e : event) : bool :=
  match e with EvQueueAppendFinish => true | _ => false end.
Definition is_post (e : event) : bool :=
  match e with EvPostCb _ => true | _ => false end.
Definition is_calc (e : event) : bool :=
  match e with EvCalcPosition _ _ => true | _ => false end.

Definition count (f : event -> bool) (tr : list event) : nat :=
  length (filter f tr).

(** Status returned by a queue operation that can fail. *)
Definition queue_status (e : event) : option Z :=
  match e with
  | EvQueueAppend _ _ ret => Some ret
  | EvSetNextStepDir _ ret => Some ret
  | _ => None
  end.

Definition queue_failure (e : event) : bool :=
  match queue_status e with
  | Some ret => negb (ret =? 0)%Z
  | None => false
  end.

(** Each element strictly below the next one ([<] of C on doubles). *)
Fixpoint strictly_increasing (l : list float) : bool :=
  match l with
  | [] => true
  | x :: l' =>
    match l' with
    | [] => true
    | y :: _ => (x <? y)%float && strictly_increasing l'
    end
  end.

(** ** A concrete environment

    A move is its two times; the queue has a fixed tick rate and direction
    and fails with status -1 once its budget of operations is used up.
    Function pointers select among a few position oracles and post hooks. *)
Module Sim.

Record sim_move : Type := { sm_print_time : float; sm_move_t : float }.

Record sim_queue : Type := {
  sq_mcu_freq : float;
  sq_step_dir : Z;
  sq_budget : nat
}.

Definition sq_operation (q : sim_queue) : Z * sim_queue :=
  match sq_budget q with
  | O => ((-1)%Z, q)
  | S n => (0%Z, {| sq_mcu_freq := sq_mcu_freq q;
                    sq_step_dir := sq_step_dir q; sq_budget := n |})
  end.

(** Oracles: 1 is the constant velocity move [10 t]; 2 stands still at
    position 2; 3 jumps from 0.05 to -1 right after t = 0.0001; 4 goes out
    and comes back, [10 t (1 - t)]; 5 stands still at 0.02; 6 stands still
    at -5; 7 is infinite; 8 rests at 0 until t = 0.00005 and then climbs to
    2, continuously, at 1e10 per second; 9 accelerates from rest, [5 t^2];
    10 decelerates to rest, [10 t - 5 t^2]; 11 is the constant velocity move
    backwards, [-10 t]; any other address stands still at 0. *)
Definition oracle (cb : fnptr) (t : float) : float :=
  match cb with
  | 1%N => (10 * t)%float
  | 2%N => 2%float
  | 3%N => if (t <=? 0.0001)%float then 0.05%float else (-1)%float
  | 4%N => (10 * t * (1 - t))%float
  | 5%N => 0.02%float
  | 6%N => (-5)%float
  | 7%N => infinity
  | 8%N => if (t <=? 0.00005)%float then 0%float
           else let v := (10000000000 * (t - 0.00005))%float in
                if (2 <? v)%float then 2%float else v
  | 9%N => (5 * t * t)%float
  | 10%N => (10 * t - 5 * t * t)%float
  | 11%N => (-10 * t)%float
  | _ => 0%float
  end.

(** Post hooks: 1 brings an angle below -4 back up by 8; any other does
    nothing. *)
Definition hook (cb : fnptr) (sk : stepper_kinematics) : stepper_kinematics :=
  match cb with
  | 1%N => if (commanded_pos sk <? -4)%float
           then set_commanded_pos sk (commanded_pos sk + 8)%float
           else sk
  | _ => sk
  end.

Definition env (nan_sign : bool) : environment :=
  {| move := sim_move;
     print_time := sm_print_time;
     move_t := sm_move_t;
     queue := sim_queue;
     stepcompress_get_mcu_freq := fun _ q => sq_mcu_freq q;
     stepcompress_get_step_dir := fun _ q => sq_step_dir q;
     queue_append_start := fun _ _ _ q => q;
     queue_append := fun _ q => sq_operation q;
     queue_append_set_next_step_dir := fun _ q => sq_operation q;
     queue_append_finish := fun q => q;
     call_calc_position := fun cb sk _ t => (oracle cb t, sk);
     call_post := hook;
     signbit_nan := nan_sign |}.

Definition the_move (duration : float) : sim_move :=
  {| sm_print_time := 0; sm_move_t := duration |}.

(** A stepper at [pos] with the given step distance, oracle and hook, and
    a queue at 16 MHz. *)
Definition the_world (pos dist : float) (calc post : fnptr) (dir : Z)
    (budget : nat) : world (env true) :=
  @mk_world (env true)
    {| sc := 1%N; step_dist := dist; commanded_pos := pos;
       calc_position_cb := calc; post_cb := post |}
    {| sq_mcu_freq := 16000000; sq_step_dir := dir; sq_budget := budget |}
    [].

(** *** Runs of the concrete environment *)

(** The constant velocity move of the specification: one second at
    [10 t], steps of 0.1, queue direction [dir]. *)
Definition constant_velocity (fuel : nat) (dir : Z) (budget : nat)
  : outcome (env true) Z :=
  itersolve_gen_steps (env true) fuel (the_move 1)
                      (the_world 0 0.1 1%N 0%N dir budget).

(** One second of the oracle [calc] from position 0, steps of 0.1, queue
    direction [dir]. *)
Definition one_second (fuel : nat) (calc : fnptr) (dir : Z)
  : outcome (env true) Z :=
  itersolve_gen_steps (env true) fuel (the_move 1)
                      (the_world 0 0.1 calc 0%N dir 1000).



(** A stepper commanded at 0 whose oracle stands still at 2, steps of 1. *)
Definition standing_apart (fuel : nat) : outcome (env true) Z :=
  itersolve_gen_steps (env true) fuel (the_move 1)
                      (the_world 0 1 2%N 0%N 1 1000).

(** A stepper commanded at 0 whose oracle is the steep ramp, steps of 1. *)
Definition steep_ramp (fuel : nat) : outcome (env true) Z :=
  itersolve_gen_steps (env true) fuel (the_move 1)
                      (the_world 0 1 8%N 0%N 1 1000).


(** The first pass of a call: [high] is [last], nothing has moved. *)
Definition first_pass : locals :=
  {| l_calc_position_cb := 0%N; half_step := 0.05; mcu_freq := 16000000;
     last := {| time := 0; position := 0 |};
     low := {| time := 0; position := 0 |};
     high := {| time := 0; position := 0 |};
     seek_time_delta := 0.0001; sdir := 1 |}.

(** The second pass: [high.time] is 0.0001 and [seek_time_delta] 0.0002. *)
Definition second_pass : locals :=
  {| l_calc_position_cb := 0%N; half_step := 0.05; mcu_freq := 16000000;
     last := {| time := 0; position := 0 |};
     low := {| time := 0; position := 0 |};
     high := {| time := 0.0001; position := 0 |};
     seek_time_delta := 0.0002; sdir := 1 |}.

(** The oracle that jumps from 0.05 down to -1 right after t = 0.0001. *)
Definition jump_world : world (env true) := the_world 0 0.1 3%N 0%N 1 10.



End Sim.

(** ** What the properties are stated with *)

(** Not a NaN. *)
Definition not_nan (x : float) : Prop := Prim2SF x <> S754_nan.

(** [w'] is [w1] after a queue operation that returned [ret <> 0]. *)
Definition failing_step (E : environment) (w1 : world E) (ret : Z)
    (w' : world E) : Prop :=
  ret <> 0%Z
  /\ ((exists t c, do_queue_append E t c w1 = (ret, w'))
      \/ (exists d, do_set_next_step_dir E d w1 = (ret, w'))).

(** What a pass through the loop body leaves behind, for a relation [R]
    between worlds: [R] holds from the start to the end of the pass, or, if
    the pass returned, to the world before the queue operation that
    failed. *)
Definition flow_post (E : environment) (R : world E -> world E -> Prop)
    (w : world E) (o : outcome E flow) : Prop :=
  match o with
  | Done (Return ret) w' => exists w1, R w w1 /\ failing_step E w1 ret w'
  | Done _ w' => R w w'
  | OutOfFuel w' => R w w'
  end.

(** The same for the whole loop. *)
Definition loop_post (E : environment) (R : world E -> world E -> Prop)
    (w : world E) (o : outcome E (Z + locals)) : Prop :=
  match o with
  | Done (inl ret) w' => exists w1, R w w1 /\ failing_step E w1 ret w'
  | Done (inr _) w' => R w w'
  | OutOfFuel w' => R w w'
  end.

(** [sk'] agrees with [sk] on every field but [commanded_pos]. *)
Definition same_frame (sk sk' : stepper_kinematics) : Prop :=
  sc sk' = sc sk /\ step_dist sk' = step_dist sk
  /\ calc_position_cb sk' = calc_position_cb sk /\ post_cb sk' = post_cb sk.

(** The callbacks leave those fields alone. *)
Definition calc_keeps_frame (E : environment) : Prop :=
  forall cb sk m t, same_frame sk (snd (call_calc_position E cb sk m t)).
Definition post_keeps_frame (E : environment) : Prop :=
  forall cb sk, same_frame sk (call_post E cb sk).

(** [w'] agrees with [w] on every field of the stepper state but
    [commanded_pos]. *)
Definition frame_rel (E : environment) (w w' : world E) : Prop :=
  same_frame (w_sk w) (w_sk w').

(** An event that is neither a failed queue operation, nor the end of the
    append session, nor the post hook. *)
Definition quiet (e : event) : bool :=
  negb (queue_failure e || is_finish e || is_post e).

(** The position oracle does not write [commanded_pos] (its contract: a
    function of the configuration, the move and the time, without side
    effects). *)
Definition calc_keeps_commanded_pos (E : environment) : Prop :=
  forall cb sk m t,
    commanded_pos (snd (call_calc_position E cb sk m t)) = commanded_pos sk.

(** [w'] is [w] after some quiet events. *)
Definition quiet_run (E : environment) (w w' : world E) : Prop :=
  exists tr, w_trace w' = tr ++ w_trace w /\ forallb quiet tr = true.

(** [w'] has the [commanded_pos] of [w]. *)
Definition same_commanded_pos (E : environment) (w w' : world E) : Prop :=
  commanded_pos (w_sk w') = commanded_pos (w_sk w).

(** The bracket expansion started at time 0 with step [d] keeps sampling at
    non-negative times and, after at most [n] doublings, reaches infinity. *)
Fixpoint seek_chain (n : nat) (d : float) : bool :=
  (0 <=? 0 + d)%float &&
  match n with
  | O => (0 + d =? infinity)%float
  | S n' => seek_chain n' (d + d)%float
  end.

(** [w'] is [w] after some calls to the oracle that left the stepper state
    alone. *)
Definition calc_run (E : environment) (w w' : world E) : Prop :=
  w_sk w' = w_sk w /\ w_queue w' = w_queue w
  /\ exists tr, w_trace w' = tr ++ w_trace w /\ forallb is_calc tr = true.

(** The generator has emitted no step and [high] is within half a step. *)
Definition seeking (cb : fnptr) (cp hs : float) (l : locals) : Prop :=
  l_calc_position_cb l = cb /\ half_step l = hs
  /\ last l = {| time := 0; position := cp |}
  /\ (abs (position (high l) - cp) <? hs)%float = true.

(** The oracle installed in [w] is the function [pos] of the time, without
    side effects, and over the whole move it stays strictly within half a
    step of the commanded position ([<] and [fabs] of C on doubles, as the
    generator evaluates them). *)
Definition within_half_step (E : environment) (m : move E) (w : world E)
    (pos : float -> float) : Prop :=
  (forall sk t,
      call_calc_position E (calc_position_cb (w_sk w)) sk m t = (pos t, sk))
  /\ forall t, (0 <=? t)%float = true -> (t <=? move_t E m)%float = true ->
       (abs (pos t - commanded_pos (w_sk w))
        <? 0.5 * step_dist (w_sk w))%float = true.

(** The post hook, if one is installed, does not change the
    [commanded_pos] of the stepper state [w] holds. *)
Definition hook_keeps_commanded_pos (E : environment) (w : world E) : Prop :=
  post_cb (w_sk w) <> 0%N ->
  commanded_pos (call_post E (post_cb (w_sk w)) (w_sk w))
  = commanded_pos (w_sk w).

(** The locals and the world after [k] passes through the loop body that all
    ended in [continue], the Step Finder having fuel [fuel] in each. *)
Fixpoint gen_steps_passes (E : environment) (k fuel : nat) (m : move E)
    (l : locals) (w : world E) : option (locals * world E) :=
  match k with
  | O => Some (l, w)
  | S k' =>
    match gen_steps_body E fuel m l w with
    | Done (Continue l') w' => gen_steps_passes E k' fuel m l' w'
    | _ => None
    end
  end.



(** The value of a double that is neither infinite nor NaN. *)
Definition float_to_Q (x : float) : option Q :=
  match Prim2SF x with
  | S754_zero _ => Some 0%Q
  | S754_finite s m e =>
    let v := match e with
             | Z0 => Qmake (Zpos m) 1
             | Zpos p => Qmake (Zpos m * 2 ^ Zpos p) 1
             | Zneg p => Qmake (Zpos m) (2 ^ p)
             end in
    Some (if s then Qopp v else v)
  | _ => None
  end.

(** [x] is within [tol] of the rational [q] (exactly, not in doubles). *)
Definition near (x : float) (q tol : Q) : bool :=
  match float_to_Q x with
  | Some v => Qle_bool (Qabs (v - q)) tol
  | None => false
  end.

(** The times [ts] are [first], [first + gap], [first + 2 gap], ... up to
    [tol]. *)
Fixpoint evenly_spaced (ts : list float) (first gap tol : Q) : bool :=
  match ts with
  | [] => true
  | t :: ts' =>
    near t first tol && evenly_spaced ts' (Qred (first + gap)) gap tol
  end.

(** ** The calls of one run *)

(** The calls [w'] has recorded and [w] has not, newest first. *)
Definition call_trace {E : environment} (w w' : world E) : list event :=
  firstn (length (w_trace w') - length (w_trace w)) (w_trace w').

Definition is_start (e : event) : bool :=
  match e with EvQueueAppendStart _ _ _ => true | _ => false end.

(** The calls made from inside the generator's loop: samples of the oracle,
    steps, changes of direction. *)
Definition in_loop (e : event) : bool :=
  is_calc e || is_append e || is_set_dir e.

(** The direction the generator is stepping in after the calls [tr] (newest
    first), [d0] being the direction it read from the queue: the last one it
    set with success. *)
Fixpoint dir_now (d0 : Z) (tr : list event) : Z :=
  match tr with
  | [] => d0
  | EvSetNextStepDir d ret :: tr' =>
    if (ret =? 0)%Z then d else dir_now d0 tr'
  | _ :: tr' => dir_now d0 tr'
  end.

(** A step direction: 0 is reverse, 1 is forward. *)
Definition is_dir (d : Z) : bool := (d =? 0)%Z || (d =? 1)%Z.

(** Every direction asked of the queue is a step direction and is not the
    one the generator is stepping in; every step is appended while the
    generator is stepping in a step direction. *)
Fixpoint directions_ok (d0 : Z) (tr : list event) : bool :=
  match tr with
  | [] => true
  | e :: tr' =>
    match e with
    | EvSetNextStepDir d _ => is_dir d && negb (d =? dir_now d0 tr')%Z
    | EvQueueAppend _ _ _ => is_dir (dir_now d0 tr')
    | _ => true
    end && directions_ok d0 tr'
  end.

(** Where the steps of [tr] take a stepper that was at [p0]: every step
    appended with success moves it by two half steps [hs], added one after
    the other, in the direction the generator is stepping in. *)
Fixpoint position_after (hs : float) (d0 : Z) (p0 : float) (tr : list event)
  : float :=
  match tr with
  | [] => p0
  | EvQueueAppend _ _ ret :: tr' =>
    let p := position_after hs d0 p0 tr' in
    if (ret =? 0)%Z then
      let s := if (dir_now d0 tr' =? 0)%Z then (- hs)%float else hs in
      (p + s + s)%float
    else p
  | _ :: tr' => position_after hs d0 p0 tr'
  end.

(** The clock of every [queue_append] is its step time multiplied by
    [freq]. *)
Definition clocks_scaled (freq : float) (tr : list event) : Prop :=
  Forall (fun e => match e with
                   | EvQueueAppend t clock _ => clock = (t * freq)%float
                   | _ => True
                   end) tr.

(** Every call to the oracle goes through the pointer [cb]. *)
Definition same_oracle (cb : fnptr) (tr : list event) : Prop :=
  Forall (fun e => match e with
                   | EvCalcPosition c _ => c = cb
                   | _ => True
                   end) tr.

(** Calls to the oracle through the pointer [cb], and nothing else. *)
Definition oracle_only (cb : fnptr) (tr : list event) : Prop :=
  Forall (fun e => match e with
                   | EvCalcPosition c _ => c = cb
                   | _ => False
                   end) tr.

(** [t] is the time 0 a call starts at, or a time at which the oracle was
    sampled in [tr]. *)
Definition sampled (tr : list event) (t : float) : Prop :=
  t = 0%float \/ In t (calc_times tr).

(** Every step of [tr] (newest first) is at a time that was sampled before
    the step was appended. *)
Fixpoint steps_at_samples (tr : list event) : Prop :=
  match tr with
  | [] => True
  | EvQueueAppend t _ _ :: tr' => sampled tr' t /\ steps_at_samples tr'
  | _ :: tr' => steps_at_samples tr'
  end.

(** No post hook writes [commanded_pos]. *)
Definition post_keeps_commanded_pos (E : environment) : Prop :=
  forall cb sk, commanded_pos (call_post E cb sk) = commanded_pos sk.

(** What a pass through the loop body leaves behind, for an invariant [J]
    of the locals and the world, and a property [K] of the world for the
    passes that leave no locals behind. *)
Definition flow_keeps (E : environment) (J : locals -> world E -> Prop)
    (K : world E -> Prop) (o : outcome E flow) : Prop :=
  match o with
  | Done (Continue l) w => J l w
  | Done (Break l) w => J l w
  | Done (Return _) w => K w
  | OutOfFuel w => K w
  end.

(** The same for the whole loop. *)
Definition loop_keeps (E : environment) (J : locals -> world E -> Prop)
    (K : world E -> Prop) (o : outcome E (Z + locals)) : Prop :=
  match o with
  | Done (inr l) w => J l w
  | Done (inl _) w => K w
  | OutOfFuel w => K w
  end.

(** The step [next] that the Step Finder, called in [w] on the bracket of
    [l], came back with in [w']: the high sample or the time of the low one
    without a call to the oracle, or else the time of its last call to the
    oracle. *)
Definition found (E : environment) (l : locals) (w : world E)
    (next : timepos) (w' : world E) : Prop :=
  (w' = w /\ (next = high l \/ time next = time (low l)))
  \/ exists cb tr,
       w_trace w' = EvCalcPosition cb (time next) :: tr ++ w_trace w.

(** The books of a run, [t0] being the trace when the loop was entered:
    the half step and the tick rate are the ones read on entry; the calls
    [tr] made since account for the direction the generator is stepping in
    and for the position of [last]; they satisfy [directions_ok] and
    [clocks_scaled] and are calls of the loop. *)
Definition ledger (E : environment) (t0 : list event) (hs freq : float)
    (d0 : Z) (p0 : float) (l : locals) (w : world E) : Prop :=
  half_step l = hs /\ mcu_freq l = freq
  /\ exists tr,
       w_trace w = tr ++ t0
       /\ dir_now d0 tr = sdir l
       /\ position_after hs d0 p0 tr = position (last l)
       /\ directions_ok d0 tr = true
       /\ clocks_scaled freq tr
       /\ forallb in_loop tr = true.

(** What is left of the books without the locals. *)
Definition ledger_trace (E : environment) (t0 : list event) (freq : float)
    (d0 : Z) (w : world E) : Prop :=
  exists tr,
    w_trace w = tr ++ t0
    /\ directions_ok d0 tr = true
    /\ clocks_scaled freq tr
    /\ forallb in_loop tr = true.

(** The times the generator holds in its locals were all sampled, and so
    were the times of the steps it has appended since the trace was [t0]. *)
Definition sampling (E : environment) (t0 : list event) (l : locals)
    (w : world E) : Prop :=
  exists tr,
    w_trace w = tr ++ t0
    /\ sampled tr (time (last l)) /\ sampled tr (time (low l))
    /\ sampled tr (time (high l)) /\ steps_at_samples tr.

Definition sampling_trace (E : environment) (t0 : list event) (w : world E)
  : Prop :=
  exists tr, w_trace w = tr ++ t0 /\ steps_at_samples tr.

(** The generator holds the pointer [cb] to the oracle, the stepper state
    still has it installed, and the calls made since the trace was [t0]
    went through it. *)
Definition one_oracle (E : environment) (t0 : list event) (cb : fnptr)
    (l : locals) (w : world E) : Prop :=
  l_calc_position_cb l = cb /\ calc_position_cb (w_sk w) = cb
  /\ exists tr, w_trace w = tr ++ t0 /\ same_oracle cb tr.

Definition one_oracle_trace (E : environment) (t0 : list event) (cb : fnptr)
    (w : world E) : Prop :=
  exists tr, w_trace w = tr ++ t0 /\ same_oracle cb tr.

(** A displacement that the generator, stepping in direction [d], does not
    answer with a step: less than half a step [hs], or, against the
    direction, less than half a step and 1e-9 more. *)
Definition in_dead_band (hs : float) (d : Z) (dist : float) : bool :=
  (abs dist <? hs)%float
  || (negb ((if (0 <? dist)%float then 1 else 0) =? d)%Z
      && (abs dist <? hs + 0.000000001)%float).

(** The generator has emitted no step, is stepping in direction [d], and
    [high] is in the dead band. *)
Definition idling (cb : fnptr) (cp hs : float) (d : Z) (l : locals) : Prop :=
  l_calc_position_cb l = cb /\ half_step l = hs /\ sdir l = d
  /\ last l = {| time := 0; position := cp |}
  /\ in_dead_band hs d (position (high l) - cp) = true.

(** The oracle installed in [w] is the function [pos] of the time, without
    side effects, and over the whole move its displacement from the
    commanded position stays in the dead band of the direction the queue is
    in ([<], [>] and [fabs] of C on doubles, as the generator evaluates
    them). *)
Definition within_dead_band (E : environment) (m : move E) (w : world E)
    (pos : float -> float) : Prop :=
  (forall sk t,
      call_calc_position E (calc_position_cb (w_sk w)) sk m t = (pos t, sk))
  /\ forall t, (0 <=? t)%float = true -> (t <=? move_t E m)%float = true ->
       in_dead_band (0.5 * step_dist (w_sk w))
         (stepcompress_get_step_dir E (sc (w_sk w)) (w_queue w))
         (pos t - commanded_pos (w_sk w)) = true.

(** The times at which a move that makes no step is sampled.  With
    [high.time] at [h] and [seek_time_delta] at [d], and no step taken
    ([last.time] is 0): if [h] has reached the end [mt] of the move there is
    no further sample; otherwise the next one is at [0 + d], or at [mt] if
    that is earlier, and [d] is doubled.  [n] bounds the number of
    doublings. *)
Fixpoint idle_samples (n : nat) (mt h d : float) : list float :=
  if (mt <=? h)%float then []
  else
    let t := if (mt <? 0 + d)%float then mt else (0 + d)%float in
    t :: match n with
         | O => []
         | S n' => idle_samples n' mt t (d + d)%float
         end.

(** How the trace of a call that began in [w] ends.  A call that returned 0
    ended the append session; [sk] being the stepper state it then held,
    [commanded_pos] written, it ran the post hook [sk] points to, on [sk],
    exactly if that pointer is not null, and the state the hook gave back is
    the state after the call.  The pointer is the one installed in [w] when
    the oracle leaves the callbacks of the stepper state alone.  No other
    call has ended the session or run a hook. *)
Definition session_end {E : environment} (w : world E) (o : outcome E Z)
    (ending : list event) : Prop :=
  match o with
  | Done ret w' =>
    if (ret =? 0)%Z
    then exists sk,
           (calc_keeps_frame E -> post_cb sk = post_cb (w_sk w))
           /\ if (post_cb sk =? 0)%N
              then ending = [EvQueueAppendFinish] /\ w_sk w' = sk
              else ending = [EvPostCb (post_cb sk); EvQueueAppendFinish]
                   /\ w_sk w' = call_post E (post_cb sk) sk
    else ending = []
  | OutOfFuel _ => ending = []
  end.

(** The time of the newest step of [tr] (newest first), when the oracle
    has not been sampled since that step. *)
Fixpoint unsampled_step (tr : list event) : option float :=
  match tr with
  | [] => None
  | EvQueueAppend t _ _ :: _ => Some t
  | EvCalcPosition _ _ :: _ => None
  | _ :: tr' => unsampled_step tr'
  end.

(** Every step of [tr] that follows another one with no sample of the
    oracle in between is at the very time of that one, or else does not
    compare at or before it ([<=] of C on doubles). *)
Fixpoint resteps_ordered (tr : list event) : Prop :=
  match tr with
  | [] => True
  | EvQueueAppend t _ _ :: tr' =>
    match unsampled_step tr' with
    | Some tp => t = tp \/ (t <=? tp)%float = false
    | None => True
    end /\ resteps_ordered tr'
  | _ :: tr' => resteps_ordered tr'
  end.

(** The steps appended since the trace was [t0] satisfy [resteps_ordered];
    and if the oracle has not been sampled since the newest of them, that
    step is the low end of the bracket and the high end does not compare at
    or before it. *)
Definition restepping (E : environment) (t0 : list event) (l : locals)
    (w : world E) : Prop :=
  exists tr,
    w_trace w = tr ++ t0 /\ resteps_ordered tr
    /\ forall tp, unsampled_step tr = Some tp ->
         time (low l) = tp /\ (time (high l) <=? tp)%float = false.

Definition restepping_trace (E : environment) (t0 : list event)
    (w : world E) : Prop :=
  exists tr, w_trace w = tr ++ t0 /\ resteps_ordered tr.

(** What a pass through the loop body leaves behind of [restepping]: the
    whole of it if the loop goes round again, the part about the trace
    otherwise. *)
Definition flow_restepping (E : environment) (t0 : list event)
    (o : outcome E flow) : Prop :=
  match o with
  | Done (Continue l) w => restepping E t0 l w
  | Done _ w => restepping_trace E t0 w
  | OutOfFuel w => restepping_trace E t0 w
  end.

(** ** A concrete environment without post hooks

    The environment of [Sim] with hooks that do nothing. *)
Module Plain.

Definition env : environment :=
  {| move := Sim.sim_move;
     print_time := Sim.sm_print_time;
     move_t := Sim.sm_move_t;
     queue := Sim.sim_queue;
     stepcompress_get_mcu_freq := fun _ q => Sim.sq_mcu_freq q;
     stepcompress_get_step_dir := fun _ q => Sim.sq_step_dir q;
     queue_append_start := fun _ _ _ q => q;
     queue_append := fun _ q => Sim.sq_operation q;
     queue_append_set_next_step_dir := fun _ q => Sim.sq_operation q;
     queue_append_finish := fun q => q;
     call_calc_position := fun cb sk _ t => (Sim.oracle cb t, sk);
     call_post := fun _ sk => sk;
     signbit_nan := true |}.

(** A stepper at [pos] with the given step distance and oracle, a hook
    installed, and a queue at 16 MHz in direction [dir]. *)
Definition the_world (pos dist : float) (calc : fnptr) (dir : Z)
  : world env :=
  @mk_world env
    {| sc := 1%N; step_dist := dist; commanded_pos := pos;
       calc_position_cb := calc; post_cb := 1%N |}
    {| Sim.sq_mcu_freq := 16000000; Sim.sq_step_dir := dir;
       Sim.sq_budget := 1000 |}
    [].

(** One second of the oracle [calc] from position 0, steps of 0.1. *)
Definition one_second (fuel : nat) (calc : fnptr) (dir : Z) : outcome env Z :=
  itersolve_gen_steps env fuel (Sim.the_move 1) (the_world 0 0.1 calc dir).

End Plain.

(** ** A concrete environment for a given oracle

    The environment of [Sim] with the function [pos] of the time behind
    every oracle pointer, and hooks that do nothing. *)
Module Course.

Definition env (pos : float -> float) : environment :=
  {| move := Sim.sim_move;
     print_time := Sim.sm_print_time;
     move_t := Sim.sm_move_t;
     queue := Sim.sim_queue;
     stepcompress_get_mcu_freq := fun _ q => Sim.sq_mcu_freq q;
     stepcompress_get_step_dir := fun _ q => Sim.sq_step_dir q;
     queue_append_start := fun _ _ _ q => q;
     queue_append := fun _ q => Sim.sq_operation q;
     queue_append_set_next_step_dir := fun _ q => Sim.sq_operation q;
     queue_append_finish := fun q => q;
     call_calc_position := fun _ sk _ t => (pos t, sk);
     call_post := fun _ sk => sk;
     signbit_nan := true |}.

(** A stepper at [cp] with the given step distance and no hook, and a
    queue at 16 MHz in direction [dir]. *)
Definition the_world (pos : float -> float) (cp dist : float) (dir : Z)
  : world (env pos) :=
  @mk_world (env pos)
    {| sc := 1%N; step_dist := dist; commanded_pos := cp;
       calc_position_cb := 1%N; post_cb := 0%N |}
    {| Sim.sq_mcu_freq := 16000000; Sim.sq_step_dir := dir;
       Sim.sq_budget := 1000 |}
    [].

(** One second of the oracle [pos]. *)
Definition one_second (fuel : nat) (pos : float -> float) (cp dist : float)
    (dir : Z) : outcome (env pos) Z :=
  itersolve_gen_steps (env pos) fuel (Sim.the_move 1)
                      (the_world pos cp dist dir).



End Course.

(** [p] is less than half a step [sd] away from [cp], exactly: the three
    doubles are compared by their rational values, not in double
    arithmetic. *)
Definition exactly_within_half_step (p cp sd : float) : bool :=
  match float_to_Q p, float_to_Q cp, float_to_Q sd with
  | Some a, Some b, Some c => negb (Qle_bool (c / 2) (Qabs (a - b)))
  | _, _, _ => false
  end.

(** * Properties *)

(** ** Facts about binary64 arithmetic

    The primitive operations are specified by their counterparts on
    [spec_float]; the facts below are read off that specification. *)
Module FloatFacts.

Ltac to_spec :=
  rewrite ?ltb_spec, ?leb_spec, ?eqb_spec, ?abs_spec, ?sub_spec, ?add_spec in *.

Lemma SFcompare_antisym (x y : spec_float) :
  SFcompare y x = option_map CompOpp (SFcompare x y).
Proof.
  destruct x as [sx|sx| |sx mx ex], y as [sy|sy| |sy my ey]; simpl;
    try reflexivity;
    try (destruct sx; reflexivity); try (destruct sy; reflexivity);
    try (destruct sx, sy; reflexivity).
  assert (Hm : Pos.compare_cont Eq my mx
               = CompOpp (Pos.compare_cont Eq mx my))
    by (rewrite (Pos.compare_cont_antisym mx my Eq); reflexivity).
  destruct sx, sy; simpl; try reflexivity;
    rewrite (Z.compare_antisym ex ey), Hm;
    destruct (ex ?= ey)%Z; reflexivity.
Qed.

Lemma SFcompare_refl (x : spec_float) :
  x <> S754_nan -> SFcompare x x = Some Eq.
Proof.
  destruct x as [s|s| |s m e]; simpl; intros H; try congruence.
  - destruct s; reflexivity.
  - destruct s; rewrite Z.compare_refl, Pos.compare_cont_refl; reflexivity.
Qed.

Lemma ltb_not_nan_r (x y : float) : (x <? y)%float = true -> not_nan y.
Proof.
  unfold not_nan; to_spec; unfold SFltb; intros H E; rewrite E in H.
  destruct (Prim2SF x); discriminate.
Qed.

Lemma leb_not_nan_r (x y : float) : (x <=? y)%float = true -> not_nan y.
Proof.
  unfold not_nan; to_spec; unfold SFleb; intros H E; rewrite E in H.
  destruct (Prim2SF x); discriminate.
Qed.

Lemma leb_refl (x : float) : not_nan x -> (x <=? x)%float = true.
Proof.
  unfold not_nan; to_spec; unfold SFleb; intros H.
  rewrite SFcompare_refl by assumption; reflexivity.
Qed.

Lemma ltb_leb (x y : float) : (x <? y)%float = true -> (x <=? y)%float = true.
Proof.
  to_spec; unfold SFltb, SFleb.
  destruct (SFcompare (Prim2SF x) (Prim2SF y)) as [[| |]|]; congruence.
Qed.

(** The order is total away from NaN. *)
Lemma not_ltb_leb (x y : float) :
  not_nan x -> not_nan y -> (x <? y)%float = false -> (y <=? x)%float = true.
Proof.
  unfold not_nan; to_spec; unfold SFltb, SFleb; intros Hx Hy H.
  rewrite (SFcompare_antisym (Prim2SF x) (Prim2SF y)).
  destruct (Prim2SF x) as [sx|sx| |sx mx ex] eqn:Ex; try congruence;
    destruct (Prim2SF y) as [sy|sy| |sy my ey] eqn:Ey; try congruence;
    destruct (SFcompare _ _) as [[| |]|] eqn:Ec; simpl in *;
    try congruence; try reflexivity.
Qed.

(** A value minus itself is zero unless it is infinite or NaN. *)
Lemma SF64sub_diag (x : spec_float) :
  (exists s, x = S754_zero s) \/ (exists s m e, x = S754_finite s m e) ->
  exists s, SF64sub x x = S754_zero s.
Proof.
  intros [[s ->]|[s [m [e ->]]]].
  - destruct s; eexists; reflexivity.
  - unfold SF64sub, SFsub. rewrite Z.sub_diag. simpl. eexists; reflexivity.
Qed.

Lemma is_finite_spec (x : float) :
  is_finite x = true ->
  (exists s, Prim2SF x = S754_zero s)
  \/ (exists s m e, Prim2SF x = S754_finite s m e).
Proof.
  unfold is_finite, is_nan, is_infinity; to_spec.
  change (Prim2SF infinity) with (S754_infinity false).
  destruct (Prim2SF x) as [s|s| |s m e]; simpl; intros H.
  - left; eauto.
  - destruct s; discriminate.
  - discriminate.
  - right; eauto.
Qed.

(** Equal operands, not both infinite: the difference is zero. *)
Lemma SFeqb_finite_eq (s sy : bool) (m my : positive) (e ey : Z) :
  SFeqb (S754_finite s m e) (S754_finite sy my ey) = true ->
  S754_finite sy my ey = S754_finite s m e.
Proof.
  unfold SFeqb; simpl; intros H.
  assert (Hs : s = sy) by (destruct s, sy; congruence).
  subst sy.
  assert (He : e = ey).
  { destruct s; destruct (e ?= ey)%Z eqn:Ec; try discriminate;
      apply Z.compare_eq; assumption. }
  subst ey.
  rewrite Z.compare_refl in H.
  assert (Hm : m = my).
  { destruct s; destruct (Pos.compare_cont Eq m my) eqn:Ec;
      try discriminate; apply Pos.compare_eq; exact Ec. }
  subst my; reflexivity.
Qed.

Lemma eqb_sub_zero (x y : float) :
  is_finite x = true -> (x =? y)%float = true -> (x - y =? 0)%float = true.
Proof.
  intros Hf; apply is_finite_spec in Hf; to_spec.
  change (Prim2SF 0) with (S754_zero false).
  destruct Hf as [[s Hx]|[s [m [e Hx]]]]; rewrite Hx.
  - destruct (Prim2SF y) as [sy|sy| |sy my ey]; intros H.
    + destruct s, sy; reflexivity.
    + destruct sy; discriminate.
    + discriminate.
    + destruct sy; discriminate.
  - destruct (Prim2SF y) as [sy|sy| |sy my ey]; intros H.
    + destruct s; discriminate.
    + destruct sy; discriminate.
    + discriminate.
    + rewrite (SFeqb_finite_eq _ _ _ _ _ _ H).
      destruct (SF64sub_diag (S754_finite s m e)) as [s' Hz];
        [right; eauto|].
      rewrite Hz. reflexivity.
Qed.

(** Anything above an absolute value is above zero. *)
Lemma SFltb_abs_pos (x h : spec_float) :
  SFltb (SFabs x) h = true -> SFltb (S754_zero false) h = true.
Proof.
  unfold SFltb.
  destruct x as [sx|sx| |sx mx ex], h as [sh|sh| |sh mh eh]; simpl;
    try discriminate; try reflexivity;
    try (destruct sh; (discriminate || reflexivity)).
Qed.

(** If some value is within [h] of [c], then so is [c] itself. *)
Lemma near_self (p c h : float) :
  (abs (p - c) <? h)%float = true -> (abs (c - c) <? h)%float = true.
Proof.
  to_spec; intros H.
  assert (Hc : (exists s, Prim2SF c = S754_zero s)
               \/ (exists s m e, Prim2SF c = S754_finite s m e)).
  { destruct (Prim2SF c) as [s|s| |s m e]; eauto; exfalso.
    - unfold SFltb in H.
      destruct (Prim2SF p) as [sp|sp| |sp mp ep], s; try destruct sp;
        simpl in H; destruct (Prim2SF h) as [sh|sh| |sh mh eh];
        try destruct sh; discriminate.
    - unfold SFltb in H.
      destruct (Prim2SF p) as [sp|sp| |sp mp ep]; simpl in H; discriminate. }
  destruct (SF64sub_diag _ Hc) as [s Hz]; rewrite Hz; simpl.
  exact (SFltb_abs_pos _ _ H).
Qed.

(** *** A difference is zero only if the operands are equal

    Rounding a non-zero integer multiple of a power of two not below the
    smallest exponent never gives zero (there is no underflow to zero in a
    subtraction), and canonical mantissas that agree once aligned are the
    same. *)

Lemma iter_pos_nat {A : Type} (f : A -> A) (p : positive) :
  forall x, iter_pos f p x = Nat.iter (Pos.to_nat p) f x.
Proof.
  induction p as [p IH|p IH|]; intros x; cbn [iter_pos].
  - rewrite !IH, Pos2Nat.inj_xI.
    replace (S (2 * Pos.to_nat p)) with (Pos.to_nat p + (Pos.to_nat p + 1))
      by lia.
    rewrite !Nat.iter_add; reflexivity.
  - rewrite !IH, Pos2Nat.inj_xO.
    replace (2 * Pos.to_nat p) with (Pos.to_nat p + Pos.to_nat p) by lia.
    rewrite Nat.iter_add; reflexivity.
  - reflexivity.
Qed.

Lemma shr_1_digits (mrs : shr_record) (p : positive) :
  shr_m mrs = Zpos p -> (1 < digits2_pos p)%positive ->
  exists q, shr_m (shr_1 mrs) = Zpos q
            /\ Pos.succ (digits2_pos q) = digits2_pos p.
Proof.
  destruct mrs as [m r s]; simpl; intros -> Hd.
  destruct p as [q|q|]; simpl in *; eauto. lia.
Qed.

Lemma iter_shr_1_digits (k : nat) :
  forall mrs p,
    shr_m mrs = Zpos p -> (Z.of_nat k < Zpos (digits2_pos p))%Z ->
    exists q, shr_m (Nat.iter k shr_1 mrs) = Zpos q
              /\ (Zpos (digits2_pos q) = Zpos (digits2_pos p) - Z.of_nat k)%Z.
Proof.
  induction k as [|k IH]; intros mrs p Hm Hk.
  - exists p; simpl; split; [exact Hm|lia].
  - rewrite Nat2Z.inj_succ in Hk.
    destruct (IH mrs p Hm) as [q [Hq Hd]]; [lia|].
    destruct (shr_1_digits (Nat.iter k shr_1 mrs) q Hq) as [q' [Hq' Hd']];
      [lia|].
    exists q'; split; [exact Hq'|].
    rewrite Nat2Z.inj_succ. lia.
Qed.

Lemma shr_record_of_loc_m (m : Z) (l : location) :
  shr_m (shr_record_of_loc m l) = m.
Proof. destruct l as [|[| |]]; reflexivity. Qed.

(** Shifting a positive mantissa to its canonical exponent leaves it
    positive, when the exponent is not below the smallest one. *)
Lemma shr_fexp_pos (p : positive) (e : Z) (l : location) :
  (-1074 <= e)%Z ->
  exists q, shr_m (fst (shr_fexp prec emax (Zpos p) e l)) = Zpos q
            /\ (-1074 <= snd (shr_fexp prec emax (Zpos p) e l))%Z.
Proof.
  intros He; unfold shr_fexp, shr, fexp, SpecFloat.emin, prec, emax.
  simpl Zdigits2.
  destruct (Z.max (Zpos (digits2_pos p) + e - 53) (3 - 1024 - 53) - e)%Z
    as [|k|k] eqn:Hn; simpl.
  - exists p; split; [apply shr_record_of_loc_m|exact He].
  - rewrite iter_pos_nat.
    destruct (iter_shr_1_digits (Pos.to_nat k) (shr_record_of_loc (Zpos p) l) p)
      as [q [Hq Hd]]; [apply shr_record_of_loc_m|lia|].
    exists q; split; [exact Hq|lia].
  - exists p; split; [apply shr_record_of_loc_m|exact He].
Qed.

Lemma round_nearest_even_pos (q : positive) (l : location) :
  exists q', round_nearest_even (Zpos q) l = Zpos q'.
Proof.
  destruct l as [|[| |]]; unfold round_nearest_even; eauto.
  - destruct (Z.even (Zpos q)); eauto. exists (q + 1)%positive; reflexivity.
  - exists (q + 1)%positive; reflexivity.
Qed.

Lemma binary_round_aux_not_zero (s : bool) (p : positive) (e : Z)
    (l : location) :
  (-1074 <= e)%Z ->
  forall s', binary_round_aux prec emax s (Zpos p) e l <> S754_zero s'.
Proof.
  intros He s'; unfold binary_round_aux.
  destruct (shr_fexp_pos p e l He) as [q [Hq He']].
  destruct (shr_fexp prec emax (Zpos p) e l) as [mrs' e']; simpl in *.
  rewrite Hq.
  destruct (round_nearest_even_pos q (loc_of_shr_record mrs')) as [q' ->].
  destruct (shr_fexp_pos q' e' loc_Exact He') as [q'' [Hq'' _]].
  destruct (shr_fexp prec emax (Zpos q') e' loc_Exact) as [mrs'' e''];
    simpl in *.
  rewrite Hq''. cbv iota beta.
  destruct (e'' <=? _)%Z; intros H; discriminate H.
Qed.

Lemma binary_round_not_zero (s : bool) (p : positive) (e : Z) :
  (-1074 <= e)%Z ->
  forall s', binary_round prec emax s p e <> S754_zero s'.
Proof.
  intros He s'; unfold binary_round, shl_align.
  destruct (fexp prec emax (Zpos (digits2_pos p) + e) - e)%Z eqn:Hn;
    try (apply binary_round_aux_not_zero; exact He).
  apply binary_round_aux_not_zero.
  unfold fexp, SpecFloat.emin, prec, emax in *. lia.
Qed.

Lemma digits2_pos_iter_xO (m d : positive) :
  digits2_pos (Pos.iter xO m d) = (digits2_pos m + d)%positive.
Proof.
  induction d as [|d IH] using Pos.peano_ind.
  - simpl. rewrite Pos.add_1_r. reflexivity.
  - rewrite Pos.iter_succ. simpl. rewrite IH, Pos.add_succ_r. reflexivity.
Qed.

(** A canonical mantissa has at most 53 digits, exactly 53 above the
    smallest exponent, and its exponent is not below the smallest one. *)
Lemma bounded_digits (m : positive) (e : Z) :
  bounded prec emax m e = true ->
  (-1074 <= e)%Z /\ (Zpos (digits2_pos m) <= 53)%Z
  /\ ((-1074 < e)%Z -> Zpos (digits2_pos m) = 53%Z).
Proof.
  unfold bounded, canonical_mantissa, fexp, SpecFloat.emin, prec, emax.
  intros H; apply andb_true_iff in H; destruct H as [H _].
  apply Z.eqb_eq in H. lia.
Qed.

(** Aligned mantissas of canonical numbers are equal only if the numbers
    are. *)
Lemma shl_align_inj (mx my : positive) (ex ey : Z) :
  bounded prec emax mx ex = true -> bounded prec emax my ey = true ->
  fst (shl_align mx ex (Z.min ex ey)) = fst (shl_align my ey (Z.min ex ey)) ->
  mx = my /\ ex = ey.
Proof.
  intros Hx Hy; apply bounded_digits in Hx, Hy.
  destruct Hx as [Hx1 [Hx2 Hx3]], Hy as [Hy1 [Hy2 Hy3]].
  unfold shl_align.
  destruct (Z.min ex ey - ex)%Z as [|d|d] eqn:Dx;
    destruct (Z.min ex ey - ey)%Z as [|d'|d'] eqn:Dy; simpl; try lia;
    intros H.
  - exfalso. subst mx. rewrite digits2_pos_iter_xO in Hx2.
    assert (Zpos (digits2_pos my) = 53%Z) by (apply Hy3; lia). lia.
  - exfalso. subst my. rewrite digits2_pos_iter_xO in Hy2.
    assert (Zpos (digits2_pos mx) = 53%Z) by (apply Hx3; lia). lia.
Qed.

Lemma SFsub_zero_eqb (x y : spec_float) (s : bool) :
  valid_binary x = true -> valid_binary y = true ->
  SF64sub x y = S754_zero s -> SFeqb x y = true.
Proof.
  destruct x as [sx|sx| |sx mx ex], y as [sy|sy| |sy my ey];
    unfold SF64sub; simpl; intros Vx Vy H;
    try discriminate H; try reflexivity;
    try (destruct sx, sy; discriminate H).
  pose proof (bounded_digits _ _ Vx) as [Hx _].
  pose proof (bounded_digits _ _ Vy) as [Hy _].
  destruct (shl_align_inj mx my ex ey Vx Vy) as [Hm He].
  - unfold binary_normalize in H.
    destruct (cond_Zopp sx (Z.pos (fst (shl_align mx ex (Z.min ex ey))))
              - cond_Zopp sy (Z.pos (fst (shl_align my ey (Z.min ex ey)))))%Z
      as [|p|p] eqn:Hz.
    + destruct sx, sy; unfold cond_Zopp in Hz; lia.
    + exfalso; revert H; apply binary_round_not_zero; lia.
    + exfalso; revert H; apply binary_round_not_zero; lia.
  - subst my ey.
    assert (Hs : sx = sy).
    { unfold binary_normalize in H.
      destruct sx, sy; try reflexivity; exfalso; simpl in H.
      - destruct (- Z.pos (fst (shl_align mx ex (Z.min ex ex)))
                  - Z.pos (fst (shl_align mx ex (Z.min ex ex))))%Z
          as [|p|p] eqn:Hz; try lia;
          revert H; apply binary_round_not_zero; lia.
      - destruct (Z.pos (fst (shl_align mx ex (Z.min ex ex)))
                  - - Z.pos (fst (shl_align mx ex (Z.min ex ex))))%Z
          as [|p|p] eqn:Hz; try lia;
          revert H; apply binary_round_not_zero; lia. }
    subst sy. unfold SFeqb.
    change (SFcompare (S754_finite sx mx ex) (S754_finite sx mx ex))
      with (SFcompare (S754_finite sx mx ex) (S754_finite sx mx ex)).
    destruct sx; simpl; rewrite Z.compare_refl, Pos.compare_cont_refl;
      reflexivity.
Qed.

(** In binary64 a difference is zero only if the operands are equal. *)
Lemma sub_zero_eqb (x y : float) :
  (x - y =? 0)%float = true -> (x =? y)%float = true.
Proof.
  rewrite !eqb_spec, sub_spec.
  change (Prim2SF 0) with (S754_zero false).
  intros H.
  assert (Hz : exists s, SF64sub (Prim2SF x) (Prim2SF y) = S754_zero s).
  { unfold SFeqb in H.
    destruct (SF64sub (Prim2SF x) (Prim2SF y)) as [s|s| |s m e];
      simpl in H; try discriminate H; eauto; destruct s; discriminate H. }
  destruct Hz as [s Hz].
  exact (SFsub_zero_eqb _ _ s (Prim2SF_valid x) (Prim2SF_valid y) Hz).
Qed.

Lemma eqb_infinity_leb (x t : float) :
  (t =? infinity)%float = true -> not_nan x -> (x <=? t)%float = true.
Proof.
  unfold not_nan; to_spec.
  change (Prim2SF infinity) with (S754_infinity false).
  unfold SFeqb, SFleb; intros Ht Hx.
  destruct (Prim2SF t) as [st|st| |st mt et]; simpl in Ht; try discriminate;
    try (destruct st; discriminate).
  destruct st; [discriminate|].
  destruct (Prim2SF x) as [s|s| |s mx ex]; try congruence;
    try reflexivity; destruct s; reflexivity.
Qed.

End FloatFacts.

(** ** Invariants of a run

    A relation between worlds that the oracle and the successful queue
    operations preserve holds between the start of a run and the point it
    has reached; a run that returns early stopped right after the queue
    operation that failed. *)
Section RunInvariant.

Variable E : environment.
Variable R : world E -> world E -> Prop.

Hypothesis R_refl : forall w, R w w.
Hypothesis R_trans : forall w1 w2 w3, R w1 w2 -> R w2 w3 -> R w1 w3.
Hypothesis R_calc :
  forall cb m t w, R w (snd (calc_position E cb m t w)).
Hypothesis R_append :
  forall t c w, fst (do_queue_append E t c w) = 0%Z ->
                R w (snd (do_queue_append E t c w)).
Hypothesis R_set_dir :
  forall d w, fst (do_set_next_step_dir E d w) = 0%Z ->
              R w (snd (do_set_next_step_dir E d w)).

Lemma flow_post_trans (w w1 : world E) (o : outcome E flow) :
  R w w1 -> flow_post E R w1 o -> flow_post E R w o.
Proof.
  intros H; destruct o as [[l|l|ret] w'|w']; simpl; eauto.
  intros [w2 [H2 F]]; eauto.
Qed.

Lemma loop_post_trans (w w1 : world E) (o : outcome E (Z + locals)) :
  R w w1 -> loop_post E R w1 o -> loop_post E R w o.
Proof.
  intros H; destruct o as [[ret|l] w'|w']; simpl; eauto.
  intros [w2 [H2 F]]; eauto.
Qed.

Lemma find_step_loop_inv (fuel : nat) :
  forall cb m target high_sign low high best_guess w,
    R w (final_world
           (find_step_loop E fuel cb m target high_sign low high
                           best_guess w)).
Proof.
  induction fuel as [|fuel IH]; intros; simpl; [apply R_refl|].
  destruct (abs _ <=? _)%float; [apply R_refl|].
  match goal with
  | |- context [calc_position E ?cb ?m ?t ?w] =>
    pose proof (R_calc cb m t w) as Hc;
      destruct (calc_position E cb m t w) as [p w1]
  end.
  simpl in Hc.
  destruct (Bool.eqb _ _); eapply R_trans; eauto.
Qed.

Lemma itersolve_find_step_inv (fuel : nat) m low high target w :
  R w (final_world (itersolve_find_step E fuel m low high target w)).
Proof.
  unfold itersolve_find_step.
  destruct (_ =? 0)%float; [apply R_refl|].
  destruct (Bool.eqb _ _); [apply R_refl|].
  apply find_step_loop_inv.
Qed.

Lemma seek_new_high_range_inv m l w :
  flow_post E R w (seek_new_high_range E m l w).
Proof.
  unfold seek_new_high_range.
  destruct (_ <=? _)%float; simpl; [apply R_refl|].
  match goal with
  | |- context [calc_position E ?cb ?m ?t ?w] =>
    pose proof (R_calc cb m t w) as Hc;
      destruct (calc_position E cb m t w) as [p w1]
  end.
  simpl in *; assumption.
Qed.

Lemma add_step_inv m l target next w :
  flow_post E R w (add_step E m l target next w).
Proof.
  unfold add_step.
  match goal with
  | |- context [do_queue_append E ?t ?c ?w] =>
    pose proof (R_append t c w) as Ha;
      destruct (do_queue_append E t c w) as [ret w1] eqn:Eq
  end.
  simpl in Ha.
  destruct (ret =? 0)%Z eqn:Er; simpl.
  - apply Z.eqb_eq in Er. specialize (Ha Er).
    destruct (_ <=? _)%float; simpl; [|assumption].
    eapply flow_post_trans; [eassumption|apply seek_new_high_range_inv].
  - apply Z.eqb_neq in Er. exists w; split; [apply R_refl|].
    split; [assumption|left; eauto].
Qed.

Lemma find_and_add_step_inv fuel m l w :
  flow_post E R w (find_and_add_step E fuel m l w).
Proof.
  unfold find_and_add_step.
  pose proof (itersolve_find_step_inv fuel m (low l) (high l)
    (position (last l) + signed_half_step l)%float w) as Hf.
  destruct (itersolve_find_step E fuel m _ _ _ w) as [next w1|w1];
    simpl in *; [|assumption].
  eapply flow_post_trans; [eassumption|apply add_step_inv].
Qed.

Lemma gen_steps_body_inv fuel m l w :
  flow_post E R w (gen_steps_body E fuel m l w).
Proof.
  unfold gen_steps_body.
  destruct (abs _ <? half_step l)%float; [apply seek_new_high_range_inv|].
  destruct (negb _); [|apply find_and_add_step_inv].
  destruct (abs _ <? _)%float; [apply seek_new_high_range_inv|].
  destruct (_ && _).
  - match goal with
    | |- context [calc_position E ?cb ?m ?t ?w] =>
      pose proof (R_calc cb m t w) as Hc;
        destruct (calc_position E cb m t w) as [p w1]
    end.
    simpl in *; assumption.
  - match goal with
    | |- context [do_set_next_step_dir E ?d ?w] =>
      pose proof (R_set_dir d w) as Ha;
        destruct (do_set_next_step_dir E d w) as [ret w1] eqn:Eq
    end.
    simpl in Ha.
    destruct (ret =? 0)%Z eqn:Er; simpl.
    + apply Z.eqb_eq in Er. specialize (Ha Er).
      eapply flow_post_trans; [eassumption|apply find_and_add_step_inv].
    + apply Z.eqb_neq in Er. exists w; split; [apply R_refl|].
      split; [assumption|right; eauto].
Qed.

Lemma gen_steps_loop_inv (fuel : nat) :
  forall m l w, loop_post E R w (gen_steps_loop E fuel m l w).
Proof.
  induction fuel as [|fuel IH]; intros; simpl; [apply R_refl|].
  pose proof (gen_steps_body_inv fuel m l w) as Hb.
  destruct (gen_steps_body E fuel m l w) as [[l'|l'|ret] w'|w'];
    simpl in *; try assumption.
  eapply loop_post_trans; [eassumption|apply IH].
Qed.

End RunInvariant.

(** ** Frame: the fields the generator never writes *)

Lemma same_frame_refl (sk : stepper_kinematics) : same_frame sk sk.
Proof. unfold same_frame; auto. Qed.

Lemma same_frame_trans (sk1 sk2 sk3 : stepper_kinematics) :
  same_frame sk1 sk2 -> same_frame sk2 sk3 -> same_frame sk1 sk3.
Proof. unfold same_frame; intuition congruence. Qed.

Lemma failing_step_sk {E : environment} {w1 w' : world E} {ret : Z} :
  failing_step E w1 ret w' -> w_sk w' = w_sk w1.
Proof.
  intros [_ [[t [c H]]|[d H]]].
  - unfold do_queue_append in H.
    destruct (queue_append E c (w_queue w1)); inversion H; reflexivity.
  - unfold do_set_next_step_dir in H.
    destruct (queue_append_set_next_step_dir E d (w_queue w1));
      inversion H; reflexivity.
Qed.

Lemma failing_step_trace {E : environment} {w1 w' : world E} {ret : Z} :
  failing_step E w1 ret w' ->
  exists e, w_trace w' = e :: w_trace w1 /\ queue_status e = Some ret
            /\ queue_failure e = true.
Proof.
  intros [Hr [[t [c H]]|[d H]]].
  - unfold do_queue_append in H.
    destruct (queue_append E c (w_queue w1)); inversion H; subst; simpl.
    eexists; split; [reflexivity|]. split; [reflexivity|].
    unfold queue_failure; simpl. apply negb_true_iff, Z.eqb_neq, Hr.
  - unfold do_set_next_step_dir in H.
    destruct (queue_append_set_next_step_dir E d (w_queue w1));
      inversion H; subst; simpl.
    eexists; split; [reflexivity|]. split; [reflexivity|].
    unfold queue_failure; simpl. apply negb_true_iff, Z.eqb_neq, Hr.
Qed.

Section Frame.

Variable E : environment.
Hypothesis calc_frame : calc_keeps_frame E.
Hypothesis post_frame : post_keeps_frame E.

Lemma frame_rel_calc cb m t w :
  frame_rel E w (snd (calc_position E cb m t w)).
Proof.
  unfold frame_rel, calc_position.
  pose proof (calc_frame cb (w_sk w) m t) as H.
  destruct (call_calc_position E cb (w_sk w) m t); exact H.
Qed.

Lemma frame_rel_append t c w : frame_rel E w (snd (do_queue_append E t c w)).
Proof.
  unfold frame_rel, do_queue_append.
  destruct (queue_append E c (w_queue w)); apply same_frame_refl.
Qed.

Lemma frame_rel_set_dir d w :
  frame_rel E w (snd (do_set_next_step_dir E d w)).
Proof.
  unfold frame_rel, do_set_next_step_dir.
  destruct (queue_append_set_next_step_dir E d (w_queue w));
    apply same_frame_refl.
Qed.

Lemma gen_steps_finish_frame l w :
  frame_rel E w (final_world (gen_steps_finish E l w)).
Proof.
  unfold frame_rel, gen_steps_finish; simpl.
  destruct (post_cb (w_sk w) =? 0)%N; simpl.
  - unfold same_frame; simpl; auto.
  - eapply same_frame_trans; [|apply post_frame].
    unfold same_frame; simpl; auto.
Qed.

(** C9.  [itersolve_gen_steps] writes no field of the stepper state other
    than [commanded_pos]: wherever a call has got to (returned with success,
    returned with a failure, or still running), [sc], [step_dist],
    [calc_position_cb] and [post_cb] have the values they had before the
    call, provided the two callbacks do not write these fields. *)
Theorem gen_steps_writes_only_commanded_pos (fuel : nat) (m : move E)
    (w : world E) :
  same_frame (w_sk w) (w_sk (final_world (itersolve_gen_steps E fuel m w))).
Proof.
  unfold itersolve_gen_steps, gen_steps_init.
  match goal with
  | |- context [gen_steps_loop E fuel m ?l ?w0] =>
    pose proof (gen_steps_loop_inv E (frame_rel E)
                  (fun a => same_frame_refl (w_sk a))
                  (fun a b c => @same_frame_trans (w_sk a) (w_sk b) (w_sk c))
                  frame_rel_calc
                  (fun t c a _ => frame_rel_append t c a)
                  (fun d a _ => frame_rel_set_dir d a)
                  fuel m l w0) as H;
      destruct (gen_steps_loop E fuel m l w0) as [[ret|l'] w'|w']
  end; simpl in H.
  - destruct H as [w1 [H1 F]]. apply failing_step_sk in F.
    simpl. rewrite F. exact H1.
  - eapply same_frame_trans; [exact H|]. apply gen_steps_finish_frame.
  - exact H.
Qed.

End Frame.

(** ** Failure of a queue operation *)

Lemma count_none (f g : event -> bool) (tr : list event) :
  (forall e, g e = true -> f e = false) ->
  forallb g tr = true -> count f tr = 0.
Proof.
  intros Hf; unfold count; induction tr as [|e tr IH]; simpl; [reflexivity|].
  intros H; apply andb_true_iff in H; destruct H as [He Ht].
  rewrite (Hf e He); auto.
Qed.

Lemma quiet_not_finish (e : event) : quiet e = true -> is_finish e = false.
Proof. unfold quiet; destruct e; simpl; try reflexivity; intros H;
         try discriminate; rewrite ?orb_true_r in H; discriminate. Qed.

Lemma quiet_not_post (e : event) : quiet e = true -> is_post e = false.
Proof. unfold quiet; destruct e; simpl; try reflexivity; intros H;
         try discriminate; rewrite ?orb_true_r in H; discriminate. Qed.

Lemma quiet_not_failure (e : event) :
  quiet e = true -> queue_failure e = false.
Proof.
  unfold quiet; intros H; apply negb_true_iff in H.
  destruct (queue_failure e); [discriminate|reflexivity].
Qed.

Lemma quiet_In (tr : list event) (e : event) :
  forallb quiet tr = true -> In e tr -> queue_failure e = false.
Proof.
  intros H Hin. apply quiet_not_failure.
  rewrite forallb_forall in H; auto.
Qed.

Lemma quiet_not_finish_failure (e : event) :
  queue_failure e = true -> is_finish e = false.
Proof. destruct e; unfold queue_failure; simpl; congruence. Qed.

Lemma quiet_not_post_failure (e : event) :
  queue_failure e = true -> is_post e = false.
Proof. destruct e; unfold queue_failure; simpl; congruence. Qed.

Section QuietRun.

Variable E : environment.

Lemma quiet_run_refl (w : world E) : quiet_run E w w.
Proof. exists []; auto. Qed.

Lemma quiet_run_trans {w1 w2 w3 : world E} :
  quiet_run E w1 w2 -> quiet_run E w2 w3 -> quiet_run E w1 w3.
Proof.
  intros [t1 [H1 Q1]] [t2 [H2 Q2]].
  exists (t2 ++ t1); split.
  - rewrite H2, H1, app_assoc; reflexivity.
  - rewrite forallb_app, Q1, Q2; reflexivity.
Qed.

Lemma quiet_run_calc cb m t w :
  quiet_run E w (snd (calc_position E cb m t w)).
Proof.
  unfold calc_position.
  destruct (call_calc_position E cb (w_sk w) m t) as [p sk']; simpl in *.
  exists [EvCalcPosition cb t]; auto.
Qed.

Lemma quiet_run_append t c w :
  fst (do_queue_append E t c w) = 0%Z ->
  quiet_run E w (snd (do_queue_append E t c w)).
Proof.
  unfold do_queue_append.
  destruct (queue_append E c (w_queue w)) as [ret q']; simpl; intros ->.
  exists [EvQueueAppend t c 0]; auto.
Qed.

Lemma quiet_run_set_dir d w :
  fst (do_set_next_step_dir E d w) = 0%Z ->
  quiet_run E w (snd (do_set_next_step_dir E d w)).
Proof.
  unfold do_set_next_step_dir.
  destruct (queue_append_set_next_step_dir E d (w_queue w)) as [ret q'];
    simpl; intros ->.
  exists [EvSetNextStepDir d 0]; auto.
Qed.

Lemma quiet_run_start scp pt prec w :
  quiet_run E w (do_queue_append_start E scp pt prec w).
Proof. exists [EvQueueAppendStart scp pt prec]; auto. Qed.

(** What the generator's loop leaves behind, read on the trace. *)
Lemma gen_steps_loop_quiet (fuel : nat) (m : move E) (l : locals)
    (w : world E) :
  loop_post E (quiet_run E) w (gen_steps_loop E fuel m l w).
Proof.
  apply gen_steps_loop_inv;
    auto using quiet_run_refl, quiet_run_calc, quiet_run_append,
      quiet_run_set_dir.
  exact (@quiet_run_trans).
Qed.

(** The trace of a call, by the way the call ended: the events before the
    ending are quiet; a call that returned a non-zero status made a failing
    queue operation last; a call that ran out of the loop then ended the
    session and ran the post hook, if any. *)
Lemma gen_steps_trace (fuel : nat) (m : move E) (w : world E) :
  exists tr, forallb quiet tr = true
    /\ match itersolve_gen_steps E fuel m w with
       | OutOfFuel w' => w_trace w' = tr ++ w_trace w
       | Done ret w' =>
         (ret <> 0%Z
          /\ exists e, w_trace w' = e :: tr ++ w_trace w
                       /\ queue_status e = Some ret
                       /\ queue_failure e = true)
         \/ (ret = 0%Z
             /\ (w_trace w' = EvQueueAppendFinish :: tr ++ w_trace w
                 \/ exists cb, w_trace w'
                               = EvPostCb cb :: EvQueueAppendFinish
                                   :: tr ++ w_trace w))
       end.
Proof.
  unfold itersolve_gen_steps, gen_steps_init.
  match goal with
  | |- context [gen_steps_loop E fuel m ?l ?w0] =>
    pose proof (gen_steps_loop_quiet fuel m l w0) as H;
      pose proof (quiet_run_start (sc (w_sk w)) (print_time E m) 0.5 w) as H0;
      destruct (gen_steps_loop E fuel m l w0) as [[ret|l'] w'|w']
  end; simpl in H; simpl.
  - destruct H as [w1 [H1 F]].
    pose proof (quiet_run_trans H0 H1) as [tr [Ht Hq]].
    destruct (failing_step_trace F) as [e [He [Hs Hf]]].
    exists tr; split; [exact Hq|]. left. split; [apply F|].
    exists e. rewrite He, Ht. auto.
  - pose proof (quiet_run_trans H0 H) as [tr [Ht Hq]].
    exists tr; split; [exact Hq|]. right. split; [reflexivity|].
    destruct (post_cb (w_sk w') =? 0)%N; simpl; rewrite Ht; eauto.
  - pose proof (quiet_run_trans H0 H) as [tr [Ht Hq]].
    exists tr; auto.
Qed.

End QuietRun.

Section QueueFailure.

Variable E : environment.
Hypothesis calc_pure : calc_keeps_commanded_pos E.

Lemma same_commanded_pos_calc cb m t w :
  same_commanded_pos E w (snd (calc_position E cb m t w)).
Proof.
  unfold same_commanded_pos, calc_position.
  pose proof (calc_pure cb (w_sk w) m t) as H.
  destruct (call_calc_position E cb (w_sk w) m t) as [p sk']; exact H.
Qed.

Lemma same_commanded_pos_append t c w :
  same_commanded_pos E w (snd (do_queue_append E t c w)).
Proof.
  unfold same_commanded_pos, do_queue_append.
  destruct (queue_append E c (w_queue w)); reflexivity.
Qed.

Lemma same_commanded_pos_set_dir d w :
  same_commanded_pos E w (snd (do_set_next_step_dir E d w)).
Proof.
  unfold same_commanded_pos, do_set_next_step_dir.
  destruct (queue_append_set_next_step_dir E d (w_queue w)); reflexivity.
Qed.

(** Until the loop is left, [commanded_pos] is not written. *)
Lemma gen_steps_loop_commanded_pos (fuel : nat) (m : move E) (l : locals)
    (w : world E) :
  loop_post E (same_commanded_pos E) w (gen_steps_loop E fuel m l w).
Proof.
  apply gen_steps_loop_inv.
  - intros w0; reflexivity.
  - unfold same_commanded_pos; intros w1 w2 w3 H1 H2; congruence.
  - apply same_commanded_pos_calc.
  - intros t c w0 _; apply same_commanded_pos_append.
  - intros d w0 _; apply same_commanded_pos_set_dir.
Qed.

(** C2.  If a call to [queue_append] or [queue_append_set_next_step_dir]
    made by [itersolve_gen_steps] returns a non-zero status, the generator
    returns that status at once (the failed call is the last event of the
    call), [commanded_pos] is what it was before the call, and neither
    [queue_append_finish] nor the post hook has been invoked. *)
Theorem gen_steps_returns_queue_failure (fuel : nat) (m : move E)
    (w : world E) :
  let o := itersolve_gen_steps E fuel m w in
  exists tr,
    w_trace (final_world o) = tr ++ w_trace w
    /\ forall e, In e tr -> queue_failure e = true ->
         exists ret tr',
           queue_status e = Some ret
           /\ o = Done ret (final_world o)
           /\ tr = e :: tr'
           /\ commanded_pos (w_sk (final_world o)) = commanded_pos (w_sk w)
           /\ count is_finish tr = 0
           /\ count is_post tr = 0.
Proof.
  pose proof (gen_steps_trace E fuel m w) as [tr [Hq Ht]].
  assert (Hcp : forall ret w',
             itersolve_gen_steps E fuel m w = Done ret w' -> ret <> 0%Z ->
             commanded_pos (w_sk w') = commanded_pos (w_sk w)).
  { unfold itersolve_gen_steps, gen_steps_init.
    match goal with
    | |- context [gen_steps_loop E fuel m ?l ?w0] =>
      pose proof (gen_steps_loop_commanded_pos fuel m l w0) as H;
        destruct (gen_steps_loop E fuel m l w0) as [[r|l'] w1|w1]
    end; simpl in H; simpl; intros ret w' Hd Hr; inversion Hd; subst.
    - destruct H as [w2 [H2 F]]. rewrite (failing_step_sk F). exact H2.
    - congruence. }
  simpl.
  destruct (itersolve_gen_steps E fuel m w) as [ret w'|w'] eqn:Erun; simpl.
  - destruct Ht as [[Hr [e [Ht [Hs Hf]]]]|[Hr Ht]].
    + exists (e :: tr); split; [exact Ht|].
      intros e' [<-|Hin] Hf'.
      * exists ret, tr.
        split; [exact Hs|]. split; [reflexivity|]. split; [reflexivity|].
        split; [exact (Hcp ret w' eq_refl Hr)|]. split.
        -- unfold count; simpl.
           rewrite (quiet_not_finish_failure e Hf').
           apply (count_none is_finish quiet tr quiet_not_finish Hq).
        -- unfold count; simpl.
           rewrite (quiet_not_post_failure e Hf').
           apply (count_none is_post quiet tr quiet_not_post Hq).
      * rewrite (quiet_In tr e' Hq Hin) in Hf'; discriminate.
    + destruct Ht as [Ht|[cb Ht]].
      * exists (EvQueueAppendFinish :: tr); split; [exact Ht|].
        intros e' [<-|Hin] Hf'; [discriminate|].
        rewrite (quiet_In tr e' Hq Hin) in Hf'; discriminate.
      * exists (EvPostCb cb :: EvQueueAppendFinish :: tr).
        split; [exact Ht|].
        intros e' [<-|[<-|Hin]] Hf'; try discriminate.
        rewrite (quiet_In tr e' Hq Hin) in Hf'; discriminate.
  - exists tr; split; [exact Ht|].
    intros e' Hin Hf'.
    rewrite (quiet_In tr e' Hq Hin) in Hf'; discriminate.
Qed.

End QueueFailure.

(** ** The Step Finder's two early exits *)

Section StepFinder.

Variable E : environment.

(** C5.  When the two samples of the bracket, translated by the target,
    have the same sign, and the high position is not equal to the target
    ([==] of C on doubles), [itersolve_find_step] returns the time of the low
    sample paired with the target (not with the low sample's position), and
    the oracle is not called: the world is the one it was given. *)
Theorem find_step_same_sign_returns_low_time (fuel : nat) (m : move E)
    (low high : timepos) (target : float) (w : world E) :
  (position high =? target)%float = false ->
  signbit E (position high - target) = signbit E (position low - target) ->
  itersolve_find_step E fuel m low high target w
  = Done {| time := time low; position := target |} w.
Proof.
  intros Hne Hs; unfold itersolve_find_step; simpl.
  destruct (position high - target =? 0)%float eqn:Hz.
  - apply FloatFacts.sub_zero_eqb in Hz. congruence.
  - rewrite Hs, eqb_reflx; reflexivity.
Qed.

(** C7, amended.  When the high position is equal to the target and is
    neither infinite nor NaN, [itersolve_find_step] returns the high sample
    as it was given (time and untranslated position), and the oracle is not
    called. *)
Theorem find_step_perfect_guess_returns_high (fuel : nat) (m : move E)
    (low high : timepos) (target : float) (w : world E) :
  is_finite (position high) = true ->
  (position high =? target)%float = true ->
  itersolve_find_step E fuel m low high target w = Done high w.
Proof.
  intros Hf He; unfold itersolve_find_step; simpl.
  rewrite (FloatFacts.eqb_sub_zero _ _ Hf He); reflexivity.
Qed.

(** C3, amended.  In the bracket expansion, when the displacement from
    [last] to [high] is below half a step and [high.time] has not reached the
    end of the move, the generator sets [low] to the old [high], sets
    [high.time] to [last.time + seek_time_delta] (the move's end if that is
    past it), doubles [seek_time_delta], samples the oracle at the new
    [high.time] (once) and goes round the loop again. *)
Theorem bracket_expansion_step (fuel : nat) (m : move E) (l : locals)
    (w : world E) :
  (abs (position (high l) - position (last l)) <? half_step l)%float = true ->
  (move_t E m <=? time (high l))%float = false ->
  let t := (time (last l) + seek_time_delta l)%float in
  let t' := if (move_t E m <? t)%float then move_t E m else t in
  let sample := call_calc_position E (l_calc_position_cb l) (w_sk w) m t' in
  gen_steps_body E fuel m l w
  = Done (Continue
            {| l_calc_position_cb := l_calc_position_cb l;
               half_step := half_step l; mcu_freq := mcu_freq l;
               last := last l;
               low := high l;
               high := {| time := t'; position := fst sample |};
               seek_time_delta := (seek_time_delta l + seek_time_delta l)%float;
               sdir := sdir l |})
         {| w_sk := snd sample; w_queue := w_queue w;
            w_trace := EvCalcPosition (l_calc_position_cb l) t' :: w_trace w |}.
Proof.
  intros Hd Hm; unfold gen_steps_body, seek_new_high_range, calc_position.
  rewrite Hd, Hm; simpl.
  destruct (call_calc_position E _ _ _ _); reflexivity.
Qed.

End StepFinder.

(** ** Moves that stay within half a step of the commanded position *)

Lemma seek_chain_from_start : seek_chain 1100 0.000100 = true.
Proof. vm_compute. reflexivity. Qed.

Lemma set_commanded_pos_same (sk : stepper_kinematics) :
  set_commanded_pos sk (commanded_pos sk) = sk.
Proof. destruct sk; reflexivity. Qed.

Section QuietMove.

Variable E : environment.
Variable m : move E.
Variable cb : fnptr.
Variable pos : float -> float.
Variable cp hs : float.

(** The move has a positive duration. *)
Hypothesis move_positive : (0 <? move_t E m)%float = true.
(** The oracle is a function of the time, without side effects. *)
Hypothesis oracle_pure :
  forall sk t, call_calc_position E cb sk m t = (pos t, sk).
(** It stays within half a step of the commanded position. *)
Hypothesis oracle_near :
  forall t, (0 <=? t)%float = true -> (t <=? move_t E m)%float = true ->
            (abs (pos t - cp) <? hs)%float = true.

Lemma calc_run_refl (w : world E) : calc_run E w w.
Proof. repeat split; exists []; auto. Qed.

Lemma calc_run_trans (w1 w2 w3 : world E) :
  calc_run E w1 w2 -> calc_run E w2 w3 -> calc_run E w1 w3.
Proof.
  intros [S1 [Q1 [t1 [H1 C1]]]] [S2 [Q2 [t2 [H2 C2]]]].
  repeat split; try congruence.
  exists (t2 ++ t1); split.
  - rewrite H2, H1, app_assoc; reflexivity.
  - rewrite forallb_app, C1, C2; reflexivity.
Qed.

Lemma move_t_not_nan : not_nan (move_t E m).
Proof. exact (FloatFacts.ltb_not_nan_r _ _ move_positive). Qed.

Lemma move_t_leb_refl : (move_t E m <=? move_t E m)%float = true.
Proof. apply FloatFacts.leb_refl, move_t_not_nan. Qed.

Lemma seeking_break (fuel : nat) (l : locals) (w : world E) :
  seeking cb cp hs l -> (move_t E m <=? time (high l))%float = true ->
  gen_steps_loop E (S fuel) m l w = Done (inr l) w.
Proof.
  intros [Hcb [Hhs [Hl Hq]]] Hb; simpl.
  unfold gen_steps_body, seek_new_high_range.
  rewrite Hl, Hhs; simpl. rewrite Hq, Hb; reflexivity.
Qed.

(** One expansion, when the move's end has not been reached. *)
Lemma seeking_expand (fuel : nat) (l : locals) (w : world E) :
  seeking cb cp hs l -> (move_t E m <=? time (high l))%float = false ->
  (0 <=? 0 + seek_time_delta l)%float = true ->
  exists l' w',
    gen_steps_body E fuel m l w = Done (Continue l') w'
    /\ seeking cb cp hs l' /\ calc_run E w w'
    /\ seek_time_delta l' = (seek_time_delta l + seek_time_delta l)%float
    /\ ((move_t E m <=? time (high l'))%float = true
        \/ time (high l') = (0 + seek_time_delta l)%float).
Proof.
  intros [Hcb [Hhs [Hl Hq]]] Hb Hd.
  unfold gen_steps_body, seek_new_high_range, calc_position.
  rewrite Hl, Hhs; simpl. rewrite Hq, Hb, Hcb, oracle_pure.
  eexists; eexists; split; [reflexivity|].
  destruct (move_t E m <? 0 + seek_time_delta l)%float eqn:Hc.
  - split; [|split; [|split]].
    + repeat split; simpl; auto.
      apply oracle_near; [apply FloatFacts.ltb_leb, move_positive|].
      apply move_t_leb_refl.
    + repeat split; simpl; auto.
      exists [EvCalcPosition cb (move_t E m)]; auto.
    + reflexivity.
    + left; simpl. apply move_t_leb_refl.
  - split; [|split; [|split]].
    + repeat split; simpl; auto.
      apply oracle_near; [exact Hd|].
      apply FloatFacts.not_ltb_leb; auto using move_t_not_nan.
      exact (FloatFacts.leb_not_nan_r _ _ Hd).
    + repeat split; simpl; auto.
      exists [EvCalcPosition cb (0 + seek_time_delta l)%float]; auto.
    + reflexivity.
    + right; reflexivity.
Qed.

(** The expansion ends: the loop breaks with [last] untouched, after calls
    to the oracle only. *)
Lemma seeking_terminates (n : nat) :
  forall (fuel : nat) (l : locals) (w : world E),
    seeking cb cp hs l -> seek_chain n (seek_time_delta l) = true ->
    n + 2 <= fuel ->
    exists l' w',
      gen_steps_loop E fuel m l w = Done (inr l') w'
      /\ last l' = last l /\ calc_run E w w'.
Proof.
  induction n as [|n IH]; intros fuel l w Hs Hc Hfuel;
    (destruct fuel as [|fuel]; [lia|]);
    simpl in Hc; apply andb_true_iff in Hc; destruct Hc as [Hd Hc];
    destruct (move_t E m <=? time (high l))%float eqn:Hb;
    try (exists l, w; split; [apply seeking_break; assumption|];
         split; [reflexivity|apply calc_run_refl]);
    destruct (seeking_expand fuel l w Hs Hb Hd)
      as [l1 [w1 [Hbody [Hs1 [Hr1 [Hd1 Hh1]]]]]];
    assert (Hlast : last l1 = last l)
      by (destruct Hs as [_ [_ [Hl _]]], Hs1 as [_ [_ [Hl1 _]]]; congruence);
    simpl; rewrite Hbody.
  - (* the step has reached infinity *)
    assert (Hb1 : (move_t E m <=? time (high l1))%float = true).
    { destruct Hh1 as [Hh1|Hh1]; [exact Hh1|]. rewrite Hh1.
      apply FloatFacts.eqb_infinity_leb; [exact Hc|apply move_t_not_nan]. }
    destruct fuel as [|fuel]; [lia|].
    exists l1, w1. split; [apply seeking_break; assumption|]. auto.
  - destruct Hh1 as [Hb1|Hh1].
    + destruct fuel as [|fuel]; [lia|].
      exists l1, w1. split; [apply seeking_break; assumption|]. auto.
    + rewrite <- Hd1 in Hc.
      destruct (IH fuel l1 w1 Hs1 Hc) as [l2 [w2 [H2 [Hl2 Hr2]]]]; [lia|].
      exists l2, w2. split; [exact H2|]. split; [congruence|].
      eapply calc_run_trans; eassumption.
Qed.

(** The whole call: start of the session, oracle samples, end of the
    session, [commanded_pos] written with the value it had, post hook. *)
Lemma quiet_move_gen_steps (w : world E) (fuel : nat) :
  calc_position_cb (w_sk w) = cb -> commanded_pos (w_sk w) = cp ->
  (0.5 * step_dist (w_sk w))%float = hs ->
  1102 <= fuel ->
  exists tr,
    forallb is_calc tr = true
    /\ let w1 :=
         {| w_sk := w_sk w;
            w_queue :=
              queue_append_finish E
                (queue_append_start E (sc (w_sk w)) (print_time E m) 0.5
                                    (w_queue w));
            w_trace :=
              EvQueueAppendFinish
                :: tr ++ EvQueueAppendStart (sc (w_sk w)) (print_time E m) 0.5
                :: w_trace w |} in
       itersolve_gen_steps E fuel m w
       = Done 0%Z (if (post_cb (w_sk w) =? 0)%N then w1
                   else do_post_cb E (post_cb (w_sk w)) w1).
Proof.
  intros Hcb Hcp Hhs Hfuel.
  unfold itersolve_gen_steps, gen_steps_init.
  match goal with
  | |- context [gen_steps_loop E fuel m ?l ?w0] =>
    destruct (seeking_terminates 1100 fuel l w0) as [l' [w' [Hrun [Hl Hr]]]]
  end.
  - split; [|split; [|split]]; simpl; auto.
    + rewrite Hcp; reflexivity.
    + rewrite Hcp.
      apply (FloatFacts.near_self (pos (move_t E m))).
      apply oracle_near; [apply FloatFacts.ltb_leb, move_positive|].
      apply move_t_leb_refl.
  - exact seek_chain_from_start.
  - lia.
  - rewrite Hrun; simpl. unfold gen_steps_finish.
    destruct Hr as [Hsk [Hq [tr [Ht Hc]]]].
    destruct w' as [sk' q' t']; simpl in *; subst sk' q' t'.
    exists tr; split; [exact Hc|].
    rewrite Hl; simpl. unfold write_commanded_pos; simpl.
    rewrite set_commanded_pos_same.
    unfold do_queue_append_finish; simpl.
    destruct (post_cb (w_sk w) =? 0)%N; reflexivity.
Qed.

End QuietMove.

Lemma calc_not_append (e : event) : is_calc e = true -> is_append e = false.
Proof. destruct e; simpl; congruence. Qed.
Lemma calc_not_set_dir (e : event) : is_calc e = true -> is_set_dir e = false.
Proof. destruct e; simpl; congruence. Qed.
Lemma calc_not_finish (e : event) : is_calc e = true -> is_finish e = false.
Proof. destruct e; simpl; congruence. Qed.

(** C4, amended.  A move of positive duration whose oracle oscillates
    around the starting [commanded_pos] with an amplitude strictly below half
    a step over the whole move, the amplitude being measured the way the
    generator measures it ([fabs (position - commanded_pos) < .5 * step_dist]
    in double arithmetic, the difference and the product rounded), makes
    [itersolve_gen_steps] return 0 without a single call to [queue_append]
    or [queue_append_set_next_step_dir]. *)
Theorem sub_half_step_move_emits_nothing (E : environment) (m : move E)
    (w : world E) (pos : float -> float) (fuel : nat) :
  (0 <? move_t E m)%float = true ->
  within_half_step E m w pos ->
  1102 <= fuel ->
  exists w' tr,
    itersolve_gen_steps E fuel m w = Done 0%Z w'
    /\ w_trace w' = tr ++ w_trace w
    /\ count is_append tr = 0
    /\ count is_set_dir tr = 0.
Proof.
  intros Hm [Hp Hn] Hfuel.
  destruct (quiet_move_gen_steps E m _ pos _ _ Hm Hp Hn w fuel
                                 eq_refl eq_refl eq_refl Hfuel)
    as [tr [Hc Hrun]].
  simpl in Hrun. rewrite Hrun.
  pose proof (count_none is_append is_calc tr calc_not_append Hc) as Ha.
  pose proof (count_none is_set_dir is_calc tr calc_not_set_dir Hc) as Hd.
  set (start := EvQueueAppendStart (sc (w_sk w)) (print_time E m) 0.5) in *.
  destruct (post_cb (w_sk w) =? 0)%N; eexists;
    [exists (EvQueueAppendFinish :: tr ++ [start])
    |exists (EvPostCb (post_cb (w_sk w))
               :: EvQueueAppendFinish :: tr ++ [start])];
    (split; [reflexivity|]); simpl;
    (split; [rewrite <- app_assoc; reflexivity|]);
    unfold count in *; simpl; rewrite !filter_app, !length_app, Ha, Hd;
    split; reflexivity.
Qed.

(** C10, amended.  A move of positive duration whose oracle stays
    strictly within half a step of the starting [commanded_pos], by the test
    the generator makes in double arithmetic
    ([fabs (position - commanded_pos) < .5 * step_dist]), makes
    [itersolve_gen_steps] return 0, append no step and end the append session
    exactly once; it writes [commanded_pos] with the value it had, so that the
    stepper state it hands to the post hook, or leaves behind when there is
    none, is the state it was given.  [commanded_pos] after the call is what
    it was before unless a post hook changes it. *)
Theorem sub_half_step_move_keeps_commanded_pos (E : environment) (m : move E)
    (w : world E) (pos : float -> float) (fuel : nat) :
  (0 <? move_t E m)%float = true ->
  within_half_step E m w pos ->
  1102 <= fuel ->
  exists w' tr,
    itersolve_gen_steps E fuel m w = Done 0%Z w'
    /\ w_trace w' = tr ++ w_trace w
    /\ count is_append tr = 0
    /\ count is_finish tr = 1
    /\ w_sk w' = (if (post_cb (w_sk w) =? 0)%N then w_sk w
                  else call_post E (post_cb (w_sk w)) (w_sk w))
    /\ (hook_keeps_commanded_pos E w ->
        commanded_pos (w_sk w') = commanded_pos (w_sk w)).
Proof.
  intros Hm [Hp Hn] Hfuel.
  destruct (quiet_move_gen_steps E m _ pos _ _ Hm Hp Hn w fuel
                                 eq_refl eq_refl eq_refl Hfuel)
    as [tr [Hc Hrun]].
  simpl in Hrun. rewrite Hrun.
  pose proof (count_none is_append is_calc tr calc_not_append Hc) as Ha.
  pose proof (count_none is_finish is_calc tr calc_not_finish Hc) as Hf.
  unfold hook_keeps_commanded_pos.
  set (start := EvQueueAppendStart (sc (w_sk w)) (print_time E m) 0.5) in *.
  destruct (post_cb (w_sk w) =? 0)%N eqn:Hcb; eexists;
    [exists (EvQueueAppendFinish :: tr ++ [start])
    |exists (EvPostCb (post_cb (w_sk w))
               :: EvQueueAppendFinish :: tr ++ [start])];
    (split; [reflexivity|]); simpl;
    (split; [rewrite <- app_assoc; reflexivity|]);
    unfold count in *; simpl; rewrite !filter_app, !length_app, Ha, Hf;
    repeat split; try reflexivity.
  intros Hh. apply Hh. apply N.eqb_neq; exact Hcb.
Qed.

(** ** Fuel

    A run that has returned returns the same with more fuel; a run goes
    through the same passes of the loop body whatever fuel is left over. *)

Section Fuel.

Variable E : environment.









End Fuel.

(** * Further properties of the solver *)

(** ** Traces *)

Lemma call_trace_app {E : environment} (w w' : world E) (tr : list event) :
  w_trace w' = tr ++ w_trace w -> call_trace w w' = tr.
Proof.
  intros H; unfold call_trace; rewrite H, length_app.
  replace (length tr + length (w_trace w) - length (w_trace w))
    with (length tr) by lia.
  rewrite firstn_app, firstn_all, Nat.sub_diag; simpl.
  apply app_nil_r.
Qed.

Lemma calc_position_trace (E : environment) cb (m : move E) t w :
  w_trace (snd (calc_position E cb m t w)) = EvCalcPosition cb t :: w_trace w.
Proof.
  unfold calc_position.
  destruct (call_calc_position E cb (w_sk w) m t); reflexivity.
Qed.

Lemma calc_position_queue (E : environment) cb (m : move E) t w :
  w_queue (snd (calc_position E cb m t w)) = w_queue w.
Proof.
  unfold calc_position.
  destruct (call_calc_position E cb (w_sk w) m t); reflexivity.
Qed.

Lemma do_queue_append_trace (E : environment) t c (w : world E) :
  w_trace (snd (do_queue_append E t c w))
  = EvQueueAppend t c (fst (do_queue_append E t c w)) :: w_trace w.
Proof.
  unfold do_queue_append.
  destruct (queue_append E c (w_queue w)); reflexivity.
Qed.

Lemma do_set_next_step_dir_trace (E : environment) d (w : world E) :
  w_trace (snd (do_set_next_step_dir E d w))
  = EvSetNextStepDir d (fst (do_set_next_step_dir E d w)) :: w_trace w.
Proof.
  unfold do_set_next_step_dir.
  destruct (queue_append_set_next_step_dir E d (w_queue w)); reflexivity.
Qed.

(** ** What the Step Finder returns and what it does *)

Section Search.

Variable E : environment.
Variable m : move E.

Lemma find_step_loop_last_sample (cb : fnptr) (fuel : nat) :
  forall target high_sign lo hi best w,
    match find_step_loop E fuel cb m target high_sign lo hi best w with
    | Done r w' =>
      (w' = w /\ r = best)
      \/ exists w1 tr,
           w_trace w1 = tr ++ w_trace w
           /\ calc_position E cb m (time r) w1 = (position r, w')
    | OutOfFuel _ => True
    end.
Proof.
  induction fuel as [|fuel IH]; intros target high_sign lo hi best w; simpl;
    [exact I|].
  destruct (abs _ <=? _)%float; [auto|].
  match goal with
  | |- context [calc_position E cb m ?t w] =>
    set (g := t); pose proof (calc_position_trace E cb m g w) as Ht;
      destruct (calc_position E cb m g w) as [p wa] eqn:Ec
  end.
  simpl in Ht.
  assert (Hgo : forall lo' hi',
    match find_step_loop E fuel cb m target high_sign lo' hi'
            {| time := g; position := p |} wa with
    | Done r w' =>
      (w' = w /\ r = best)
      \/ exists w1 tr,
           w_trace w1 = tr ++ w_trace w
           /\ calc_position E cb m (time r) w1 = (position r, w')
    | OutOfFuel _ => True
    end).
  { intros lo' hi'.
    specialize (IH target high_sign lo' hi' {| time := g; position := p |} wa).
    destruct (find_step_loop E fuel cb m target high_sign lo' hi' _ wa)
      as [r w'|w']; [|exact I].
    right. destruct IH as [[-> ->]|[w1 [tr [H1 H2]]]].
    - exists w, []; split; [reflexivity|exact Ec].
    - exists w1, (tr ++ [EvCalcPosition cb g]); split; [|exact H2].
      rewrite H1, Ht, <- app_assoc; reflexivity. }
  destruct (Bool.eqb _ _); apply Hgo.
Qed.

(** X1.  What [itersolve_find_step] returns is the high sample as given
    or the low time paired with the target, both without a call to the
    oracle, or else the last sample it took: the time of its last call to
    the oracle with the position that call returned. *)
Theorem find_step_returns_endpoint_or_last_sample (fuel : nat)
    (low high : timepos) (target : float) (w : world E) :
  match itersolve_find_step E fuel m low high target w with
  | Done r w' =>
    (w' = w /\ (r = high \/ r = {| time := time low; position := target |}))
    \/ exists w1 tr,
         w_trace w1 = tr ++ w_trace w
         /\ calc_position E (calc_position_cb (w_sk w)) m (time r) w1
            = (position r, w')
  | OutOfFuel _ => True
  end.
Proof.
  unfold itersolve_find_step.
  destruct (_ =? 0)%float; [auto|].
  destruct (Bool.eqb _ _); [auto|].
  match goal with
  | |- context [find_step_loop E fuel ?cb m ?t ?s ?lo ?hi ?b w] =>
    pose proof (find_step_loop_last_sample cb fuel t s lo hi b w) as H;
      destruct (find_step_loop E fuel cb m t s lo hi b w) as [r w'|w']
  end; [|exact I].
  destruct H as [[-> ->]|H]; auto.
Qed.

Lemma find_step_loop_oracle_only (cb : fnptr) (fuel : nat) :
  forall target high_sign lo hi best w,
    let w' := final_world
                (find_step_loop E fuel cb m target high_sign lo hi best w) in
    w_queue w' = w_queue w
    /\ exists tr, w_trace w' = tr ++ w_trace w /\ oracle_only cb tr.
Proof.
  induction fuel as [|fuel IH]; intros target high_sign lo hi best w; simpl.
  { split; [reflexivity|]. exists []; split; [reflexivity|constructor]. }
  destruct (abs _ <=? _)%float; simpl.
  { split; [reflexivity|]. exists []; split; [reflexivity|constructor]. }
  match goal with
  | |- context [calc_position E cb m ?t w] =>
    pose proof (calc_position_trace E cb m t w) as Ht;
      pose proof (calc_position_queue E cb m t w) as Hq;
      set (g := t) in *; destruct (calc_position E cb m g w) as [p w1]
  end.
  simpl in Ht, Hq.
  assert (Hgo : forall lo' hi',
    let w' := final_world
                (find_step_loop E fuel cb m target high_sign lo' hi'
                                {| time := g; position := p |} w1) in
    w_queue w' = w_queue w
    /\ exists tr, w_trace w' = tr ++ w_trace w /\ oracle_only cb tr).
  { intros lo' hi'.
    destruct (IH target high_sign lo' hi' {| time := g; position := p |} w1)
      as [Hq' [tr [Ht' Ho]]].
    simpl. split; [congruence|].
    exists (tr ++ [EvCalcPosition cb g]). split.
    - rewrite Ht', Ht, <- app_assoc; reflexivity.
    - apply Forall_app; split; [exact Ho|repeat constructor]. }
  destruct (Bool.eqb _ _); apply Hgo.
Qed.

(** X2.  [itersolve_find_step] does nothing but call the oracle whose
    pointer it read from the stepper state on entry: wherever it has got
    to, the queue is as it was and every call made is a call to that
    oracle. *)
Theorem find_step_calls_only_the_oracle (fuel : nat) (low high : timepos)
    (target : float) (w : world E) :
  let w' := final_world (itersolve_find_step E fuel m low high target w) in
  w_queue w' = w_queue w
  /\ oracle_only (calc_position_cb (w_sk w)) (call_trace w w').
Proof.
  assert (H : let w' := final_world
                          (itersolve_find_step E fuel m low high target w) in
              w_queue w' = w_queue w
              /\ exists tr, w_trace w' = tr ++ w_trace w
                            /\ oracle_only (calc_position_cb (w_sk w)) tr).
  { unfold itersolve_find_step.
    destruct (_ =? 0)%float; simpl.
    { split; [reflexivity|]. exists []; split; [reflexivity|constructor]. }
    destruct (Bool.eqb _ _); simpl.
    { split; [reflexivity|]. exists []; split; [reflexivity|constructor]. }
    apply find_step_loop_oracle_only. }
  simpl in *. destruct H as [Hq [tr [Ht Ho]]].
  split; [exact Hq|]. rewrite (call_trace_app w _ tr Ht). exact Ho.
Qed.

End Search.

(** ** Invariants that follow the locals

    An invariant [J] of the locals and the world that every step of the
    loop body preserves holds when the loop is left through its [break]; of
    a run that returned early or is still going, the weaker [K] holds.  The
    steps are: a sample taken by the Step Finder, a sample that moves the
    bracket, a change of direction, a step appended. *)
Section PassInvariant.

Variable E : environment.
Variable m : move E.
Variable cbs : fnptr -> Prop.
Variable J : locals -> world E -> Prop.
Variable K : world E -> Prop.

Hypothesis J_K : forall l w, J l w -> K w.
Hypothesis J_cb :
  forall l w, J l w ->
    cbs (l_calc_position_cb l) /\ cbs (calc_position_cb (w_sk w)).
Hypothesis J_search :
  forall l w cb t, J l w -> cbs cb -> J l (snd (calc_position E cb m t w)).
Hypothesis J_sample :
  forall l w lo t std, J l w -> lo = low l \/ lo = high l ->
    let s := calc_position E (l_calc_position_cb l) m t w in
    J (set_range l lo {| time := t; position := fst s |} std) (snd s).
Hypothesis J_set_dir :
  forall l w d, J l w -> is_dir d = true -> d <> sdir l ->
    fst (do_set_next_step_dir E d w) = 0%Z ->
    J (set_sdir l d) (snd (do_set_next_step_dir E d w)).
Hypothesis K_set_dir :
  forall l w d, J l w -> is_dir d = true -> d <> sdir l ->
    fst (do_set_next_step_dir E d w) <> 0%Z ->
    K (snd (do_set_next_step_dir E d w)).
Hypothesis J_append :
  forall l w0 w next std,
    J l w0 -> J l w -> found E l w0 next w -> is_dir (sdir l) = true ->
    let a := do_queue_append E (time next) (time next * mcu_freq l) w in
    fst a = 0%Z ->
    J (set_step l
         {| time := time next;
            position := (position (last l) + signed_half_step l
                         + signed_half_step l)%float |}
         next std)
      (snd a).
Hypothesis K_append :
  forall l w0 w next,
    J l w0 -> J l w -> found E l w0 next w -> is_dir (sdir l) = true ->
    let a := do_queue_append E (time next) (time next * mcu_freq l) w in
    fst a <> 0%Z -> K (snd a).

Lemma find_step_loop_keeps (l : locals) (cb : fnptr) (fuel : nat) :
  cbs cb ->
  forall target high_sign lo hi best w,
    J l w ->
    match find_step_loop E fuel cb m target high_sign lo hi best w with
    | Done r w' =>
      J l w'
      /\ ((w' = w /\ r = best)
          \/ exists tr,
               w_trace w' = EvCalcPosition cb (time r) :: tr ++ w_trace w)
    | OutOfFuel w' => J l w'
    end.
Proof.
  intros Hcb; induction fuel as [|fuel IH]; intros target high_sign lo hi best
    w Hj; simpl; [exact Hj|].
  destruct (abs _ <=? _)%float; [auto|].
  match goal with
  | |- context [calc_position E cb m ?t w] =>
    pose proof (J_search l w cb t Hj Hcb) as Hs;
      pose proof (calc_position_trace E cb m t w) as Ht;
      destruct (calc_position E cb m t w) as [p w1]
  end.
  simpl in Hs, Ht.
  assert (Hgo : forall lo' hi',
    match find_step_loop E fuel cb m target high_sign lo' hi'
            {| time := ((time lo * position hi - time hi * position lo)
                        / (position hi - position lo))%float;
               position := p |} w1 with
    | Done r w' =>
      J l w'
      /\ ((w' = w /\ r = best)
          \/ exists tr,
               w_trace w' = EvCalcPosition cb (time r) :: tr ++ w_trace w)
    | OutOfFuel w' => J l w'
    end).
  { intros lo' hi'.
    specialize (IH target high_sign lo' hi'
      {| time := ((time lo * position hi - time hi * position lo)
                  / (position hi - position lo))%float;
         position := p |} w1 Hs).
    destruct (find_step_loop E fuel cb m target high_sign lo' hi' _ w1)
      as [r w'|w']; [|exact IH].
    destruct IH as [Hj' [[-> ->]|[tr Hr]]]; (split; [exact Hj'|]); right.
    - exists []; simpl. exact Ht.
    - exists (tr ++ [EvCalcPosition cb
                       ((time lo * position hi - time hi * position lo)
                        / (position hi - position lo))%float]).
      rewrite Hr, Ht, <- app_assoc; reflexivity. }
  destruct (Bool.eqb _ _); apply Hgo.
Qed.

Lemma itersolve_find_step_keeps (l : locals) (fuel : nat) (target : float)
    (w : world E) :
  J l w ->
  match itersolve_find_step E fuel m (low l) (high l) target w with
  | Done r w' => J l w' /\ found E l w r w'
  | OutOfFuel w' => J l w'
  end.
Proof.
  intros Hj; unfold itersolve_find_step.
  destruct (_ =? 0)%float.
  { split; [exact Hj|]. left; auto. }
  destruct (Bool.eqb _ _).
  { split; [exact Hj|]. left; auto. }
  pose proof (find_step_loop_keeps l (calc_position_cb (w_sk w)) fuel
                (proj2 (J_cb l w Hj)) target
                (signbit E (position (high l) - target))
                {| time := time (low l);
                   position := (position (low l) - target)%float |}
                {| time := time (high l);
                   position := (position (high l) - target)%float |}
                (high l) w Hj) as H.
  simpl in H.
  destruct (find_step_loop E fuel _ m target _ _ _ (high l) w) as [r w'|w'];
    [|exact H].
  destruct H as [Hj' [[-> ->]|[tr Hr]]]; (split; [exact Hj'|]).
  - left; auto.
  - right; eauto.
Qed.

Lemma seek_new_high_range_keeps (l : locals) (w : world E) :
  J l w -> flow_keeps E J K (seek_new_high_range E m l w).
Proof.
  intros Hj; unfold seek_new_high_range.
  destruct (_ <=? _)%float; simpl; [exact Hj|].
  match goal with
  | |- context [calc_position E ?cb m ?t w] =>
    pose proof (J_sample l w (high l) t
                  (seek_time_delta l + seek_time_delta l)%float Hj
                  (or_intror eq_refl)) as Hs;
      destruct (calc_position E cb m t w) as [p w1]
  end.
  exact Hs.
Qed.

Lemma add_step_keeps (l : locals) (w0 w : world E) (next : timepos) :
  J l w0 -> J l w -> found E l w0 next w -> is_dir (sdir l) = true ->
  flow_keeps E J K
    (add_step E m l (position (last l) + signed_half_step l)%float next w).
Proof.
  intros Hj0 Hj Hf Hd; unfold add_step.
  match goal with
  | |- context [if (?x <? ?y)%float then ?y else ?x] =>
    pose proof (J_append l w0 w next (if (x <? y)%float then y else x)
                  Hj0 Hj Hf Hd) as Ha;
      pose proof (K_append l w0 w next Hj0 Hj Hf Hd) as Hk
  end.
  simpl in Ha, Hk.
  destruct (do_queue_append E (time next) (time next * mcu_freq l) w)
    as [ret w1].
  simpl in Ha, Hk.
  destruct (ret =? 0)%Z eqn:Er; simpl.
  - apply Z.eqb_eq in Er. specialize (Ha Er).
    destruct (_ <=? _)%float; [|exact Ha].
    apply seek_new_high_range_keeps; exact Ha.
  - apply Z.eqb_neq in Er. exact (Hk Er).
Qed.

Lemma find_and_add_step_keeps (fuel : nat) (l : locals) (w : world E) :
  J l w -> is_dir (sdir l) = true ->
  flow_keeps E J K (find_and_add_step E fuel m l w).
Proof.
  intros Hj Hd; unfold find_and_add_step.
  pose proof (itersolve_find_step_keeps l fuel
                (position (last l) + signed_half_step l)%float w Hj) as H.
  destruct (itersolve_find_step E fuel m _ _ _ w) as [next w1|w1]; simpl.
  - destruct H as [Hj1 Hf]. apply (add_step_keeps l w w1 next); assumption.
  - apply J_K with l; exact H.
Qed.

Lemma gen_steps_body_keeps (fuel : nat) (l : locals) (w : world E) :
  J l w -> flow_keeps E J K (gen_steps_body E fuel m l w).
Proof.
  intros Hj; unfold gen_steps_body.
  destruct (abs _ <? half_step l)%float;
    [apply seek_new_high_range_keeps; exact Hj|].
  set (d := if (0 <? _)%float then 1%Z else 0%Z).
  assert (Hd : is_dir d = true)
    by (subst d; destruct (0 <? _)%float; reflexivity).
  destruct (d =? sdir l)%Z eqn:Ed; simpl.
  { apply Z.eqb_eq in Ed. apply find_and_add_step_keeps; [exact Hj|].
    rewrite <- Ed; exact Hd. }
  apply Z.eqb_neq in Ed.
  destruct (abs _ <? _)%float;
    [apply seek_new_high_range_keeps; exact Hj|].
  destruct (_ && _).
  - match goal with
    | |- context [calc_position E ?cb m ?t w] =>
      pose proof (J_sample l w (low l) t (seek_time_delta l) Hj
                    (or_introl eq_refl)) as Hs;
        destruct (calc_position E cb m t w) as [p w1]
    end.
    exact Hs.
  - pose proof (J_set_dir l w d Hj Hd Ed) as Hs.
    pose proof (K_set_dir l w d Hj Hd Ed) as Hk.
    destruct (do_set_next_step_dir E d w) as [ret w1]; simpl in Hs, Hk.
    destruct (ret =? 0)%Z eqn:Er; simpl.
    + apply Z.eqb_eq in Er.
      apply find_and_add_step_keeps; [exact (Hs Er)|exact Hd].
    + apply Z.eqb_neq in Er. exact (Hk Er).
Qed.

Lemma gen_steps_loop_keeps (fuel : nat) :
  forall l w, J l w -> loop_keeps E J K (gen_steps_loop E fuel m l w).
Proof.
  induction fuel as [|fuel IH]; intros l w Hj; simpl;
    [apply J_K with l; exact Hj|].
  pose proof (gen_steps_body_keeps fuel l w Hj) as Hb.
  destruct (gen_steps_body E fuel m l w) as [[l'|l'|ret] w'|w'];
    simpl in *; auto.
Qed.

End PassInvariant.

(** ** The books of a run: directions, positions, clocks, sessions *)

Section Ledger.

Variable E : environment.
Variable m : move E.
Variable t0 : list event.
Variable hs freq : float.
Variable d0 : Z.
Variable p0 : float.

Ltac open_ledger H tr :=
  destruct H as [Hhs [Hfreq [tr [Ht [Hdir [Hpos [Hok [Hclk Hst]]]]]]]].

Lemma ledger_weaken (l : locals) (w : world E) :
  ledger E t0 hs freq d0 p0 l w -> ledger_trace E t0 freq d0 w.
Proof. intros H; open_ledger H tr. exists tr; auto. Qed.

Lemma ledger_calc (l : locals) (w : world E) cb t lo hi std :
  ledger E t0 hs freq d0 p0 l w ->
  ledger E t0 hs freq d0 p0 (set_range l lo hi std)
         (snd (calc_position E cb m t w)).
Proof.
  intros H; open_ledger H tr.
  split; [exact Hhs|]. split; [exact Hfreq|].
  exists (EvCalcPosition cb t :: tr).
  rewrite calc_position_trace, Ht; simpl.
  repeat split; auto.
  constructor; [exact I|exact Hclk].
Qed.

Lemma ledger_search (l : locals) (w : world E) cb t :
  ledger E t0 hs freq d0 p0 l w ->
  ledger E t0 hs freq d0 p0 l (snd (calc_position E cb m t w)).
Proof.
  intros H.
  pose proof (ledger_calc l w cb t (low l) (high l) (seek_time_delta l) H)
    as H'.
  destruct l; exact H'.
Qed.

Lemma ledger_set_dir (l : locals) (w : world E) (d : Z) :
  ledger E t0 hs freq d0 p0 l w -> is_dir d = true -> d <> sdir l ->
  fst (do_set_next_step_dir E d w) = 0%Z ->
  ledger E t0 hs freq d0 p0 (set_sdir l d)
         (snd (do_set_next_step_dir E d w)).
Proof.
  intros H Hd Hne Hret; open_ledger H tr.
  split; [exact Hhs|]. split; [exact Hfreq|].
  exists (EvSetNextStepDir d 0 :: tr).
  rewrite do_set_next_step_dir_trace, Hret, Ht; simpl.
  rewrite Hdir, Hd, Hok.
  apply Z.eqb_neq in Hne; rewrite Hne; simpl.
  repeat split; auto.
  constructor; [exact I|exact Hclk].
Qed.

Lemma ledger_set_dir_failed (l : locals) (w : world E) (d : Z) :
  ledger E t0 hs freq d0 p0 l w -> is_dir d = true -> d <> sdir l ->
  ledger_trace E t0 freq d0 (snd (do_set_next_step_dir E d w)).
Proof.
  intros H Hd Hne; open_ledger H tr.
  exists (EvSetNextStepDir d (fst (do_set_next_step_dir E d w)) :: tr).
  rewrite do_set_next_step_dir_trace, Ht; simpl.
  rewrite Hdir, Hd, Hok.
  apply Z.eqb_neq in Hne; rewrite Hne; simpl.
  repeat split; auto.
  constructor; [exact I|exact Hclk].
Qed.

Lemma ledger_append (l : locals) (w : world E) (next : timepos)
    (std : float) :
  ledger E t0 hs freq d0 p0 l w -> is_dir (sdir l) = true ->
  let a := do_queue_append E (time next) (time next * mcu_freq l) w in
  fst a = 0%Z ->
  ledger E t0 hs freq d0 p0
    (set_step l
       {| time := time next;
          position := (position (last l) + signed_half_step l
                       + signed_half_step l)%float |}
       next std)
    (snd a).
Proof.
  intros H Hd a Hret; subst a; open_ledger H tr.
  split; [exact Hhs|]. split; [exact Hfreq|].
  exists (EvQueueAppend (time next) (time next * mcu_freq l) 0 :: tr).
  rewrite do_queue_append_trace, Hret, Ht; simpl.
  rewrite Hdir, Hd, Hok, Hpos.
  unfold signed_half_step; rewrite Hhs.
  repeat split; auto.
  constructor; [rewrite Hfreq; reflexivity|exact Hclk].
Qed.

Lemma ledger_append_failed (l : locals) (w : world E) (next : timepos) :
  ledger E t0 hs freq d0 p0 l w -> is_dir (sdir l) = true ->
  ledger_trace E t0 freq d0
    (snd (do_queue_append E (time next) (time next * mcu_freq l) w)).
Proof.
  intros H Hd; open_ledger H tr.
  exists (EvQueueAppend (time next) (time next * mcu_freq l)
            (fst (do_queue_append E (time next) (time next * mcu_freq l) w))
            :: tr).
  rewrite do_queue_append_trace, Ht; simpl.
  rewrite Hdir, Hd, Hok.
  repeat split; auto.
  constructor; [rewrite Hfreq; reflexivity|exact Hclk].
Qed.

(** The loop keeps the books. *)
Lemma gen_steps_loop_ledger (fuel : nat) (l : locals) (w : world E) :
  ledger E t0 hs freq d0 p0 l w ->
  loop_keeps E (ledger E t0 hs freq d0 p0) (ledger_trace E t0 freq d0)
             (gen_steps_loop E fuel m l w).
Proof.
  apply (gen_steps_loop_keeps E m (fun _ => True)).
  - exact ledger_weaken.
  - auto.
  - intros l1 w1 cb t H _; apply ledger_search; exact H.
  - intros l1 w1 lo t std H _; simpl. apply ledger_calc; exact H.
  - exact ledger_set_dir.
  - intros l1 w1 d H Hd Hne _; apply (ledger_set_dir_failed l1); assumption.
  - intros l1 w0 w1 next std _ H _ Hd; apply ledger_append; assumption.
  - intros l1 w0 w1 next _ H _ Hd a _; subst a.
    apply (ledger_append_failed l1); assumption.
Qed.

End Ledger.

(** An event at the old end of a trace that is neither a step nor a change
    of direction does not count. *)
Lemma dir_now_start (d0 : Z) (tr : list event) scp pt prec :
  dir_now d0 (tr ++ [EvQueueAppendStart scp pt prec]) = dir_now d0 tr.
Proof.
  induction tr as [|e tr IH]; simpl; [reflexivity|].
  destruct e; auto. rewrite IH; reflexivity.
Qed.

Lemma directions_ok_start (d0 : Z) (tr : list event) scp pt prec :
  directions_ok d0 (tr ++ [EvQueueAppendStart scp pt prec])
  = directions_ok d0 tr.
Proof.
  induction tr as [|e tr IH]; simpl; [reflexivity|].
  rewrite IH, dir_now_start; reflexivity.
Qed.

Lemma position_after_start (hs : float) (d0 : Z) (p0 : float)
    (tr : list event) scp pt prec :
  position_after hs d0 p0 (tr ++ [EvQueueAppendStart scp pt prec])
  = position_after hs d0 p0 tr.
Proof.
  induction tr as [|e tr IH]; simpl; [reflexivity|].
  destruct e; auto. rewrite IH, dir_now_start; reflexivity.
Qed.

Lemma clocks_scaled_start (freq : float) (tr : list event) scp pt prec :
  clocks_scaled freq tr ->
  clocks_scaled freq (tr ++ [EvQueueAppendStart scp pt prec]).
Proof.
  intros H; apply Forall_app; split; [exact H|].
  constructor; [exact I|constructor].
Qed.

(** The books of a whole call, by the way it ended.  [tr] are the calls made
    in the loop; a call that ran out of its loop wrote the position the
    books give and ran the post hook, if any, on the result. *)
Lemma gen_steps_books (E : environment) (fuel : nat) (m : move E)
    (w : world E) :
  let hs := (0.5 * step_dist (w_sk w))%float in
  let freq := stepcompress_get_mcu_freq E (sc (w_sk w)) (w_queue w) in
  let d0 := stepcompress_get_step_dir E (sc (w_sk w)) (w_queue w) in
  let p0 := commanded_pos (w_sk w) in
  let start := EvQueueAppendStart (sc (w_sk w)) (print_time E m) 0.5 in
  exists tr,
    directions_ok d0 tr = true /\ clocks_scaled freq tr
    /\ forallb in_loop tr = true
    /\ match itersolve_gen_steps E fuel m w with
       | OutOfFuel w' => w_trace w' = tr ++ start :: w_trace w
       | Done ret w' =>
         (ret <> 0%Z /\ w_trace w' = tr ++ start :: w_trace w)
         \/ (ret = 0%Z
             /\ exists sk1,
                  let sk2 :=
                    set_commanded_pos sk1 (position_after hs d0 p0 tr) in
                  (calc_keeps_frame E -> post_cb sk2 = post_cb (w_sk w))
                  /\ ((post_cb sk2 = 0%N /\ w_sk w' = sk2
                       /\ w_trace w'
                          = EvQueueAppendFinish :: tr ++ start :: w_trace w)
                      \/ (post_cb sk2 <> 0%N
                          /\ w_sk w' = call_post E (post_cb sk2) sk2
                          /\ w_trace w'
                             = EvPostCb (post_cb sk2) :: EvQueueAppendFinish
                                 :: tr ++ start :: w_trace w)))
       end.
Proof.
  intros hs freq d0 p0 start.
  unfold itersolve_gen_steps, gen_steps_init.
  match goal with
  | |- context [gen_steps_loop E fuel m ?l ?w0] =>
    assert (H0 : ledger E (start :: w_trace w) hs freq d0 p0 l w0)
      by (split; [reflexivity|]; split; [reflexivity|]; exists []; simpl;
          repeat split; auto; constructor);
      pose proof (gen_steps_loop_ledger E m _ hs freq d0 p0 fuel l w0 H0)
        as H;
      pose proof (gen_steps_loop_quiet E fuel m l w0) as Hq;
      pose proof
        (fun calc_frame =>
           gen_steps_loop_inv E (frame_rel E)
             (fun a => same_frame_refl (w_sk a))
             (fun a b c => @same_frame_trans (w_sk a) (w_sk b) (w_sk c))
             (frame_rel_calc E calc_frame)
             (fun t c a _ => frame_rel_append E t c a)
             (fun d a _ => frame_rel_set_dir E d a)
             fuel m l w0) as Hfr;
      destruct (gen_steps_loop E fuel m l w0) as [[ret|l'] w'|w']
  end; simpl in H, Hq, Hfr; simpl.
  - destruct H as [tr [Ht [Hok [Hclk Hst]]]].
    exists tr. repeat split; auto. left; split; [|exact Ht].
    destruct Hq as [w1 [_ [Hr _]]]; exact Hr.
  - destruct H as [Hhs [Hfreq [tr [Ht [Hdir [Hpos [Hok [Hclk Hst]]]]]]]].
    exists tr. repeat split; auto. right; split; [reflexivity|].
    exists (w_sk w'). rewrite Hpos. split.
    + intros calc_frame. exact (proj2 (proj2 (proj2 (Hfr calc_frame)))).
    + destruct (post_cb (w_sk w') =? 0)%N eqn:Hcb; simpl; rewrite Ht.
      * left. apply N.eqb_eq in Hcb. auto.
      * right. apply N.eqb_neq in Hcb. auto.
  - destruct H as [tr [Ht [Hok [Hclk Hst]]]].
    exists tr. repeat split; auto.
Qed.

(** The calls of a whole call: what the loop did, after the start of the
    session and before the ending. *)
Lemma gen_steps_call_trace (E : environment) (fuel : nat) (m : move E)
    (w : world E) :
  let hs := (0.5 * step_dist (w_sk w))%float in
  let freq := stepcompress_get_mcu_freq E (sc (w_sk w)) (w_queue w) in
  let d0 := stepcompress_get_step_dir E (sc (w_sk w)) (w_queue w) in
  let p0 := commanded_pos (w_sk w) in
  let start := EvQueueAppendStart (sc (w_sk w)) (print_time E m) 0.5 in
  let o := itersolve_gen_steps E fuel m w in
  exists tr ending,
    call_trace w (final_world o) = ending ++ tr ++ [start]
    /\ directions_ok d0 tr = true /\ clocks_scaled freq tr
    /\ forallb in_loop tr = true
    /\ (ending = [] \/ ending = [EvQueueAppendFinish]
        \/ exists cb, ending = [EvPostCb cb; EvQueueAppendFinish])
    /\ session_end w o ending
    /\ forall w', o = Done 0%Z w' ->
         exists sk1,
           let sk2 := set_commanded_pos sk1 (position_after hs d0 p0 tr) in
           w_sk w' = sk2 \/ w_sk w' = call_post E (post_cb sk2) sk2.
Proof.
  intros hs freq d0 p0 start o.
  destruct (gen_steps_books E fuel m w) as [tr [Hok [Hclk [Hst Hrun]]]].
  fold hs freq d0 p0 start o in Hok, Hclk, Hrun.
  exists tr.
  assert (Hsplit : forall ending (w' : world E),
             w_trace w' = ending ++ tr ++ start :: w_trace w ->
             call_trace w w' = ending ++ tr ++ [start]).
  { intros ending w' H. apply call_trace_app.
    rewrite H, <- !app_assoc; reflexivity. }
  destruct o as [ret w'|w']; simpl.
  - destruct Hrun
      as [[Hr Ht]|[Hr [sk1 [Hfr [[Hcb [Hsk Ht]]|[Hcb [Hsk Ht]]]]]]].
    + exists []; split; [apply (Hsplit [] w' Ht)|].
      apply Z.eqb_neq in Hr; rewrite Hr.
      repeat split; auto.
      intros w2 Hd; inversion Hd; subst; discriminate.
    + exists [EvQueueAppendFinish];
        split; [apply (Hsplit [EvQueueAppendFinish] w' Ht)|].
      subst ret; simpl; repeat split; auto.
      * eexists; split; [exact Hfr|].
        rewrite Hcb; simpl. split; [reflexivity|exact Hsk].
      * intros w2 Hd; inversion Hd; subst. exists sk1; left; exact Hsk.
    + eexists [EvPostCb _; EvQueueAppendFinish];
        split; [apply (Hsplit [EvPostCb _; EvQueueAppendFinish] w' Ht)|].
      subst ret; simpl; repeat split; eauto.
      * eexists; split; [exact Hfr|].
        apply N.eqb_neq in Hcb; rewrite Hcb.
        split; [reflexivity|exact Hsk].
      * intros w2 Hd; inversion Hd; subst. exists sk1; right; exact Hsk.
  - exists []; split; [apply (Hsplit [] w' Hrun)|].
    repeat split; auto. intros w2 Hd; discriminate.
Qed.



(** X4.  The clock of every [queue_append] of a call is the step time
    multiplied by the tick rate that [stepcompress_get_mcu_freq] gave when
    the call began. *)
Theorem gen_steps_clocks_are_scaled_times (E : environment) (fuel : nat)
    (m : move E) (w : world E) :
  clocks_scaled (stepcompress_get_mcu_freq E (sc (w_sk w)) (w_queue w))
    (call_trace w (final_world (itersolve_gen_steps E fuel m w))).
Proof.
  destruct (gen_steps_call_trace E fuel m w)
    as [tr [ending [Ht [_ [Hclk [_ [He _]]]]]]].
  rewrite Ht. apply Forall_app; split.
  - destruct He as [->|[->|[cb ->]]]; repeat constructor.
  - apply clocks_scaled_start; exact Hclk.
Qed.

(** X5.  [itersolve_gen_steps] asks the queue for a direction only when it
    is about to step the other way: every direction it sets is 0 or 1 and
    differs from the one in force (the one [stepcompress_get_step_dir] gave,
    then the last one set), and no step is appended while the direction in
    force is neither 0 nor 1. *)
Theorem gen_steps_sets_directions_on_change (E : environment) (fuel : nat)
    (m : move E) (w : world E) :
  directions_ok (stepcompress_get_step_dir E (sc (w_sk w)) (w_queue w))
    (call_trace w (final_world (itersolve_gen_steps E fuel m w)))
  = true.
Proof.
  destruct (gen_steps_call_trace E fuel m w)
    as [tr [ending [Ht [Hok [_ [_ [He _]]]]]]].
  rewrite Ht.
  destruct He as [->|[->|[cb ->]]]; simpl;
    rewrite directions_ok_start; exact Hok.
Qed.

(** X6.  When [itersolve_gen_steps] returns 0, [commanded_pos] is the
    position it had on entry moved by one step distance (two half steps) for
    every step appended, each in the direction that was in force for that
    step, provided the post hook does not write it. *)
Theorem gen_steps_commanded_pos_counts_steps (E : environment) (fuel : nat)
    (m : move E) (w w' : world E) :
  post_keeps_commanded_pos E ->
  itersolve_gen_steps E fuel m w = Done 0%Z w' ->
  commanded_pos (w_sk w')
  = position_after (0.5 * step_dist (w_sk w))
      (stepcompress_get_step_dir E (sc (w_sk w)) (w_queue w))
      (commanded_pos (w_sk w)) (call_trace w w').
Proof.
  intros Hpost Hrun.
  destruct (gen_steps_call_trace E fuel m w)
    as [tr [ending [Ht [_ [_ [_ [He [_ Hsk]]]]]]]].
  rewrite Hrun in Ht; simpl in Ht. rewrite Ht.
  destruct (Hsk w' Hrun) as [sk1 Hw].
  assert (Hcp : commanded_pos (w_sk w')
                = position_after (0.5 * step_dist (w_sk w))
                    (stepcompress_get_step_dir E (sc (w_sk w)) (w_queue w))
                    (commanded_pos (w_sk w)) tr).
  { destruct Hw as [->| ->]; [reflexivity|]. rewrite Hpost; reflexivity. }
  rewrite Hcp.
  destruct He as [->|[->|[cb ->]]]; simpl;
    rewrite position_after_start; reflexivity.
Qed.

(** ** One oracle per call *)

Section OneOracle.

Variable E : environment.
Variable m : move E.
Variable t0 : list event.
Variable cb0 : fnptr.

Hypothesis calc_frame : calc_keeps_frame E.

Lemma one_oracle_calc (l : locals) (w : world E) t lo hi std :
  one_oracle E t0 cb0 l w ->
  one_oracle E t0 cb0 (set_range l lo hi std)
             (snd (calc_position E cb0 m t w)).
Proof.
  intros [Hl [Hw [tr [Ht Hs]]]].
  split; [exact Hl|]. split.
  - destruct (frame_rel_calc E calc_frame cb0 m t w) as [_ [_ [Hc _]]].
    rewrite Hc; exact Hw.
  - exists (EvCalcPosition cb0 t :: tr).
    rewrite calc_position_trace, Ht. split; [reflexivity|].
    constructor; [reflexivity|exact Hs].
Qed.

Lemma gen_steps_loop_one_oracle (fuel : nat) (l : locals) (w : world E) :
  one_oracle E t0 cb0 l w ->
  loop_keeps E (one_oracle E t0 cb0) (one_oracle_trace E t0 cb0)
             (gen_steps_loop E fuel m l w).
Proof.
  apply (gen_steps_loop_keeps E m (fun cb => cb = cb0)).
  - intros l1 w1 [_ [_ H]]; exact H.
  - intros l1 w1 [Hl [Hw _]]; auto.
  - intros l1 w1 cb t H ->.
    pose proof (one_oracle_calc l1 w1 t (low l1) (high l1)
                  (seek_time_delta l1) H) as H'.
    destruct l1; exact H'.
  - intros l1 w1 lo t std H _; simpl.
    destruct H as [Hl H]. rewrite Hl.
    apply one_oracle_calc. split; [exact Hl|exact H].
  - intros l1 w1 d [Hl [Hw [tr [Ht Hs]]]] _ _ _.
    split; [exact Hl|].
    unfold do_set_next_step_dir.
    destruct (queue_append_set_next_step_dir E d (w_queue w1)) as [ret q'];
      simpl.
    split; [exact Hw|].
    exists (EvSetNextStepDir d ret :: tr); rewrite Ht; split; [reflexivity|].
    constructor; [exact I|exact Hs].
  - intros l1 w1 d [Hl [Hw [tr [Ht Hs]]]] _ _ _.
    unfold do_set_next_step_dir.
    destruct (queue_append_set_next_step_dir E d (w_queue w1)) as [ret q'];
      simpl.
    exists (EvSetNextStepDir d ret :: tr); rewrite Ht; split; [reflexivity|].
    constructor; [exact I|exact Hs].
  - intros l1 w0 w1 next std _ [Hl [Hw [tr [Ht Hs]]]] _ _ a _; subst a.
    split; [exact Hl|].
    unfold do_queue_append.
    destruct (queue_append E _ (w_queue w1)) as [ret q']; simpl.
    split; [exact Hw|].
    eexists (EvQueueAppend _ _ ret :: tr); rewrite Ht; split; [reflexivity|].
    constructor; [exact I|exact Hs].
  - intros l1 w0 w1 next _ [Hl [Hw [tr [Ht Hs]]]] _ _ a _; subst a.
    unfold do_queue_append.
    destruct (queue_append E _ (w_queue w1)) as [ret q']; simpl.
    eexists (EvQueueAppend _ _ ret :: tr); rewrite Ht; split; [reflexivity|].
    constructor; [exact I|exact Hs].
Qed.

End OneOracle.

(** X7.  Every sample of a call to [itersolve_gen_steps], the Step
    Finder's included, is asked of the oracle that was installed in the
    stepper state when the call began, provided the oracle writes no field
    of the stepper state other than [commanded_pos]. *)
Theorem gen_steps_asks_one_oracle (E : environment) (fuel : nat)
    (m : move E) (w : world E) :
  calc_keeps_frame E ->
  same_oracle (calc_position_cb (w_sk w))
    (call_trace w (final_world (itersolve_gen_steps E fuel m w))).
Proof.
  intros calc_frame.
  set (start := EvQueueAppendStart (sc (w_sk w)) (print_time E m) 0.5).
  assert (H : exists tr,
             w_trace (final_world (itersolve_gen_steps E fuel m w))
             = tr ++ start :: w_trace w
             /\ same_oracle (calc_position_cb (w_sk w)) tr).
  { unfold itersolve_gen_steps, gen_steps_init.
    match goal with
    | |- context [gen_steps_loop E fuel m ?l ?w0] =>
      assert (H0 : one_oracle E (start :: w_trace w)
                     (calc_position_cb (w_sk w)) l w0)
        by (split; [reflexivity|]; split; [reflexivity|];
            exists []; split; [reflexivity|constructor]);
        pose proof (gen_steps_loop_one_oracle E m _ _ calc_frame fuel l w0
                      H0) as H;
        destruct (gen_steps_loop E fuel m l w0) as [[ret|l'] w'|w']
    end; simpl in H; simpl; try exact H.
    destruct H as [_ [_ [tr [Ht Hs]]]].
    destruct (post_cb (w_sk w') =? 0)%N; simpl; rewrite Ht.
    - exists (EvQueueAppendFinish :: tr); split; [reflexivity|].
      constructor; [exact I|exact Hs].
    - exists (EvPostCb (post_cb (w_sk w')) :: EvQueueAppendFinish :: tr).
      split; [reflexivity|]. repeat constructor; exact Hs. }
  destruct H as [tr [Ht Hs]].
  rewrite (call_trace_app w _ (tr ++ [start]))
    by (rewrite Ht, <- app_assoc; reflexivity).
  apply Forall_app; split; [exact Hs|repeat constructor].
Qed.

(** ** Steps are taken at sampled times *)

Lemma sampled_cons (e : event) (tr : list event) (t : float) :
  sampled tr t -> sampled (e :: tr) t.
Proof.
  intros [->|H]; [left; reflexivity|right].
  unfold calc_times; simpl. apply in_or_app; right; exact H.
Qed.

Lemma sampled_calc (cb : fnptr) (tr : list event) (t : float) :
  sampled (EvCalcPosition cb t :: tr) t.
Proof. right; left; reflexivity. Qed.

Lemma steps_at_samples_start (tr : list event) scp pt prec :
  steps_at_samples tr ->
  steps_at_samples (tr ++ [EvQueueAppendStart scp pt prec]).
Proof.
  induction tr as [|e tr IH]; simpl; [auto|].
  destruct e; auto.
  intros [[->|Hs] Ht]; (split; [|auto]); [left; reflexivity|right].
  unfold calc_times in *; rewrite flat_map_app.
  apply in_or_app; left; exact Hs.
Qed.

Section Samples.

Variable E : environment.
Variable m : move E.
Variable t0 : list event.

Lemma gen_steps_loop_samples (fuel : nat) (l : locals) (w : world E) :
  sampling E t0 l w ->
  loop_keeps E (sampling E t0) (sampling_trace E t0)
             (gen_steps_loop E fuel m l w).
Proof.
  apply (gen_steps_loop_keeps E m (fun _ => True)).
  - intros l1 w1 [tr [Ht [_ [_ [_ Hs]]]]]. exists tr; auto.
  - auto.
  - intros l1 w1 cb t [tr [Ht [H1 [H2 [H3 Hs]]]]] _.
    exists (EvCalcPosition cb t :: tr).
    rewrite calc_position_trace, Ht.
    repeat split; auto using sampled_cons.
  - intros l1 w1 lo t std [tr [Ht [H1 [H2 [H3 Hs]]]]] Hlo; simpl.
    exists (EvCalcPosition (l_calc_position_cb l1) t :: tr).
    rewrite calc_position_trace, Ht.
    repeat split; simpl; auto using sampled_cons, sampled_calc.
    destruct Hlo as [->| ->]; auto using sampled_cons.
  - intros l1 w1 d [tr [Ht [H1 [H2 [H3 Hs]]]]] _ _ _.
    eexists (EvSetNextStepDir d _ :: tr).
    rewrite do_set_next_step_dir_trace, Ht.
    repeat split; simpl; auto using sampled_cons.
  - intros l1 w1 d [tr [Ht [H1 [H2 [H3 Hs]]]]] _ _ _.
    eexists (EvSetNextStepDir d _ :: tr).
    rewrite do_set_next_step_dir_trace, Ht.
    repeat split; simpl; auto using sampled_cons.
  - intros l1 w0 w1 next std [tr0 [Ht0 _]] [tr [Ht [H1 [H2 [H3 Hs]]]]] Hf _ a _;
      subst a.
    assert (Hn : sampled tr (time next)).
    { destruct Hf as [[-> [->|Hl]]|[cb [tr1 Hf]]]; auto.
      - rewrite Hl; exact H2.
      - rewrite Ht0, Ht, app_assoc in Hf.
        apply (app_inv_tail t0 tr
                 (EvCalcPosition cb (time next) :: tr1 ++ tr0)) in Hf.
        subst tr. apply sampled_calc. }
    eexists (EvQueueAppend (time next) _ _ :: tr).
    rewrite do_queue_append_trace, Ht.
    repeat split; simpl; auto using sampled_cons.
  - intros l1 w0 w1 next [tr0 [Ht0 _]] [tr [Ht [H1 [H2 [H3 Hs]]]]] Hf _ a _;
      subst a.
    assert (Hn : sampled tr (time next)).
    { destruct Hf as [[-> [->|Hl]]|[cb [tr1 Hf]]]; auto.
      - rewrite Hl; exact H2.
      - rewrite Ht0, Ht, app_assoc in Hf.
        apply (app_inv_tail t0 tr
                 (EvCalcPosition cb (time next) :: tr1 ++ tr0)) in Hf.
        subst tr. apply sampled_calc. }
    eexists (EvQueueAppend (time next) _ _ :: tr).
    rewrite do_queue_append_trace, Ht.
    repeat split; simpl; auto using sampled_cons.
Qed.

End Samples.

(** X8.  Every step time that [itersolve_gen_steps] hands to the queue is
    the time 0 at which the call starts or a time at which it sampled the
    oracle before appending the step: no step is placed at a time the oracle
    was not asked about. *)
Theorem gen_steps_steps_at_sampled_times (E : environment) (fuel : nat)
    (m : move E) (w : world E) :
  steps_at_samples
    (call_trace w (final_world (itersolve_gen_steps E fuel m w))).
Proof.
  set (start := EvQueueAppendStart (sc (w_sk w)) (print_time E m) 0.5).
  assert (H : exists tr ending,
             w_trace (final_world (itersolve_gen_steps E fuel m w))
             = ending ++ tr ++ start :: w_trace w
             /\ steps_at_samples tr
             /\ (ending = [] \/ ending = [EvQueueAppendFinish]
                 \/ exists cb, ending = [EvPostCb cb; EvQueueAppendFinish])).
  { unfold itersolve_gen_steps, gen_steps_init.
    match goal with
    | |- context [gen_steps_loop E fuel m ?l ?w0] =>
      assert (H0 : sampling E (start :: w_trace w) l w0)
        by (exists []; simpl; repeat split; auto; left; reflexivity);
        pose proof (gen_steps_loop_samples E m _ fuel l w0 H0) as H;
        destruct (gen_steps_loop E fuel m l w0) as [[ret|l'] w'|w']
    end; simpl in H; simpl.
    - destruct H as [tr [Ht Hs]]. exists tr, []; simpl; auto.
    - destruct H as [tr [Ht [_ [_ [_ Hs]]]]].
      destruct (post_cb (w_sk w') =? 0)%N; simpl; rewrite Ht.
      + exists tr, [EvQueueAppendFinish]; simpl; auto.
      + exists tr, [EvPostCb (post_cb (w_sk w')); EvQueueAppendFinish];
          simpl; eauto 6.
    - destruct H as [tr [Ht Hs]]. exists tr, []; simpl; auto. }
  destruct H as [tr [ending [Ht [Hs He]]]].
  rewrite (call_trace_app w _ (ending ++ tr ++ [start]))
    by (rewrite Ht, <- !app_assoc; reflexivity).
  pose proof (steps_at_samples_start tr _ _ _ Hs
              : steps_at_samples (tr ++ [start])) as Hs'.
  destruct He as [->|[->|[cb ->]]]; exact Hs'.
Qed.

(** ** The first pass of a call *)

Module FirstPassFacts.

Import FloatFacts.

(** A value that is neither infinite nor NaN is within any positive
    distance of itself. *)
Lemma abs_sub_diag_ltb (c h : float) :
  is_finite c = true -> (0 <? h)%float = true ->
  (abs (c - c) <? h)%float = true.
Proof.
  intros Hc Hh; apply is_finite_spec in Hc; to_spec.
  change (Prim2SF 0) with (S754_zero false) in Hh.
  destruct (SF64sub_diag _ Hc) as [s Hz]; rewrite Hz; exact Hh.
Qed.

(** Something is within a distance of [c] only if [c] is neither infinite
    nor NaN. *)
Lemma near_is_finite (p c h : float) :
  (abs (p - c) <? h)%float = true -> is_finite c = true.
Proof.
  unfold is_finite, is_nan, is_infinity; to_spec; intros H.
  change (Prim2SF infinity) with (S754_infinity false).
  unfold SFltb in H.
  destruct (Prim2SF c) as [s|s| |s m e]; simpl.
  - reflexivity.
  - exfalso.
    destruct (Prim2SF p) as [sp|sp| |sp mp ep], s; try destruct sp;
      simpl in H; destruct (Prim2SF h) as [sh|sh| |sh mh eh];
      try destruct sh; discriminate.
  - exfalso.
    destruct (Prim2SF p) as [sp|sp| |sp mp ep]; simpl in H; discriminate.
  - unfold SFeqb, SFabs; simpl.
    rewrite Z.compare_refl, Pos.compare_cont_refl; simpl.
    destruct s; reflexivity.
Qed.

Lemma ltb_not_leb (x y : float) :
  (x <? y)%float = true -> (y <=? x)%float = false.
Proof.
  to_spec; unfold SFltb, SFleb.
  rewrite (SFcompare_antisym (Prim2SF x) (Prim2SF y)).
  destruct (SFcompare (Prim2SF x) (Prim2SF y)) as [[| |]|]; simpl;
    congruence.
Qed.

End FirstPassFacts.

(** A run adds to the trace and removes nothing from it. *)
Lemma gen_steps_loop_extends (E : environment) (fuel : nat) (m : move E)
    (l : locals) (w : world E) :
  exists tr,
    w_trace
      (final_world
         (bind (gen_steps_loop E fuel m l w)
               (fun r w' =>
                  match r with
                  | inl ret => Done ret w'
                  | inr l' => gen_steps_finish E l' w'
                  end)))
    = tr ++ w_trace w.
Proof.
  pose proof (gen_steps_loop_quiet E fuel m l w) as H.
  destruct (gen_steps_loop E fuel m l w) as [[ret|l'] w'|w']; simpl in *.
  - destruct H as [w1 [[tr [Ht _]] F]].
    destruct (failing_step_trace F) as [e [He _]].
    exists (e :: tr). rewrite He, Ht; reflexivity.
  - destruct H as [tr [Ht _]].
    destruct (post_cb (w_sk w') =? 0)%N; simpl; rewrite Ht.
    + exists (EvQueueAppendFinish :: tr); reflexivity.
    + eexists (EvPostCb _ :: EvQueueAppendFinish :: tr); reflexivity.
  - destruct H as [tr [Ht _]]. exists tr; exact Ht.
Qed.

(** X9.  A move that is over when it begins ([move_t] at most 0), for a
    stepper with a positive half step (the double [.5 * step_dist]) whose
    [commanded_pos] is neither infinite nor NaN: [itersolve_gen_steps] opens the append session, ends it
    and runs the post hook, if any; it returns 0 without a call to the oracle
    and without a step, and writes [commanded_pos] with the value it had. *)
Theorem gen_steps_of_an_empty_move (E : environment) (fuel : nat)
    (m : move E) (w : world E) :
  (move_t E m <=? 0)%float = true ->
  (0 <? 0.5 * step_dist (w_sk w))%float = true ->
  is_finite (commanded_pos (w_sk w)) = true ->
  let w1 :=
    {| w_sk := w_sk w;
       w_queue :=
         queue_append_finish E
           (queue_append_start E (sc (w_sk w)) (print_time E m) 0.5
                               (w_queue w));
       w_trace :=
         EvQueueAppendFinish
           :: EvQueueAppendStart (sc (w_sk w)) (print_time E m) 0.5
           :: w_trace w |} in
  itersolve_gen_steps E (S fuel) m w
  = Done 0%Z (if (post_cb (w_sk w) =? 0)%N then w1
              else do_post_cb E (post_cb (w_sk w)) w1).
Proof.
  intros Hm Hs Hc.
  unfold itersolve_gen_steps, gen_steps_init; simpl.
  unfold gen_steps_body, seek_new_high_range; simpl.
  rewrite (FirstPassFacts.abs_sub_diag_ltb _ _ Hc Hs), Hm; simpl.
  unfold gen_steps_finish, write_commanded_pos, do_queue_append_finish; simpl.
  rewrite set_commanded_pos_same.
  destruct (post_cb (w_sk w) =? 0)%N; reflexivity.
Qed.

(** X10.  The first sample of a call.  For a move of positive duration and
    a stepper with a positive half step (the double [.5 * step_dist]) whose
    [commanded_pos] is neither infinite nor NaN, the first thing [itersolve_gen_steps] does after
    opening the session is to sample the oracle at 0.0001 s, or at the end
    of the move if that is earlier: it does not sample the oracle at time
    0, where it takes the position to be [commanded_pos]. *)
Theorem gen_steps_first_sample (E : environment) (fuel : nat) (m : move E)
    (w : world E) :
  (0 <? move_t E m)%float = true ->
  (0 <? 0.5 * step_dist (w_sk w))%float = true ->
  is_finite (commanded_pos (w_sk w)) = true ->
  let t1 := if (move_t E m <? 0.0001)%float then move_t E m
            else 0.0001%float in
  exists tr,
    call_trace w (final_world (itersolve_gen_steps E (S fuel) m w))
    = tr ++ [EvCalcPosition (calc_position_cb (w_sk w)) t1;
             EvQueueAppendStart (sc (w_sk w)) (print_time E m) 0.5].
Proof.
  intros Hm Hs Hc t1.
  unfold itersolve_gen_steps, gen_steps_init; simpl.
  unfold gen_steps_body, seek_new_high_range; simpl.
  rewrite (FirstPassFacts.abs_sub_diag_ltb _ _ Hc Hs).
  rewrite (FirstPassFacts.ltb_not_leb _ _ Hm).
  fold t1.
  pose proof (calc_position_trace E (calc_position_cb (w_sk w)) m t1
     (do_queue_append_start E (sc (w_sk w)) (print_time E m) 0.5 w)) as Ht.
  destruct (calc_position E (calc_position_cb (w_sk w)) m t1 _) as [p w1].
  simpl in Ht.
  match goal with
  | |- context [gen_steps_loop E fuel m ?l w1] =>
    destruct (gen_steps_loop_extends E fuel m l w1) as [tr Hx]
  end.
  exists tr. apply call_trace_app.
  rewrite Hx, Ht, <- app_assoc; reflexivity.
Qed.

(** ** Moves that stay in the dead band

    Against the direction it is stepping in, the generator lets the oracle
    go half a step and 1e-9 away before it turns round. *)

Section DeadBand.

Variable E : environment.
Variable m : move E.
Variable cb : fnptr.
Variable pos : float -> float.
Variable cp hs : float.
Variable d : Z.

Hypothesis move_positive : (0 <? move_t E m)%float = true.
Hypothesis step_positive : (0 <? hs)%float = true.
Hypothesis oracle_pure :
  forall sk t, call_calc_position E cb sk m t = (pos t, sk).
Hypothesis oracle_idle :
  forall t, (0 <=? t)%float = true -> (t <=? move_t E m)%float = true ->
            in_dead_band hs d (pos t - cp) = true.

Lemma idling_seeks (fuel : nat) (l : locals) (w : world E) :
  idling cb cp hs d l ->
  gen_steps_body E fuel m l w = seek_new_high_range E m l w.
Proof.
  intros [Hcb [Hhs [Hd [Hl Hq]]]]; unfold gen_steps_body.
  rewrite Hl, Hhs, Hd; simpl. unfold in_dead_band in Hq.
  destruct (abs _ <? hs)%float; [reflexivity|].
  simpl in Hq. apply andb_true_iff in Hq. destruct Hq as [Hn Hb].
  rewrite Hn, Hb; reflexivity.
Qed.

Lemma idling_break (fuel : nat) (l : locals) (w : world E) :
  idling cb cp hs d l -> (move_t E m <=? time (high l))%float = true ->
  gen_steps_loop E (S fuel) m l w = Done (inr l) w.
Proof.
  intros Hi Hb; simpl. rewrite (idling_seeks fuel l w Hi).
  unfold seek_new_high_range. rewrite Hb; reflexivity.
Qed.

(** One sample of the expansion, exactly. *)
Lemma idling_sample (fuel : nat) (l : locals) (w : world E) :
  idling cb cp hs d l -> (move_t E m <=? time (high l))%float = false ->
  (0 <=? 0 + seek_time_delta l)%float = true ->
  let t := if (move_t E m <? 0 + seek_time_delta l)%float then move_t E m
           else (0 + seek_time_delta l)%float in
  let l' := set_range l (high l) {| time := t; position := pos t |}
                      (seek_time_delta l + seek_time_delta l)%float in
  gen_steps_body E fuel m l w
  = Done (Continue l')
         {| w_sk := w_sk w; w_queue := w_queue w;
            w_trace := EvCalcPosition cb t :: w_trace w |}
  /\ idling cb cp hs d l'.
Proof.
  intros Hi Hb Hd t l'. rewrite (idling_seeks fuel l w Hi).
  destruct Hi as [Hcb [Hhs [Hsd [Hl Hq]]]].
  unfold seek_new_high_range, calc_position.
  rewrite Hl, Hb, Hcb, oracle_pure; simpl. fold t.
  split; [reflexivity|].
  pose proof (move_t_not_nan E m move_positive) as Hnan.
  pose proof (move_t_leb_refl E m move_positive) as Hrefl.
  repeat split; simpl; auto.
  apply oracle_idle; subst t;
    destruct (move_t E m <? 0 + seek_time_delta l)%float eqn:Hc; auto.
  - apply FloatFacts.ltb_leb, move_positive.
  - apply FloatFacts.not_ltb_leb; auto.
    exact (FloatFacts.leb_not_nan_r _ _ Hd).
Qed.

(** The samples of a move that stays in the dead band are those of
    [idle_samples]. *)
Lemma idling_schedule (n : nat) :
  forall (fuel : nat) (l : locals) (w : world E),
    idling cb cp hs d l -> seek_chain n (seek_time_delta l) = true ->
    n + 2 <= fuel ->
    exists l',
      gen_steps_loop E fuel m l w
      = Done (inr l')
             {| w_sk := w_sk w; w_queue := w_queue w;
                w_trace :=
                  map (EvCalcPosition cb)
                      (rev (idle_samples n (move_t E m) (time (high l))
                                         (seek_time_delta l)))
                  ++ w_trace w |}
      /\ last l' = last l.
Proof.
  pose proof (move_t_not_nan E m move_positive) as Hnan.
  pose proof (move_t_leb_refl E m move_positive) as Hrefl.
  assert (Hstop : forall fuel l (w : world E) n',
             idling cb cp hs d l ->
             (move_t E m <=? time (high l))%float = true ->
             exists l',
               gen_steps_loop E (S fuel) m l w
               = Done (inr l')
                      {| w_sk := w_sk w; w_queue := w_queue w;
                         w_trace :=
                           map (EvCalcPosition cb)
                               (rev (idle_samples n' (move_t E m)
                                       (time (high l)) (seek_time_delta l)))
                           ++ w_trace w |}
               /\ last l' = last l).
  { intros fuel l w n' Hi Hb. exists l.
    rewrite (idling_break fuel l w Hi Hb).
    destruct n'; simpl; rewrite Hb; destruct w; auto. }
  induction n as [|n IH]; intros fuel l w Hi Hc Hfuel;
    (destruct fuel as [|fuel]; [lia|]);
    simpl in Hc; apply andb_true_iff in Hc; destruct Hc as [Hd Hc];
    (destruct (move_t E m <=? time (high l))%float eqn:Hb;
     [apply Hstop; assumption|]);
    destruct (idling_sample fuel l w Hi Hb Hd) as [Hbody Hi1];
    cbv zeta in Hbody, Hi1;
    simpl gen_steps_loop; rewrite Hbody; simpl idle_samples; rewrite Hb.
  - destruct fuel as [|fuel]; [lia|].
    match goal with
    | |- context [gen_steps_loop E (S fuel) m ?l1 ?w1] =>
      rewrite (idling_break fuel l1 w1 Hi1)
    end.
    + eexists; split; [reflexivity|reflexivity].
    + simpl.
      destruct (move_t E m <? 0 + seek_time_delta l)%float; [exact Hrefl|].
      apply FloatFacts.eqb_infinity_leb; [exact Hc|exact Hnan].
  - match goal with
    | |- context [gen_steps_loop E fuel m ?l1 ?w1] =>
      destruct (IH fuel l1 w1 Hi1 Hc) as [l2 [H2 Hl2]]; [lia|]
    end.
    exists l2. rewrite H2; simpl. split; [|exact Hl2].
    rewrite map_app, <- app_assoc; reflexivity.
Qed.

Lemma idle_move_schedule (n : nat) (w : world E) (fuel : nat) :
  calc_position_cb (w_sk w) = cb -> commanded_pos (w_sk w) = cp ->
  (0.5 * step_dist (w_sk w))%float = hs ->
  stepcompress_get_step_dir E (sc (w_sk w)) (w_queue w) = d ->
  seek_chain n 0.0001 = true -> n + 2 <= fuel ->
  let w1 :=
    {| w_sk := w_sk w;
       w_queue :=
         queue_append_finish E
           (queue_append_start E (sc (w_sk w)) (print_time E m) 0.5
                               (w_queue w));
       w_trace :=
         EvQueueAppendFinish
           :: map (EvCalcPosition cb)
                  (rev (idle_samples n (move_t E m) 0 0.0001))
           ++ EvQueueAppendStart (sc (w_sk w)) (print_time E m) 0.5
           :: w_trace w |} in
  itersolve_gen_steps E fuel m w
  = Done 0%Z (if (post_cb (w_sk w) =? 0)%N then w1
              else do_post_cb E (post_cb (w_sk w)) w1).
Proof.
  intros Hcb Hcp Hhs Hdir Hchain Hfuel.
  unfold itersolve_gen_steps, gen_steps_init.
  match goal with
  | |- context [gen_steps_loop E fuel m ?l ?w0] =>
    destruct (idling_schedule n fuel l w0) as [l' [Hrun Hl]]
  end.
  - split; [|split; [|split; [|split]]]; simpl; auto.
    + rewrite Hcp; reflexivity.
    + rewrite Hcp. unfold in_dead_band.
      assert (Hf : is_finite cp = true).
      { pose proof (oracle_idle (move_t E m)
                      (FloatFacts.ltb_leb _ _ move_positive)
                      (move_t_leb_refl E m move_positive)) as Hq.
        unfold in_dead_band in Hq. apply orb_true_iff in Hq.
        destruct Hq as [Hq|Hq].
        - exact (FirstPassFacts.near_is_finite _ _ _ Hq).
        - apply andb_true_iff in Hq.
          exact (FirstPassFacts.near_is_finite _ _ _ (proj2 Hq)). }
      rewrite (FirstPassFacts.abs_sub_diag_ltb _ _ Hf step_positive).
      reflexivity.
  - exact Hchain.
  - exact Hfuel.
  - rewrite Hrun; simpl. unfold gen_steps_finish.
    rewrite Hl; simpl. unfold write_commanded_pos; simpl.
    rewrite set_commanded_pos_same.
    unfold do_queue_append_finish; simpl.
    destruct (post_cb (w_sk w) =? 0)%N; reflexivity.
Qed.

End DeadBand.

Lemma samples_are_calc (cb : fnptr) (ts : list float) :
  forallb is_calc (map (EvCalcPosition cb) ts) = true.
Proof. induction ts as [|t ts IH]; simpl; auto. Qed.

(** A call that only sampled the oracle between the start and the end of
    the session, and wrote [commanded_pos] with the value it had. *)
Lemma idle_call (E : environment) (w w' : world E) (q : queue E)
    (tr : list event) (start : event) :
  forallb is_calc tr = true -> is_calc start = true \/ is_start start = true ->
  let w1 := {| w_sk := w_sk w; w_queue := q;
               w_trace := EvQueueAppendFinish :: tr ++ start :: w_trace w |} in
  w' = (if (post_cb (w_sk w) =? 0)%N then w1
        else do_post_cb E (post_cb (w_sk w)) w1) ->
  exists tr',
    w_trace w' = tr' ++ w_trace w
    /\ count is_append tr' = 0
    /\ count is_set_dir tr' = 0
    /\ count is_finish tr' = 1
    /\ (hook_keeps_commanded_pos E w ->
        commanded_pos (w_sk w') = commanded_pos (w_sk w)).
Proof.
  intros Hc Hstart w1 Hw'; subst w1.
  pose proof (count_none is_append is_calc tr calc_not_append Hc) as Ha.
  pose proof (count_none is_set_dir is_calc tr calc_not_set_dir Hc) as Hd.
  pose proof (count_none is_finish is_calc tr calc_not_finish Hc) as Hf.
  assert (Hs : is_append start = false /\ is_set_dir start = false
               /\ is_finish start = false)
    by (destruct start, Hstart; try discriminate; auto).
  destruct Hs as [Hs1 [Hs2 Hs3]].
  destruct (post_cb (w_sk w) =? 0)%N eqn:Hcb; subst w';
    [exists (EvQueueAppendFinish :: tr ++ [start])
    |exists (EvPostCb (post_cb (w_sk w))
               :: EvQueueAppendFinish :: tr ++ [start])];
    simpl; (split; [rewrite <- app_assoc; reflexivity|]);
    unfold count in *; simpl;
    rewrite !filter_app, !length_app, Ha, Hd, Hf; simpl;
    rewrite Hs1, Hs2, Hs3; repeat split; try reflexivity.
  intros Hh; apply Hh. apply N.eqb_neq; exact Hcb.
Qed.

(** X11.  The dead band of a reversal, as the generator computes it.  The
    displacement of a sample is the double [position - commanded_pos], the
    difference rounded; it is in the dead band when its [fabs] is below the
    double [.5 * step_dist], or when its direction (1 when it is positive,
    0 otherwise) is not the direction the queue is in and its [fabs] is
    below the double [.5 * step_dist + 1e-9] (the sum rounded).  A move of positive duration, for a stepper with a
    positive half step, whose oracle stays in the dead band makes
    [itersolve_gen_steps] return 0 without a single call to [queue_append] or
    [queue_append_set_next_step_dir]; the append session is ended once and
    [commanded_pos] is written with the value it had, so that it is what it
    was unless the post hook changes it. *)
Theorem dead_band_move_emits_nothing (E : environment) (m : move E)
    (w : world E) (pos : float -> float) (fuel : nat) :
  (0 <? move_t E m)%float = true ->
  (0 <? 0.5 * step_dist (w_sk w))%float = true ->
  within_dead_band E m w pos ->
  1102 <= fuel ->
  exists w' tr,
    itersolve_gen_steps E fuel m w = Done 0%Z w'
    /\ w_trace w' = tr ++ w_trace w
    /\ count is_append tr = 0
    /\ count is_set_dir tr = 0
    /\ count is_finish tr = 1
    /\ (hook_keeps_commanded_pos E w ->
        commanded_pos (w_sk w') = commanded_pos (w_sk w)).
Proof.
  intros Hm Hs [Hp Hn] Hfuel.
  pose proof (idle_move_schedule E m _ pos _ _ _ Hm Hs Hp Hn 1100 w fuel
                                 eq_refl eq_refl eq_refl eq_refl
                                 seek_chain_from_start Hfuel)
    as Hrun.
  cbv zeta in Hrun.
  destruct (idle_call E w _
              (queue_append_finish E
                 (queue_append_start E (sc (w_sk w)) (print_time E m) 0.5
                                     (w_queue w)))
              (map (EvCalcPosition (calc_position_cb (w_sk w)))
                   (rev (idle_samples 1100 (move_t E m) 0 0.0001)))
              (EvQueueAppendStart (sc (w_sk w)) (print_time E m) 0.5)
              (samples_are_calc _ _) (or_intror eq_refl) eq_refl)
    as [tr H].
  eexists; exists tr. split; [exact Hrun|exact H].
Qed.

Lemma calc_times_samples (cb : fnptr) (ts : list float) :
  calc_times (map (EvCalcPosition cb) ts) = ts.
Proof.
  unfold calc_times; induction ts as [|t ts IH]; simpl; [reflexivity|].
  rewrite IH; reflexivity.
Qed.

(** The samples of a call whose trace is a list of samples between the
    start of the session and the ending. *)
Lemma schedule_of_trace (E : environment) (w w' : world E) (cb : fnptr)
    (ts : list float) (start : event) (ending : list event) :
  w_trace w'
  = ending ++ map (EvCalcPosition cb) (rev ts) ++ start :: w_trace w ->
  calc_times (rev ending) = [] -> calc_times [start] = [] ->
  calc_times (rev (call_trace w w')) = ts.
Proof.
  intros Ht He Hs.
  rewrite (call_trace_app w w'
             (ending ++ map (EvCalcPosition cb) (rev ts) ++ [start]))
    by (rewrite Ht, <- !app_assoc; reflexivity).
  unfold calc_times in *.
  rewrite !rev_app_distr, !flat_map_app, He; simpl rev. rewrite Hs.
  rewrite <- map_rev, rev_involutive, app_nil_r.
  apply calc_times_samples.
Qed.

(** X12.  The sampling schedule of a move that makes no step.  For a move
    of positive duration whose oracle stays in the dead band as the
    generator computes it (the rounded displacement and the rounded bounds
    of [in_dead_band]), and a stepper with a positive half step,
    [itersolve_gen_steps] returns 0 after sampling the oracle at 0.0001 s,
    0.0002 s, 0.0004 s and so on, the step doubling each time, until a
    sample falls on the end of the move, where the last one is taken: the
    times of [idle_samples], in this order, and no other. *)
Theorem idle_move_sampling_schedule (E : environment) (m : move E)
    (w : world E) (pos : float -> float) (fuel : nat) :
  (0 <? move_t E m)%float = true ->
  (0 <? 0.5 * step_dist (w_sk w))%float = true ->
  within_dead_band E m w pos ->
  1102 <= fuel ->
  exists w',
    itersolve_gen_steps E fuel m w = Done 0%Z w'
    /\ calc_times (rev (call_trace w w'))
       = idle_samples 1100 (move_t E m) 0 0.0001.
Proof.
  intros Hm Hs [Hp Hn] Hfuel.
  pose proof (idle_move_schedule E m _ pos _ _ _ Hm Hs Hp Hn 1100 w fuel
                                 eq_refl eq_refl eq_refl eq_refl
                                 seek_chain_from_start Hfuel)
    as Hrun.
  cbv zeta in Hrun.
  eexists. split; [exact Hrun|].
  destruct (post_cb (w_sk w) =? 0)%N.
  - apply (schedule_of_trace E w _ (calc_position_cb (w_sk w)) _
             (EvQueueAppendStart (sc (w_sk w)) (print_time E m) 0.5)
             [EvQueueAppendFinish]); reflexivity.
  - apply (schedule_of_trace E w _ (calc_position_cb (w_sk w)) _
             (EvQueueAppendStart (sc (w_sk w)) (print_time E m) 0.5)
             [EvPostCb (post_cb (w_sk w)); EvQueueAppendFinish]);
      reflexivity.
Qed.

(** ** Steps that follow one another without a sample *)

Lemma unsampled_step_start (tr : list event) scp pt prec :
  unsampled_step (tr ++ [EvQueueAppendStart scp pt prec]) = unsampled_step tr.
Proof.
  induction tr as [|e tr IH]; simpl; [reflexivity|]. destruct e; auto.
Qed.

Lemma resteps_ordered_start (tr : list event) scp pt prec :
  resteps_ordered tr ->
  resteps_ordered (tr ++ [EvQueueAppendStart scp pt prec]).
Proof.
  induction tr as [|e tr IH]; simpl; [auto|].
  destruct e; auto.
  rewrite unsampled_step_start. intros [H Ht]; auto.
Qed.

Section Resteps.

Variable E : environment.
Variable m : move E.
Variable t0 : list event.

Lemma restepping_weaken (l : locals) (w : world E) :
  restepping E t0 l w -> restepping_trace E t0 w.
Proof. intros [tr [Ht [Ho _]]]. exists tr; auto. Qed.

(** A sample makes everything of [restepping] that is about the bracket
    void. *)
Lemma restepping_calc (l l' : locals) (w : world E) cb t :
  restepping E t0 l w ->
  restepping E t0 l' (snd (calc_position E cb m t w)).
Proof.
  intros [tr [Ht [Ho _]]].
  exists (EvCalcPosition cb t :: tr).
  rewrite calc_position_trace, Ht. split; [reflexivity|].
  split; [exact Ho|]. simpl; discriminate.
Qed.

Lemma restepping_find_step (l : locals) (fuel : nat) (target : float)
    (w : world E) :
  restepping E t0 l w ->
  match itersolve_find_step E fuel m (low l) (high l) target w with
  | Done r w' => restepping E t0 l w' /\ found E l w r w'
  | OutOfFuel w' => restepping E t0 l w'
  end.
Proof.
  apply (itersolve_find_step_keeps E m (fun _ => True) (restepping E t0)).
  - auto.
  - intros l1 w1 cb t H _. apply restepping_calc with l1; exact H.
Qed.

Lemma restepping_seek (l : locals) (w : world E) :
  restepping E t0 l w ->
  flow_restepping E t0 (seek_new_high_range E m l w).
Proof.
  intros H; unfold seek_new_high_range.
  destruct (_ <=? _)%float; simpl; [apply (restepping_weaken l); exact H|].
  match goal with
  | |- context [calc_position E ?cb m ?t w] =>
    pose proof (fun l' => restepping_calc l l' w cb t H) as Hs;
      destruct (calc_position E cb m t w) as [p w1]
  end.
  apply Hs.
Qed.

Lemma restepping_add_step (l : locals) (w0 w : world E) (target : float)
    (next : timepos) :
  restepping E t0 l w0 -> restepping E t0 l w -> found E l w0 next w ->
  flow_restepping E t0 (add_step E m l target next w).
Proof.
  intros H0 H Hf; unfold add_step.
  pose proof (do_queue_append_trace E (time next)
                (time next * mcu_freq l)%float w) as Ht.
  destruct (do_queue_append E (time next) (time next * mcu_freq l) w)
    as [ret w1].
  simpl in Ht.
  destruct H as [tr [Hw [Ho Hb]]].
  assert (Hnew : resteps_ordered
                   (EvQueueAppend (time next) (time next * mcu_freq l) ret
                      :: tr)).
  { simpl. split; [|exact Ho].
    destruct (unsampled_step tr) as [tp|] eqn:Hu; [|exact I].
    destruct (Hb tp eq_refl) as [Hlo Hhi].
    destruct Hf as [[_ [->|Hl]]|[cb [tr1 Hc]]].
    - right; exact Hhi.
    - left; congruence.
    - destruct H0 as [tr0 [Hw0 _]].
      rewrite Hw0, Hw, app_assoc in Hc.
      apply (app_inv_tail t0 tr
               (EvCalcPosition cb (time next) :: tr1 ++ tr0)) in Hc.
      subst tr; discriminate. }
  assert (Hk : restepping_trace E t0 w1).
  { exists (EvQueueAppend (time next) (time next * mcu_freq l) ret :: tr).
    rewrite Ht, Hw; split; [reflexivity|exact Hnew]. }
  destruct (negb _); [exact Hk|].
  cbv zeta.
  match goal with
  | |- context [if (?a <=? ?b)%float then _ else _] =>
    destruct (a <=? b)%float eqn:Hc
  end.
  - (* the bracket is sought anew: what the locals say does not matter *)
    clear Hc. unfold seek_new_high_range.
    match goal with
    | |- context [if (?a <=? ?b)%float then _ else _] =>
      destruct (a <=? b)%float
    end; [exact Hk|].
    destruct Hk as [tr1 [Hw1 Ho1]].
    match goal with
    | |- context [calc_position E ?cb m ?t w1] =>
      pose proof (calc_position_trace E cb m t w1) as Hs;
        destruct (calc_position E cb m t w1) as [p w2]
    end.
    simpl in Hs.
    eexists (EvCalcPosition _ _ :: tr1).
    rewrite Hs, Hw1. split; [reflexivity|]. split; [exact Ho1|].
    simpl; discriminate.
  - exists (EvQueueAppend (time next) (time next * mcu_freq l) ret :: tr).
    rewrite Ht, Hw; split; [reflexivity|]. split; [exact Hnew|].
    simpl. intros tp Htp; inversion Htp; subst tp. split; [reflexivity|].
    exact Hc.
Qed.

Lemma restepping_find_and_add_step (fuel : nat) (l : locals) (w : world E) :
  restepping E t0 l w ->
  flow_restepping E t0 (find_and_add_step E fuel m l w).
Proof.
  intros H; unfold find_and_add_step.
  pose proof (restepping_find_step l fuel
                (position (last l) + signed_half_step l)%float w H) as Hf.
  destruct (itersolve_find_step E fuel m _ _ _ w) as [next w1|w1]; simpl.
  - destruct Hf as [H1 Hf]. apply (restepping_add_step l w w1); assumption.
  - apply (restepping_weaken l); exact Hf.
Qed.

Lemma restepping_set_dir (l : locals) (w : world E) (d : Z) :
  restepping E t0 l w ->
  restepping E t0 (set_sdir l d) (snd (do_set_next_step_dir E d w)).
Proof.
  intros [tr [Hw [Ho Hb]]].
  exists (EvSetNextStepDir d (fst (do_set_next_step_dir E d w)) :: tr).
  rewrite do_set_next_step_dir_trace, Hw. auto.
Qed.

Lemma restepping_body (fuel : nat) (l : locals) (w : world E) :
  restepping E t0 l w -> flow_restepping E t0 (gen_steps_body E fuel m l w).
Proof.
  intros H; unfold gen_steps_body.
  destruct (abs _ <? half_step l)%float; [apply restepping_seek; exact H|].
  destruct (negb _); [|apply restepping_find_and_add_step; exact H].
  destruct (abs _ <? _)%float; [apply restepping_seek; exact H|].
  destruct (_ && _).
  - match goal with
    | |- context [calc_position E ?cb m ?t w] =>
      pose proof (fun l' => restepping_calc l l' w cb t H) as Hs;
        destruct (calc_position E cb m t w) as [p w1]
    end.
    apply Hs.
  - match goal with
    | |- context [do_set_next_step_dir E ?d w] =>
      pose proof (restepping_set_dir l w d H) as Hs;
        destruct (do_set_next_step_dir E d w) as [ret w1]
    end.
    simpl in Hs.
    destruct (negb _); simpl.
    + apply (restepping_weaken _ _ Hs).
    + apply restepping_find_and_add_step; exact Hs.
Qed.

Lemma restepping_loop (fuel : nat) :
  forall l w, restepping E t0 l w ->
    restepping_trace E t0 (final_world (gen_steps_loop E fuel m l w)).
Proof.
  induction fuel as [|fuel IH]; intros l w H; simpl;
    [apply (restepping_weaken l); exact H|].
  pose proof (restepping_body fuel l w H) as Hb.
  destruct (gen_steps_body E fuel m l w) as [[l'|l'|ret] w'|w'];
    simpl in *; auto.
Qed.

End Resteps.

(** X13.  The order the generator itself keeps between two steps.  A step
    appended with no sample of the oracle since the step before it is at the
    very time of that step, which is then the low end of the bracket, or at
    the time of the high end, which does not compare at or before it: the
    test [last.time >= high.time] failed when the step before was
    appended. *)
Theorem gen_steps_orders_resteps (E : environment) (fuel : nat)
    (m : move E) (w : world E) :
  resteps_ordered
    (call_trace w (final_world (itersolve_gen_steps E fuel m w))).
Proof.
  set (start := EvQueueAppendStart (sc (w_sk w)) (print_time E m) 0.5).
  assert (H : exists tr ending,
             w_trace (final_world (itersolve_gen_steps E fuel m w))
             = ending ++ tr ++ start :: w_trace w
             /\ resteps_ordered tr
             /\ (ending = [] \/ ending = [EvQueueAppendFinish]
                 \/ exists cb, ending = [EvPostCb cb; EvQueueAppendFinish])).
  { unfold itersolve_gen_steps, gen_steps_init.
    match goal with
    | |- context [gen_steps_loop E fuel m ?l ?w0] =>
      assert (H0 : restepping E (start :: w_trace w) l w0)
        by (exists []; simpl; repeat split; auto; discriminate);
        pose proof (restepping_loop E m _ fuel l w0 H0) as H;
        destruct (gen_steps_loop E fuel m l w0) as [[ret|l'] w'|w']
    end; simpl in H; simpl; destruct H as [tr [Ht Ho]].
    - exists tr, []; simpl; auto.
    - destruct (post_cb (w_sk w') =? 0)%N; simpl; rewrite Ht.
      + exists tr, [EvQueueAppendFinish]; simpl; auto.
      + exists tr, [EvPostCb (post_cb (w_sk w')); EvQueueAppendFinish];
          simpl; eauto 6.
    - exists tr, []; simpl; auto. }
  destruct H as [tr [ending [Ht [Ho He]]]].
  rewrite (call_trace_app w _ (ending ++ tr ++ [start]))
    by (rewrite Ht, <- !app_assoc; reflexivity).
  pose proof (resteps_ordered_start tr _ _ _ Ho
              : resteps_ordered (tr ++ [start])) as Ho'.
  destruct He as [->|[->|[cb ->]]]; exact Ho'.
Qed.

(** ** The ordinary shapes of a move *)



(** ** No pass without a call

    Every pass through the body of the generator's loop that goes round
    again has called the oracle or the queue, and so has every pass through
    the body of the Step Finder's loop: a run that is out of fuel has made
    at least as many calls as it was given fuel. *)

Section Busy.

Variable E : environment.

Lemma find_step_loop_busy (fuel : nat) :
  forall cb m target high_sign lo hi best w,
    match find_step_loop E fuel cb m target high_sign lo hi best w with
    | Done _ w' => length (w_trace w) <= length (w_trace w')
    | OutOfFuel w' => fuel + length (w_trace w) <= length (w_trace w')
    end.
Proof.
  induction fuel as [|fuel IH]; intros cb m target high_sign lo hi best w;
    simpl; [lia|].
  destruct (abs _ <=? _)%float; [lia|].
  match goal with
  | |- context [calc_position E cb m ?t w] =>
    pose proof (calc_position_trace E cb m t w) as Ht;
      destruct (calc_position E cb m t w) as [p w1]
  end.
  simpl in Ht.
  assert (Hgo : forall lo' hi' best',
    match find_step_loop E fuel cb m target high_sign lo' hi' best' w1 with
    | Done _ w' => length (w_trace w) <= length (w_trace w')
    | OutOfFuel w' => S (fuel + length (w_trace w)) <= length (w_trace w')
    end).
  { intros lo' hi' best'.
    specialize (IH cb m target high_sign lo' hi' best' w1).
    destruct (find_step_loop E fuel cb m target high_sign lo' hi' best' w1);
      rewrite Ht in IH; simpl in IH; lia. }
  destruct (Bool.eqb _ _); apply Hgo.
Qed.

Lemma itersolve_find_step_busy (fuel : nat) m lo hi target w :
  match itersolve_find_step E fuel m lo hi target w with
  | Done _ w' => length (w_trace w) <= length (w_trace w')
  | OutOfFuel w' => fuel + length (w_trace w) <= length (w_trace w')
  end.
Proof.
  unfold itersolve_find_step.
  destruct (_ =? 0)%float; [lia|].
  destruct (Bool.eqb _ _); [lia|].
  apply find_step_loop_busy.
Qed.

Lemma seek_new_high_range_busy m l w :
  match seek_new_high_range E m l w with
  | Done (Continue _) w' => S (length (w_trace w)) <= length (w_trace w')
  | Done _ w' => length (w_trace w) <= length (w_trace w')
  | OutOfFuel _ => False
  end.
Proof.
  unfold seek_new_high_range.
  destruct (_ <=? _)%float; [lia|].
  match goal with
  | |- context [calc_position E ?cb m ?t w] =>
    pose proof (calc_position_trace E cb m t w) as Ht;
      destruct (calc_position E cb m t w) as [p w1]
  end.
  simpl in Ht. rewrite Ht; simpl; lia.
Qed.

Lemma add_step_busy m l target next w :
  match add_step E m l target next w with
  | Done _ w' => S (length (w_trace w)) <= length (w_trace w')
  | OutOfFuel _ => False
  end.
Proof.
  unfold add_step.
  match goal with
  | |- context [do_queue_append E ?t ?c w] =>
    pose proof (do_queue_append_trace E t c w) as Ht;
      destruct (do_queue_append E t c w) as [ret w1]
  end.
  simpl in Ht.
  destruct (negb _); [rewrite Ht; simpl; lia|].
  destruct (_ <=? _)%float; [|rewrite Ht; simpl; lia].
  match goal with
  | |- context [seek_new_high_range E m ?l1 w1] =>
    pose proof (seek_new_high_range_busy m l1 w1) as Hs;
      destruct (seek_new_high_range E m l1 w1) as [[l2|l2|r] w2|w2]
  end; try (rewrite Ht in Hs; simpl in Hs; lia); exact Hs.
Qed.

Lemma find_and_add_step_busy fuel m l w :
  match find_and_add_step E fuel m l w with
  | Done _ w' => S (length (w_trace w)) <= length (w_trace w')
  | OutOfFuel w' => fuel + length (w_trace w) <= length (w_trace w')
  end.
Proof.
  unfold find_and_add_step.
  match goal with
  | |- context [itersolve_find_step E fuel m ?lo ?hi ?t w] =>
    pose proof (itersolve_find_step_busy fuel m lo hi t w) as Hf;
      destruct (itersolve_find_step E fuel m lo hi t w) as [next w1|w1]
  end; simpl; [|exact Hf].
  match goal with
  | |- context [add_step E m l ?t next w1] =>
    pose proof (add_step_busy m l t next w1) as Ha;
      destruct (add_step E m l t next w1) as [fl w2|w2]
  end; [lia|contradiction].
Qed.

Lemma gen_steps_body_busy fuel m l w :
  match gen_steps_body E fuel m l w with
  | Done (Continue _) w' => S (length (w_trace w)) <= length (w_trace w')
  | Done _ w' => length (w_trace w) <= length (w_trace w')
  | OutOfFuel w' => fuel + length (w_trace w) <= length (w_trace w')
  end.
Proof.
  assert (Hseek :
    match seek_new_high_range E m l w with
    | Done (Continue _) w' => S (length (w_trace w)) <= length (w_trace w')
    | Done _ w' => length (w_trace w) <= length (w_trace w')
    | OutOfFuel w' => fuel + length (w_trace w) <= length (w_trace w')
    end).
  { pose proof (seek_new_high_range_busy m l w) as Hs.
    destruct (seek_new_high_range E m l w) as [[l2|l2|r] w2|w2];
      try exact Hs; contradiction. }
  assert (Hfind : forall l1 w1,
    length (w_trace w) <= length (w_trace w1) ->
    match find_and_add_step E fuel m l1 w1 with
    | Done (Continue _) w' => S (length (w_trace w)) <= length (w_trace w')
    | Done _ w' => length (w_trace w) <= length (w_trace w')
    | OutOfFuel w' => fuel + length (w_trace w) <= length (w_trace w')
    end).
  { intros l1 w1 Hle.
    pose proof (find_and_add_step_busy fuel m l1 w1) as Hf.
    destruct (find_and_add_step E fuel m l1 w1) as [[l2|l2|r] w2|w2]; lia. }
  unfold gen_steps_body.
  destruct (abs _ <? half_step l)%float; [exact Hseek|].
  destruct (negb _); [|apply Hfind; lia].
  destruct (abs _ <? _)%float; [exact Hseek|].
  destruct (_ && _).
  - match goal with
    | |- context [calc_position E ?cb m ?t w] =>
      pose proof (calc_position_trace E cb m t w) as Ht;
        destruct (calc_position E cb m t w) as [p w1]
    end.
    simpl in Ht. rewrite Ht; simpl; lia.
  - match goal with
    | |- context [do_set_next_step_dir E ?d w] =>
      pose proof (do_set_next_step_dir_trace E d w) as Ht;
        destruct (do_set_next_step_dir E d w) as [ret w1]
    end.
    simpl in Ht.
    destruct (negb _); [rewrite Ht; simpl; lia|].
    apply Hfind. rewrite Ht; simpl; lia.
Qed.

Lemma gen_steps_loop_busy (fuel : nat) :
  forall m l w,
    match gen_steps_loop E fuel m l w with
    | Done _ w' => length (w_trace w) <= length (w_trace w')
    | OutOfFuel w' => fuel + length (w_trace w) <= S (length (w_trace w'))
    end.
Proof.
  induction fuel as [|fuel IH]; intros m l w; simpl; [lia|].
  pose proof (gen_steps_body_busy fuel m l w) as Hb.
  destruct (gen_steps_body E fuel m l w) as [[l1|l1|r] w1|w1]; try lia.
  specialize (IH m l1 w1).
  destruct (gen_steps_loop E fuel m l1 w1) as [r w2|w2]; lia.
Qed.

Lemma call_trace_length (w w' : world E) :
  length (call_trace w w') = length (w_trace w') - length (w_trace w).
Proof. unfold call_trace. rewrite length_firstn. lia. Qed.

(** A call that has not returned has made at least as many calls as it was
    given fuel. *)
Lemma gen_steps_busy (fuel : nat) (m : move E) (w w' : world E) :
  itersolve_gen_steps E fuel m w = OutOfFuel w' ->
  fuel <= length (call_trace w w').
Proof.
  unfold itersolve_gen_steps, gen_steps_init.
  match goal with
  | |- context [gen_steps_loop E fuel m ?l ?w0] =>
    pose proof (gen_steps_loop_busy fuel m l w0) as H;
      destruct (gen_steps_loop E fuel m l w0) as [[ret|l'] w1|w1]
  end; simpl; try discriminate.
  intros Hd; inversion Hd; subst w1.
  rewrite call_trace_length. simpl in H. lia.
Qed.

Lemma find_step_loop_calls (fuel : nat) :
  forall cb m target high_sign lo hi best w w',
    find_step_loop E fuel cb m target high_sign lo hi best w = OutOfFuel w' ->
    length (w_trace w') = fuel + length (w_trace w).
Proof.
  induction fuel as [|fuel IH]; intros cb m target high_sign lo hi best w w';
    simpl; [intros H; inversion H; reflexivity|].
  destruct (abs _ <=? _)%float; [discriminate|].
  match goal with
  | |- context [calc_position E cb m ?t w] =>
    pose proof (calc_position_trace E cb m t w) as Ht;
      destruct (calc_position E cb m t w) as [p w1]
  end.
  simpl in Ht.
  destruct (Bool.eqb _ _); intros H; apply IH in H; rewrite H, Ht; simpl; lia.
Qed.

End Busy.

(** X14.  No pass without a call.  The Step Finder samples the oracle once
    in every pass of its loop that does not end the search: a search that
    is still going after [fuel] passes has made exactly [fuel] calls, all of
    them to the oracle.  The generator calls the oracle or the queue in every
    pass of its loop that goes round again: a call that has not returned
    has made at least as many calls as it was given fuel, for its own passes
    and for those of the Step Finder.  So neither loop can go round for ever
    in silence. *)
Theorem gen_steps_calls_out_in_every_pass (E : environment) (fuel : nat)
    (m : move E) (w : world E) :
  (forall lo hi target w',
      itersolve_find_step E fuel m lo hi target w = OutOfFuel w' ->
      length (call_trace w w') = fuel)
  /\ (forall w',
         itersolve_gen_steps E fuel m w = OutOfFuel w' ->
         fuel <= length (call_trace w w')).
Proof.
  split.
  - intros lo hi target w'. unfold itersolve_find_step.
    destruct (_ =? 0)%float; [discriminate|].
    destruct (Bool.eqb _ _); [discriminate|].
    intros H. apply find_step_loop_calls in H.
    rewrite call_trace_length, H. lia.
  - intros w'. apply gen_steps_busy.
Qed.


(** * Runs of the concrete environment *)

Module Scenarios.

Import Sim.

(** C6.  The move of 1 s with oracle [10 t], step distance 0.1, commanded
    position 0 and the queue in the forward direction: the generator returns
    0 after 100 calls to [queue_append], at times within 1e-9 of
    0.005, 0.015, ..., 0.995, with no call to
    [queue_append_set_next_step_dir], and leaves [commanded_pos] within 1e-9
    of 10. *)
Theorem constant_velocity_scenario :
  match constant_velocity 300 1 1000 with
  | Done ret w =>
    ret = 0%Z
    /\ length (step_times (events w)) = 100
    /\ evenly_spaced (step_times (events w)) (5 # 1000) (10 # 1000)
                     (1 # 1000000000) = true
    /\ count is_set_dir (events w) = 0
    /\ count is_finish (events w) = 1
    /\ near (commanded_pos (w_sk w)) 10 (1 # 1000000000) = true
  | OutOfFuel _ => False
  end.
Proof. vm_compute. repeat split; reflexivity. Qed.

(** C1, where the code fails it.  With the oracle standing still two steps
    away from the commanded position, the generator appends two steps with
    the same clock: the second comes from the Step Finder's same-sign exit,
    which returns the time of [low], and [low] is the step before.  The same
    happens with an oracle that starts at the commanded position and is
    continuous, when it climbs two steps within the Step Finder's
    tolerance. *)
Lemma same_sign_exit_repeats_a_clock :
  match standing_apart 100 with
  | Done ret w =>
    ret = 0%Z
    /\ append_clocks (events w) = [0.006103515625%float; 0.006103515625%float]
    /\ strictly_increasing (append_clocks (events w)) = false
  | OutOfFuel _ => False
  end
  /\ match steep_ramp 100 with
     | Done ret w =>
       ret = 0%Z
       /\ length (append_clocks (events w)) = 2
       /\ strictly_increasing (append_clocks (events w)) = false
     | OutOfFuel _ => False
     end.
Proof. vm_compute. repeat split; reflexivity. Qed.

(** The oracles of the concrete environment have no side effect. *)
Lemma env_calc_keeps_commanded_pos : calc_keeps_commanded_pos (env true).
Proof. intros cb sk m t; reflexivity. Qed.

Lemma env_calc_keeps_frame : calc_keeps_frame (env true).
Proof. intros cb sk m t; apply same_frame_refl. Qed.

Lemma env_post_keeps_frame : post_keeps_frame (env true).
Proof.
  intros cb sk; unfold same_frame; simpl; unfold hook.
  destruct cb as [|[p|p|]]; try (repeat split; reflexivity).
  destruct (commanded_pos sk <? -4)%float; repeat split; reflexivity.
Qed.

(** C2, at the constant velocity move with a queue that fails on its
    fourth operation: the call returns that status, -1. *)
Lemma gen_steps_returns_queue_failure_witness :
  calc_keeps_commanded_pos (env true)
  /\ (let o := constant_velocity 300 1 3 in
      exists tr,
        w_trace (final_world o)
        = tr ++ w_trace (the_world 0 0.1 1%N 0%N 1 3)
        /\ forall e, In e tr -> queue_failure e = true ->
             exists ret tr',
               queue_status e = Some ret
               /\ o = Done ret (final_world o)
               /\ tr = e :: tr'
               /\ commanded_pos (w_sk (final_world o))
                  = commanded_pos (w_sk (the_world 0 0.1 1%N 0%N 1 3))
               /\ count is_finish tr = 0
               /\ count is_post tr = 0)
  /\ match constant_velocity 300 1 3 with
     | Done ret w => ret = (-1)%Z /\ count queue_failure (w_trace w) = 1
     | OutOfFuel _ => False
     end.
Proof.
  split; [exact env_calc_keeps_commanded_pos|]. split.
  - exact (gen_steps_returns_queue_failure (env true)
             env_calc_keeps_commanded_pos 300 (the_move 1)
             (the_world 0 0.1 1%N 0%N 1 3)).
  - vm_compute. split; reflexivity.
Defined.

(** C3, amended, at the first pass of a move that does not move. *)
Lemma bracket_expansion_step_witness :
  (abs (position (high first_pass) - position (last first_pass))
   <? half_step first_pass)%float = true
  /\ (move_t (env true) (the_move 1) <=? time (high first_pass))%float = false
  /\ gen_steps_body (env true) 0 (the_move 1) first_pass
                    (the_world 0 0.1 0%N 0%N 1 10)
     = Done (Continue second_pass)
            (@mk_world (env true)
               (w_sk (the_world 0 0.1 0%N 0%N 1 10))
               (w_queue (the_world 0 0.1 0%N 0%N 1 10))
               [EvCalcPosition 0%N 0.0001]).
Proof.
  split; [reflexivity|]. split; [reflexivity|].
  exact (bracket_expansion_step (env true) 0 (the_move 1) first_pass
           (the_world 0 0.1 0%N 0%N 1 10) eq_refl eq_refl).
Defined.

(** C3, refuted.  At the second pass (which the first pass leads to) the
    displacement is below half a step and [high.time] = 0.0001 is before the
    end of the move, yet the new [high.time] is not the old one plus
    [seek_time_delta], 0.0003, nor the end of the move: it is
    [last.time + seek_time_delta], 0.0002. *)
Lemma expansion_restarts_from_last_time :
  gen_steps_passes (env true) 1 0 (the_move 1) first_pass
                   (the_world 0 0.1 0%N 0%N 1 10)
  = Some (second_pass,
          @mk_world (env true) (w_sk (the_world 0 0.1 0%N 0%N 1 10))
                    (w_queue (the_world 0 0.1 0%N 0%N 1 10))
                    [EvCalcPosition 0%N 0.0001])
  /\ (abs (position (high second_pass) - position (last second_pass))
      <? half_step second_pass)%float = true
  /\ (move_t (env true) (the_move 1) <=? time (high second_pass))%float = false
  /\ match gen_steps_body (env true) 0 (the_move 1) second_pass
                          (the_world 0 0.1 0%N 0%N 1 10) with
     | Done (Continue l') _ =>
       (time (high l')
        =? time (high second_pass) + seek_time_delta second_pass)%float
       = false
       /\ (time (high l') =? move_t (env true) (the_move 1))%float = false
       /\ time (high l')
          = (time (last second_pass) + seek_time_delta second_pass)%float
       /\ low l' = high second_pass
       /\ seek_time_delta l' = (0.0002 + 0.0002)%float
     | _ => False
     end.
Proof. vm_compute. repeat split; reflexivity. Qed.

(** C4, refuted.  A stepper commanded at -0.02 with steps of 0.1, and an
    oracle that stands still at 0.03: the oracle is less than half a step
    away, by 2^-58, but the difference the generator computes is rounded to
    exactly half a step, and it appends a step.  The same at -1 and
    9999999999999998 with steps of 2e16: the distance 9999999999999999 is
    rounded to 1e16, half a step; the generator appends two steps, with a
    change of direction between them. *)
Lemma rounded_distance_reaches_half_a_step :
  exactly_within_half_step 0.03 (-0.02) 0.1 = true
  /\ (abs (0.03 - -0.02) <? 0.5 * 0.1)%float = false
  /\ match Course.one_second 1200 (fun _ => 0.03%float) (-0.02) 0.1 1 with
     | Done ret w =>
       ret = 0%Z /\ count is_append (w_trace w) = 1
       /\ count is_set_dir (w_trace w) = 0
     | OutOfFuel _ => False
     end
  /\ exactly_within_half_step 9999999999999998 (-1) 20000000000000000 = true
  /\ (abs (9999999999999998 - -1) <? 0.5 * 20000000000000000)%float = false
  /\ match Course.one_second 1200 (fun _ => 9999999999999998%float) (-1)
                             20000000000000000 1 with
     | Done ret w =>
       ret = 0%Z /\ count is_append (w_trace w) = 2
       /\ count is_set_dir (w_trace w) = 1
     | OutOfFuel _ => False
     end.
Proof. vm_compute. repeat split; reflexivity. Qed.

(** C4, amended, at a move that stands still at 0.02 with steps of 0.1. *)
Lemma sub_half_step_move_emits_nothing_witness :
  (0 <? move_t (env true) (the_move 1))%float = true
  /\ within_half_step (env true) (the_move 1)
                      (the_world 0 0.1 5%N 0%N 1 10) (fun _ => 0.02%float)
  /\ exists w' tr,
       itersolve_gen_steps (env true) 1102 (the_move 1)
                           (the_world 0 0.1 5%N 0%N 1 10) = Done 0%Z w'
       /\ w_trace w' = tr ++ w_trace (the_world 0 0.1 5%N 0%N 1 10)
       /\ count is_append tr = 0
       /\ count is_set_dir tr = 0.
Proof.
  assert (Hm : (0 <? move_t (env true) (the_move 1))%float = true)
    by reflexivity.
  assert (Hw : within_half_step (env true) (the_move 1)
                 (the_world 0 0.1 5%N 0%N 1 10) (fun _ => 0.02%float))
    by (split; [intros sk t; reflexivity|intros t _ _; reflexivity]).
  split; [exact Hm|]. split; [exact Hw|].
  exact (sub_half_step_move_emits_nothing (env true) (the_move 1)
           (the_world 0 0.1 5%N 0%N 1 10) (fun _ => 0.02%float) 1102
           Hm Hw (le_n 1102)).
Defined.

(** C5, at a bracket that lies wholly below the target. *)
Lemma find_step_same_sign_returns_low_time_witness :
  (0.5 =? 1)%float = false
  /\ signbit (env true) (0.5 - 1) = signbit (env true) (0 - 1)
  /\ itersolve_find_step (env true) 0 (the_move 1)
       {| time := 0; position := 0 |} {| time := 1; position := 0.5 |} 1
       (the_world 0 0.1 1%N 0%N 1 10)
     = Done {| time := 0; position := 1 |} (the_world 0 0.1 1%N 0%N 1 10).
Proof.
  split; [reflexivity|]. split; [reflexivity|].
  exact (find_step_same_sign_returns_low_time (env true) 0 (the_move 1)
           {| time := 0; position := 0 |} {| time := 1; position := 0.5 |} 1
           (the_world 0 0.1 1%N 0%N 1 10) eq_refl eq_refl).
Defined.

(** C7, amended, at a high sample that sits on the target. *)
Lemma find_step_perfect_guess_returns_high_witness :
  is_finite 0.05 = true
  /\ (0.05 =? 0.05)%float = true
  /\ itersolve_find_step (env true) 0 (the_move 1)
       {| time := 0; position := 0 |} {| time := 1; position := 0.05 |} 0.05
       (the_world 0 0.1 1%N 0%N 1 10)
     = Done {| time := 1; position := 0.05 |} (the_world 0 0.1 1%N 0%N 1 10).
Proof.
  split; [reflexivity|]. split; [reflexivity|].
  exact (find_step_perfect_guess_returns_high (env true) 0 (the_move 1)
           {| time := 0; position := 0 |} {| time := 1; position := 0.05 |}
           0.05 (the_world 0 0.1 1%N 0%N 1 10) eq_refl eq_refl).
Defined.

(** C7, refuted.  A high position equal to the target, both infinite: the
    translated position is NaN, not zero, and the high sample is not what
    comes back.  Where the sign bit of that NaN is set the Step Finder takes
    its same-sign exit; where it is clear it enters the search and calls the
    oracle. *)
Lemma infinite_target_is_no_perfect_guess :
  (infinity =? infinity)%float = true
  /\ itersolve_find_step (env true) 10 (the_move 1)
       {| time := 0; position := 0 |} {| time := 1; position := infinity |}
       infinity (the_world 0 0.1 1%N 0%N 1 10)
     = Done {| time := 0; position := infinity |}
            (the_world 0 0.1 1%N 0%N 1 10)
  /\ match itersolve_find_step (env false) 10 (the_move 1)
             {| time := 0; position := 0 |}
             {| time := 1; position := infinity |} infinity
             (@mk_world (env false)
                        (w_sk (the_world 0 0.1 1%N 0%N 1 10))
                        (w_queue (the_world 0 0.1 1%N 0%N 1 10)) []) with
     | Done _ _ => False
     | OutOfFuel w => count is_calc (w_trace w) = 10
     end.
Proof. vm_compute. repeat split; reflexivity. Qed.











(** C9, at a call whose post hook does write [commanded_pos]. *)
Lemma gen_steps_writes_only_commanded_pos_witness :
  calc_keeps_frame (env true)
  /\ post_keeps_frame (env true)
  /\ same_frame
       (w_sk (the_world (-5) 0.1 6%N 1%N 1 10))
       (w_sk (final_world
                (itersolve_gen_steps (env true) 300 (the_move 1)
                                     (the_world (-5) 0.1 6%N 1%N 1 10)))).
Proof.
  split; [exact env_calc_keeps_frame|]. split; [exact env_post_keeps_frame|].
  exact (gen_steps_writes_only_commanded_pos (env true)
           env_calc_keeps_frame env_post_keeps_frame 300 (the_move 1)
           (the_world (-5) 0.1 6%N 1%N 1 10)).
Defined.

(** C10, refuted.  The oracle stands still at the commanded position, -5;
    the call returns 0, appends no step and ends the session once; the post
    hook, run after [commanded_pos] was written, leaves it at 3.  And with
    no hook: a stepper commanded at -0.02 with steps of 0.1 and an oracle
    that stands still at 0.03 is less than half a step away from it, but the
    difference the generator computes is rounded to half a step; it appends
    a step and leaves [commanded_pos] at 0.08. *)
Lemma post_hook_changes_commanded_pos :
  (0 <? move_t (env true) (the_move 1))%float = true
  /\ within_half_step (env true) (the_move 1)
                      (the_world (-5) 0.1 6%N 1%N 1 10) (fun _ => (-5)%float)
  /\ match itersolve_gen_steps (env true) 1102 (the_move 1)
                               (the_world (-5) 0.1 6%N 1%N 1 10) with
     | Done ret w' =>
       ret = 0%Z
       /\ count is_append (w_trace w') = 0
       /\ count is_finish (w_trace w') = 1
       /\ commanded_pos (w_sk w') = 3%float
       /\ (commanded_pos (w_sk w')
           =? commanded_pos (w_sk (the_world (-5) 0.1 6%N 1%N 1 10)))%float
          = false
     | OutOfFuel _ => False
     end
  /\ exactly_within_half_step 0.03 (-0.02) 0.1 = true
  /\ match Course.one_second 1200 (fun _ => 0.03%float) (-0.02) 0.1 1 with
     | Done ret w' =>
       ret = 0%Z
       /\ count is_append (w_trace w') = 1
       /\ count is_post (w_trace w') = 0
       /\ (commanded_pos (w_sk w') =? -0.02)%float = false
       /\ near (commanded_pos (w_sk w')) (8 # 100) (1 # 1000000000) = true
     | OutOfFuel _ => False
     end.
Proof.
  split; [reflexivity|]. split.
  - split; [intros sk t; reflexivity|intros t _ _; reflexivity].
  - vm_compute. repeat split; reflexivity.
Qed.

(** C10, amended, at a call whose post hook is installed and finds nothing
    to change. *)
Lemma sub_half_step_move_keeps_commanded_pos_witness :
  (0 <? move_t (env true) (the_move 1))%float = true
  /\ within_half_step (env true) (the_move 1)
                      (the_world 0 0.1 5%N 1%N 1 10) (fun _ => 0.02%float)
  /\ exists w' tr,
       itersolve_gen_steps (env true) 1102 (the_move 1)
                           (the_world 0 0.1 5%N 1%N 1 10) = Done 0%Z w'
       /\ w_trace w' = tr ++ w_trace (the_world 0 0.1 5%N 1%N 1 10)
       /\ count is_append tr = 0
       /\ count is_finish tr = 1
       /\ w_sk w'
          = (if (post_cb (w_sk (the_world 0 0.1 5%N 1%N 1 10)) =? 0)%N
             then w_sk (the_world 0 0.1 5%N 1%N 1 10)
             else call_post (env true)
                    (post_cb (w_sk (the_world 0 0.1 5%N 1%N 1 10)))
                    (w_sk (the_world 0 0.1 5%N 1%N 1 10)))
       /\ (hook_keeps_commanded_pos (env true)
                                    (the_world 0 0.1 5%N 1%N 1 10) ->
           commanded_pos (w_sk w')
           = commanded_pos (w_sk (the_world 0 0.1 5%N 1%N 1 10))).
Proof.
  assert (Hm : (0 <? move_t (env true) (the_move 1))%float = true)
    by reflexivity.
  assert (Hw : within_half_step (env true) (the_move 1)
                 (the_world 0 0.1 5%N 1%N 1 10) (fun _ => 0.02%float))
    by (split; [intros sk t; reflexivity|intros t _ _; reflexivity]).
  split; [exact Hm|]. split; [exact Hw|].
  exact (sub_half_step_move_keeps_commanded_pos (env true) (the_move 1)
           (the_world 0 0.1 5%N 1%N 1 10) (fun _ => 0.02%float) 1102
           Hm Hw (le_n 1102)).
Defined.

End Scenarios.

(** * Further runs of the concrete environments *)

Module Examples.

Import Sim.

(** X1, at the first step of the move there and back, searched from the
    bracket [0, 0.01]: the Step Finder returns its third and last sample. *)
Lemma find_step_returns_endpoint_or_last_sample_witness :
  let w := the_world 0 0.1 4%N 0%N 1 10 in
  let low := {| time := 0; position := 0 |} in
  let high := {| time := 0.01; position := oracle 4%N 0.01 |} in
  let o := itersolve_find_step (env true) 50 (the_move 1) low high 0.05 w in
  match o with
  | Done r w' =>
    (w' = w /\ (r = high \/ r = {| time := time low; position := 0.05 |}))
    \/ exists w1 tr,
         w_trace w1 = tr ++ w_trace w
         /\ calc_position (env true) (calc_position_cb (w_sk w)) (the_move 1)
                          (time r) w1
            = (position r, w')
  | OutOfFuel _ => True
  end
  /\ match o with
     | Done r w' =>
       count is_calc (w_trace w') = 3
       /\ hd_error (calc_times (w_trace w')) = Some (time r)
       /\ position r = oracle 4%N (time r)
     | OutOfFuel _ => False
     end.
Proof.
  intros w low high o. split.
  - exact (find_step_returns_endpoint_or_last_sample (env true) (the_move 1)
             50 low high 0.05 w).
  - vm_compute. repeat split; reflexivity.
Defined.

(** X6, at one second of cruise backwards ([-10 t], steps of 0.1) with the
    queue in the forward direction: one change of direction, 100 steps,
    and [commanded_pos] ends where the steps take it, within 1e-9 of -10. *)
Lemma gen_steps_commanded_pos_counts_steps_witness :
  let w := Plain.the_world 0 0.1 11%N 1 in
  let w' := final_world (Plain.one_second 400 11%N 1) in
  post_keeps_commanded_pos Plain.env
  /\ itersolve_gen_steps Plain.env 400 (the_move 1) w = Done 0%Z w'
  /\ commanded_pos (w_sk w')
     = position_after (0.5 * step_dist (w_sk w))
         (stepcompress_get_step_dir Plain.env (sc (w_sk w)) (w_queue w))
         (commanded_pos (w_sk w)) (call_trace w w')
  /\ count is_append (call_trace w w') = 100
  /\ count is_set_dir (call_trace w w') = 1
  /\ count is_post (call_trace w w') = 1
  /\ near (commanded_pos (w_sk w')) (-10) (1 # 1000000000) = true.
Proof.
  intros w w'.
  assert (Hpost : post_keeps_commanded_pos Plain.env)
    by (intros cb sk; reflexivity).
  assert (Hrun : itersolve_gen_steps Plain.env 400 (the_move 1) w
                 = Done 0%Z w')
    by (vm_compute; reflexivity).
  split; [exact Hpost|]. split; [exact Hrun|]. split.
  - exact (gen_steps_commanded_pos_counts_steps Plain.env 400 (the_move 1)
             w w' Hpost Hrun).
  - vm_compute. repeat split; reflexivity.
Defined.

(** X7, at one second of the move there and back. *)
Lemma gen_steps_asks_one_oracle_witness :
  let w := the_world 0 0.1 4%N 0%N 1 1000 in
  calc_keeps_frame (env true)
  /\ same_oracle (calc_position_cb (w_sk w))
       (call_trace w
          (final_world (itersolve_gen_steps (env true) 400 (the_move 1) w))).
Proof.
  intros w. split; [exact Scenarios.env_calc_keeps_frame|].
  exact (gen_steps_asks_one_oracle (env true) 400 (the_move 1) w
           Scenarios.env_calc_keeps_frame).
Defined.

(** X9, at a move of no duration, with a post hook installed. *)
Lemma gen_steps_of_an_empty_move_witness :
  let w := the_world 0 0.1 1%N 1%N 1 10 in
  (move_t (env true) (the_move 0) <=? 0)%float = true
  /\ (0 <? 0.5 * step_dist (w_sk w))%float = true
  /\ is_finite (commanded_pos (w_sk w)) = true
  /\ itersolve_gen_steps (env true) 1 (the_move 0) w
     = Done 0%Z
         (@mk_world (env true) (w_sk w) (w_queue w)
            [EvPostCb 1%N; EvQueueAppendFinish;
             EvQueueAppendStart 1%N 0 0.5]).
Proof.
  intros w.
  split; [reflexivity|]. split; [reflexivity|]. split; [reflexivity|].
  exact (gen_steps_of_an_empty_move (env true) 0 (the_move 0) w
           eq_refl eq_refl eq_refl).
Defined.

(** X10, at the constant velocity move: the first sample is at 0.0001 s;
    and at a move that is over after 0.00005 s: it is at the end of the
    move. *)
Lemma gen_steps_first_sample_witness :
  let w := the_world 0 0.1 1%N 0%N 1 1000 in
  (0 <? move_t (env true) (the_move 1))%float = true
  /\ (0 <? 0.5 * step_dist (w_sk w))%float = true
  /\ is_finite (commanded_pos (w_sk w)) = true
  /\ (exists tr,
        call_trace w
          (final_world (itersolve_gen_steps (env true) 300 (the_move 1) w))
        = tr ++ [EvCalcPosition 1%N 0.0001; EvQueueAppendStart 1%N 0 0.5])
  /\ (exists tr,
        call_trace w
          (final_world
             (itersolve_gen_steps (env true) 300 (the_move 0.00005) w))
        = tr ++ [EvCalcPosition 1%N 0.00005; EvQueueAppendStart 1%N 0 0.5]).
Proof.
  intros w.
  split; [reflexivity|]. split; [reflexivity|]. split; [reflexivity|].
  split.
  - exact (gen_steps_first_sample (env true) 299 (the_move 1) w
             eq_refl eq_refl eq_refl).
  - exact (gen_steps_first_sample (env true) 299 (the_move 0.00005) w
             eq_refl eq_refl eq_refl).
Defined.

(** X11, at a stepper that is stepping in reverse, with half steps of 0.02,
    whose oracle stands 0.02 ahead: exactly half a step, which in the
    forward direction would be a step. *)
Lemma dead_band_move_emits_nothing_witness :
  let w := the_world 0 0.04 5%N 0%N 0 10 in
  (0 <? move_t (env true) (the_move 1))%float = true
  /\ (0 <? 0.5 * step_dist (w_sk w))%float = true
  /\ within_dead_band (env true) (the_move 1) w (fun _ => 0.02%float)
  /\ (abs (0.02 - commanded_pos (w_sk w)) <? 0.5 * step_dist (w_sk w))%float
     = false
  /\ (exists w' tr,
        itersolve_gen_steps (env true) 1102 (the_move 1) w = Done 0%Z w'
        /\ w_trace w' = tr ++ w_trace w
        /\ count is_append tr = 0
        /\ count is_set_dir tr = 0
        /\ count is_finish tr = 1
        /\ (hook_keeps_commanded_pos (env true) w ->
            commanded_pos (w_sk w') = commanded_pos (w_sk w)))
  /\ match itersolve_gen_steps (env true) 1102 (the_move 1)
             (the_world 0 0.04 5%N 0%N 1 10) with
     | Done ret w' => ret = 0%Z /\ count is_append (w_trace w') = 1
     | OutOfFuel _ => False
     end.
Proof.
  intros w.
  assert (Hm : (0 <? move_t (env true) (the_move 1))%float = true)
    by reflexivity.
  assert (Hs : (0 <? 0.5 * step_dist (w_sk w))%float = true) by reflexivity.
  assert (Hw : within_dead_band (env true) (the_move 1) w
                 (fun _ => 0.02%float))
    by (split; [intros sk t; reflexivity|intros t _ _; reflexivity]).
  split; [exact Hm|]. split; [exact Hs|]. split; [exact Hw|].
  split; [reflexivity|]. split.
  - exact (dead_band_move_emits_nothing (env true) (the_move 1) w
             (fun _ => 0.02%float) 1102 Hm Hs Hw (le_n 1102)).
  - vm_compute. split; reflexivity.
Defined.

(** X12, at one second of an oracle that stands still at 0.02 with steps
    of 0.1: fifteen samples, the last one at the end of the move. *)
Lemma idle_move_sampling_schedule_witness :
  let w := the_world 0 0.1 5%N 0%N 1 10 in
  (0 <? move_t (env true) (the_move 1))%float = true
  /\ (0 <? 0.5 * step_dist (w_sk w))%float = true
  /\ within_dead_band (env true) (the_move 1) w (fun _ => 0.02%float)
  /\ (exists w',
        itersolve_gen_steps (env true) 1102 (the_move 1) w = Done 0%Z w'
        /\ calc_times (rev (call_trace w w'))
           = idle_samples 1100 (move_t (env true) (the_move 1)) 0 0.0001)
  /\ idle_samples 1100 1 0 0.0001
     = [0.0001; 0.0002; 0.0004; 0.0008; 0.0016; 0.0032; 0.0064; 0.0128;
        0.0256; 0.0512; 0.1024; 0.2048; 0.4096; 0.8192; 1]%float.
Proof.
  intros w.
  assert (Hm : (0 <? move_t (env true) (the_move 1))%float = true)
    by reflexivity.
  assert (Hs : (0 <? 0.5 * step_dist (w_sk w))%float = true) by reflexivity.
  assert (Hw : within_dead_band (env true) (the_move 1) w
                 (fun _ => 0.02%float))
    by (split; [intros sk t; reflexivity|intros t _ _; reflexivity]).
  split; [exact Hm|]. split; [exact Hs|]. split; [exact Hw|]. split.
  - exact (idle_move_sampling_schedule (env true) (the_move 1) w
             (fun _ => 0.02%float) 1102 Hm Hs Hw (le_n 1102)).
  - vm_compute. reflexivity.
Defined.

(** X14, at the oracle that jumps: after 100 passes the call has not
    returned, and it has made at least 100 calls. *)
Lemma gen_steps_calls_out_in_every_pass_witness :
  match itersolve_gen_steps (env true) 100 (the_move 1) jump_world with
  | OutOfFuel w' => 100 <= length (call_trace jump_world w')
  | Done _ _ => False
  end.
Proof.
  destruct (itersolve_gen_steps (env true) 100 (the_move 1) jump_world)
    as [ret w'|w'] eqn:Hrun.
  - vm_compute in Hrun; discriminate.
  - exact (proj2 (gen_steps_calls_out_in_every_pass (env true) 100 (the_move 1)
                    jump_world) w' Hrun).
Defined.

End Examples.
